(** * randomize.hpp: uniform random values behind a memoized sampler cache

    A shallow embedding of [randomize/randomize.hpp] (namespace [randomize]
    and [randomize::details]).  The C++ templates over an arithmetic type [T]
    become definitions over a type class [Arith T]; the facilities of the
    standard library that the header only calls ([std::mt19937_64], the
    uniform distributions, the clock) are an interface [StdRandom], and the
    contract the C++ standard gives them is [StdRandomLaws].

    The first part holds the definitions: the program, a concrete standard
    library to run it on, and the notions the properties are stated with.
    The second part holds the properties and their proofs.

    Data model: LP64 ([short] 16 bits, [int] 32, [long] and [long long] 64,
    [std::size_t] 64 bits unsigned), [float] and [double] are IEEE 754
    binary32 and binary64 with round-to-nearest-even. *)

From Stdlib Require Import ZArith List Bool Lia.

From Stdlib Require Import Floats.SpecFloat.

Import ListNotations.

Local Open Scope Z_scope.

(** * The program *)

(** ** Outcomes

    Every function of the header is [noexcept] and holds no [throw]: an
    evaluation either returns, or runs into behaviour the C++ standard leaves
    undefined (a conversion whose result is not representable, a violated
    precondition of a standard component). *)

Inductive outcome (A : Type) : Type :=
| Returns (a : A)
| Undefined.

Arguments Returns {A} a.

Arguments Undefined {A}.

Definition bind {A B : Type} (c : outcome A) (k : A -> outcome B) : outcome B :=
  match c with
  | Returns a => k a
  | Undefined => Undefined
  end.

Notation "x <- c ;; k" := (bind c (fun x => k))
  (at level 61, c at next level, right associativity).

Notation "' p <- c ;; k" := (bind c (fun x => let p := x in k))
  (at level 61, p pattern, c at next level, right associativity).

Definition returns {A : Type} (c : outcome A) : bool :=
  match c with Returns _ => true | Undefined => false end.

(** ** [std::size_t] *)

Module SizeT.

Definition bits : Z := 64.

Definition modulus : Z := 2 ^ bits.

(** Conversion of an integer value to [std::size_t], and the result of
    unsigned arithmetic: reduction modulo [2^64]. *)
Definition wrap (z : Z) : Z := z mod modulus.

End SizeT.

(** ** Arithmetic types

    What the templates use of [T]: the comparisons of [std::pair<T, T>] keys,
    the mixed expression [hash * 31 + x] of [hash_pair], the trait
    [details::range<T>], and which uniform distribution
    [details::uniform_distribution] selects for [T]. *)

Class Arith (T : Type) : Type := {
  (** [a == b] *)
  op_eq : T -> T -> bool;
  (** [a <= b] *)
  op_le : T -> T -> bool;
  (** [h + x] for [std::size_t h], stored back into a [std::size_t]: the
      usual arithmetic conversions pick the type the sum is computed in. *)
  size_t_plus : Z -> T -> outcome Z;
  (** [range<T>::min] and [range<T>::max], of type [range<T>::value_type]
      ([T] itself for an integral [T], [long long] for a floating-point one) *)
  range_min : Z;
  range_max : Z;
  (** [static_cast<T>(v)] for [v] of type [range<T>::value_type] *)
  of_value_type : Z -> T;
  (** The precondition the standard puts on the parameters [(a, b)] of the
      distribution chosen for [T]: [uniform_int_distribution] when
      [is_integral<T>], [uniform_real_distribution] when
      [is_floating_point<T>]. *)
  dist_requires : T -> T -> bool;
  (** The parameters of a default-constructed distribution of that kind. *)
  dist_default : T * T
}.

(** What the proofs use of these operations: [==] is symmetric and
    transitive, [<=], the sum with a [std::size_t] and the precondition of
    the distribution do not tell equal values apart, a value that can be
    added is equal to itself (it is not a NaN), and the precondition of the
    distribution orders its parameters. *)
Class ArithLaws (T : Type) `{Arith T} : Prop := {
  op_eq_sym : forall x y, op_eq x y = true -> op_eq y x = true;
  op_eq_trans : forall x y z, op_eq x y = true -> op_eq y z = true -> op_eq x z = true;
  op_le_eq_l : forall x y z, op_eq x y = true -> op_le x z = op_le y z;
  op_le_eq_r : forall x y z, op_eq x y = true -> op_le z x = op_le z y;
  size_t_plus_eq : forall h x y, op_eq x y = true -> size_t_plus h x = size_t_plus h y;
  size_t_plus_self : forall h x, returns (size_t_plus h x) = true -> op_eq x x = true;
  dist_requires_le : forall a b, dist_requires a b = true -> op_le a b = true;
  dist_requires_eq : forall a a' b b',
    op_eq a a' = true -> op_eq b b' = true ->
    dist_requires a b = dist_requires a' b'
}.

(** [operator==] of [std::pair<T, T>]. *)
Definition pair_eq {T} `{Arith T} (p q : T * T) : bool :=
  op_eq (fst p) (fst q) && op_eq (snd p) (snd q).

(** ** [details::hash_pair] (the default branch, without Boost)

<<
    std::size_t hash{17};
    hash = hash * 31 + p.first;
    hash = hash * 31 + p.second;
    return (hash & 0x7fffffff) % 100003;
>>
    [hash * 31] multiplies a [std::size_t] by an [int]: unsigned arithmetic. *)

Definition hash_pair {T} `{Arith T} (p : T * T) : outcome Z :=
  let hash := 17 in
  hash <- size_t_plus (SizeT.wrap (hash * 31)) (fst p) ;;
  hash <- size_t_plus (SizeT.wrap (hash * 31)) (snd p) ;;
  Returns (Z.land hash 0x7fffffff mod 100003).

(** ** Integral types *)

Inductive int_kind : Type :=
| Short | UShort | Int | UInt | Long | ULong | LongLong | ULongLong.

Definition int_bits (k : int_kind) : Z :=
  match k with
  | Short | UShort => 16
  | Int | UInt => 32
  | Long | ULong | LongLong | ULongLong => 64
  end.

Definition int_signed (k : int_kind) : bool :=
  match k with
  | Short | Int | Long | LongLong => true
  | UShort | UInt | ULong | ULongLong => false
  end.

(** [std::numeric_limits<T>::min()] and [max()] of an integral [T]. *)
Definition numeric_limits_min (k : int_kind) : Z :=
  if int_signed k then - 2 ^ (int_bits k - 1) else 0.

Definition numeric_limits_max (k : int_kind) : Z :=
  if int_signed k then 2 ^ (int_bits k - 1) - 1 else 2 ^ int_bits k - 1.

(** The values of the integral type [k], as mathematical integers. *)
Definition integer (k : int_kind) : Type := Z.

(** [h + x]: [x] is converted to the 64-bit unsigned type of [h] (every
    integral type of the data model has a rank or a width that makes the
    common type 64-bit unsigned), the sum wraps. *)
Definition int_size_t_plus (h x : Z) : outcome Z :=
  Returns (SizeT.wrap (h + x)).

#[export] Instance integer_arith (k : int_kind) : Arith (integer k) := {
  op_eq := Z.eqb;
  op_le := Z.leb;
  size_t_plus := int_size_t_plus;
  range_min := numeric_limits_min k;
  range_max := numeric_limits_max k;
  of_value_type := fun v => v;
  (* [rand.dist.uni.int]: a <= b *)
  dist_requires := Z.leb;
  (* uniform_int_distribution(): a = 0, b = numeric_limits<T>::max() *)
  dist_default := (0, numeric_limits_max k)
}.

(** ** Floating-point types *)

Inductive float_kind : Type :=
| Float | Double.

Definition fprec (k : float_kind) : Z :=
  match k with Float => 24 | Double => 53 end.

Definition femax (k : float_kind) : Z :=
  match k with Float => 128 | Double => 1024 end.

(** The values of the floating-point type [k]. *)
Definition floating (k : float_kind) : Type := spec_float.

Module IEEE.

(** The value [m * 2^e], rounded into the format. *)
Definition lit (k : float_kind) (m e : Z) : floating k :=
  binary_normalize (fprec k) (femax k) m e false.

(** Conversion of an integer value to the floating-point type. *)
Definition of_int (k : float_kind) (z : Z) : floating k := lit k z 0.

(** The integer part of the magnitude [m * 2^e]. *)
Definition trunc_magnitude (m : positive) (e : Z) : Z :=
  match e with
  | Z0 => Zpos m
  | Zpos p => Zpos m * 2 ^ Zpos p
  | Zneg p => Zpos m / 2 ^ Zpos p
  end.

(** Conversion of a floating-point value to [std::size_t] ([conv.fpint]):
    the fractional part is discarded, and the behaviour is undefined when
    the truncated value is not a value of the unsigned type. *)
Definition to_size_t (x : spec_float) : outcome Z :=
  match x with
  | S754_zero _ => Returns 0
  | S754_finite s m e =>
      let t := trunc_magnitude m e in
      if s then (if t =? 0 then Returns 0 else Undefined)
      else (if t <? SizeT.modulus then Returns t else Undefined)
  | S754_infinity _ | S754_nan => Undefined
  end.

(** [h + x] for a floating-point [x]: [h] is converted to the type of [x],
    the sum is a floating-point addition, and the assignment converts it
    back. *)
Definition size_t_plus (k : float_kind) (h : Z) (x : floating k) : outcome Z :=
  to_size_t (SFadd (fprec k) (femax k) (of_int k h) x).

(** The exact value of a finite float, in units of [2^emin] (the least
    exponent of the format, so that the value is an integer). *)
Definition exact (k : float_kind) (x : floating k) : option Z :=
  match x with
  | S754_zero _ => Some 0
  | S754_finite s m e =>
      Some (cond_Zopp s (Zpos m * 2 ^ (e - emin (fprec k) (femax k))))
  | S754_infinity _ | S754_nan => None
  end.

(** [numeric_limits<T>::max()] in the same units. *)
Definition max_exact (k : float_kind) : Z :=
  (2 ^ fprec k - 1) * 2 ^ (femax k - fprec k - emin (fprec k) (femax k)).

(** [rand.dist.uni.real]: [a <= b] and [b - a <= numeric_limits<T>::max()],
    the difference being that of the values. *)
Definition real_requires (k : float_kind) (a b : floating k) : bool :=
  SFleb a b &&
  match exact k a, exact k b with
  | Some va, Some vb => vb - va <=? max_exact k
  | _, _ => false
  end.

(** Round to nearest, ties to even, of [m / 2^n]: what the conversion of
    an integer to a floating-point type computes. *)
Definition rne (m n : Z) : Z :=
  let q := m / 2 ^ n in
  let rho := m mod 2 ^ n in
  let h := 2 ^ (n - 1) in
  if (h <? rho) || ((h =? rho) && Z.odd q) then q + 1 else q.

(** The integer [m], rounded to [prec] significant bits. *)
Definition rounded (prec : Z) (m : positive) : Z :=
  let d := Zpos (digits2_pos m) in
  if d <=? prec then Zpos m else rne (Zpos m) (d - prec) * 2 ^ (d - prec).

End IEEE.

#[export] Instance floating_arith (k : float_kind) : Arith (floating k) := {
  op_eq := SFeqb;
  op_le := SFleb;
  size_t_plus := IEEE.size_t_plus k;
  (* numeric_limits<long long>::min() and max() *)
  range_min := numeric_limits_min LongLong;
  range_max := numeric_limits_max LongLong;
  of_value_type := IEEE.of_int k;
  dist_requires := IEEE.real_requires k;
  (* uniform_real_distribution(): a = 0.0, b = 1.0 *)
  dist_default := (S754_zero false, IEEE.of_int k 1)
}.

(** ** The standard library behind the header

    [std::mt19937_64], the uniform distributions and the clock are not code
    of the header.  They are taken with their contracts: an engine built from
    a seed, and a distribution whose call operator returns a value between
    its parameters and advances the engine it is given
    ([rand.dist.uni.int], [rand.dist.uni.real]). *)

Class StdRandom (E T : Type) : Type := {
  (** the [n]-th reading
      [high_resolution_clock::now().time_since_epoch().count()] of the run *)
  clock_count : nat -> Z;
  (** [std::mt19937_64{seed}] *)
  mt19937_64 : Z -> E;
  (** [d(engine)] for a distribution [d] of parameters [(a, b)]: the value
      and the state the engine is left in *)
  draw : T -> T -> E -> T * E
}.

(** The contract of the call operator of a distribution whose parameters
    meet its precondition: the value lies between them. *)
Class StdRandomLaws (E T : Type) `{Arith T} `{StdRandom E T} : Prop := {
  draw_range : forall a b e,
    dist_requires a b = true ->
    op_le a (fst (draw a b e)) = true /\ op_le (fst (draw a b e)) b = true
}.

(** A uniform distribution object: its parameters [a()] and [b()]. *)
Record distribution (T : Type) : Type := mk_distribution {
  dist_a : T;
  dist_b : T
}.

Arguments mk_distribution {T} _ _.

Arguments dist_a {T} _.

Arguments dist_b {T} _.

(** The closure [[key] { return generators[key](engine); }]: it captures the
    key by value and nothing else. *)
Record sampler (T : Type) : Type := mk_sampler {
  captured_key : T * T
}.

Arguments mk_sampler {T} _.

Arguments captured_key {T} _.

(** [gen_hashmap]: the [std::unordered_map] from keys to distributions.  Its
    nodes are kept in insertion order; a node never moves and is never
    erased, so its position names the object.  A key is looked up by
    [operator==] of pairs, after it has been hashed. *)
Definition gen_hashmap (T : Type) : Type := list ((T * T) * distribution T).

(** The statics of one instantiation [get_rand_impl<T>]. *)
Record get_rand_statics (E T : Type) : Type := mk_get_rand_statics {
  seed_time : Z;
  engine : E;
  generators : gen_hashmap T
}.

Arguments mk_get_rand_statics {E T} _ _ _.

Arguments seed_time {E T} _.

Arguments engine {E T} _.

Arguments generators {E T} _.

(** The statics of one instantiation [rand_impl<T, min, max>]. *)
Record rand_statics (E T : Type) : Type := mk_rand_statics {
  tpl_seed_time : Z;
  tpl_generator : distribution T;
  tpl_engine : E
}.

Arguments mk_rand_statics {E T} _ _ _.

Arguments tpl_seed_time {E T} _.

Arguments tpl_generator {E T} _.

Arguments tpl_engine {E T} _.

(** The state of a process that uses the header at the type [T]: how often
    the clock was read, the statics of [get_rand_impl<T>] once its first call
    has initialised them, and those of every instantiation
    [rand_impl<T, min, max>] that was called. *)
Record world (E T : Type) : Type := mk_world {
  clock_reads : nat;
  get_rand_impl_statics : option (get_rand_statics E T);
  rand_impl_statics : list ((Z * Z) * rand_statics E T)
}.

Arguments mk_world {E T} _ _ _.

Arguments clock_reads {E T} _.

Arguments get_rand_impl_statics {E T} _.

Arguments rand_impl_statics {E T} _.

Definition initial (E T : Type) (n : nat) : world E T := mk_world n None [].

Section Randomize.

Context {E T : Type} {AT : Arith T} {SR : StdRandom E T}.

(** *** [std::unordered_map] operations *)

(** The position of the node whose key equals [key]. *)
Fixpoint find (key : T * T) (m : gen_hashmap T) : option nat :=
  match m with
  | [] => None
  | (k, _) :: rest =>
      if pair_eq k key then Some 0%nat else option_map S (find key rest)
  end.

(** [m.emplace(key, d)]: a node is added when no node has an equal key. *)
Definition emplaced (m : gen_hashmap T) (key : T * T) (d : distribution T)
  : gen_hashmap T :=
  match find key m with
  | Some _ => m
  | None => m ++ [(key, d)]
  end.

Definition emplace (m : gen_hashmap T) (key : T * T) (d : distribution T)
  : outcome (gen_hashmap T) :=
  _ <- hash_pair key ;;
  Returns (emplaced m key d).

(** [m[key]]: the mapped object of the node with an equal key; a node with a
    default-constructed distribution is added when there is none. *)
Definition default_distribution : distribution T :=
  mk_distribution (fst dist_default) (snd dist_default).

Definition subscript (m : gen_hashmap T) (key : T * T)
  : outcome (distribution T * gen_hashmap T) :=
  _ <- hash_pair key ;;
  match find key m with
  | Some i => Returns (nth i (map snd m) default_distribution, m)
  | None => Returns (default_distribution, m ++ [(key, default_distribution)])
  end.

(** *** [details::gen_seed]

    [static_cast<unsigned>] keeps the low 32 bits of the count. *)
Definition gen_seed (reads : nat) : Z * nat :=
  (clock_count reads mod 2 ^ 32, S reads).

(** *** [details::uniform_distribution]

    The constructor of the standard distribution, with its precondition. *)
Definition std_uniform_distribution (a b : T) : outcome (distribution T) :=
  if dist_requires a b then Returns (mk_distribution a b) else Undefined.

(** [uniform_distribution<T>(min, max)], both overloads. *)
Definition uniform_distribution (min max : T) : outcome (distribution T) :=
  std_uniform_distribution min max.

(** [uniform_distribution<T, min, max>()], both overloads; the one for
    floating-point types casts its [long long] bounds. *)
Definition uniform_distribution_tpl (min max : Z) : outcome (distribution T) :=
  std_uniform_distribution (of_value_type min) (of_value_type max).

(** *** [details::get_rand_impl] *)

(** The function's statics, initialised by its first call:
    [seed_time{gen_seed()}], [engine = std::mt19937_64{seed_time}],
    [generators = gen_hashmap{}]. *)
Definition get_rand_impl_init (w : world E T) : get_rand_statics E T * nat :=
  match get_rand_impl_statics w with
  | Some st => (st, clock_reads w)
  | None =>
      let '(seed, reads) := gen_seed (clock_reads w) in
      (mk_get_rand_statics seed (mt19937_64 seed) [], reads)
  end.

Definition get_rand_impl (min max : T) (w : world E T)
  : outcome (sampler T * world E T) :=
  let '(st, reads) := get_rand_impl_init w in
  let key := (min, max) in
  d <- uniform_distribution min max ;;
  g <- emplace (generators st) key d ;;
  Returns (mk_sampler key,
           mk_world reads
             (Some (mk_get_rand_statics (seed_time st) (engine st) g))
             (rand_impl_statics w)).

(** Calling the closure [f]: [generators[key](engine)].  A closure exists
    only once [get_rand_impl] has run, so the statics are initialised. *)
Definition invoke (f : sampler T) (w : world E T) : outcome (T * world E T) :=
  match get_rand_impl_statics w with
  | None => Undefined
  | Some st =>
      '(d, g) <- subscript (generators st) (captured_key f) ;;
      let '(v, e) := draw (dist_a d) (dist_b d) (engine st) in
      Returns (v, mk_world (clock_reads w)
                    (Some (mk_get_rand_statics (seed_time st) e g))
                    (rand_impl_statics w))
  end.

(** *** [details::rand_impl(min, max)] *)
Definition rand_impl (min max : T) (w : world E T) : outcome (T * world E T) :=
  '(f, w1) <- get_rand_impl min max w ;;
  invoke f w1.

(** *** [details::rand_impl<T, min, max>()] *)

(** Two instantiations are the same when their template arguments are. *)
Definition same_arguments (k key : Z * Z) : bool :=
  (fst k =? fst key) && (snd k =? snd key).

Fixpoint instantiation (key : Z * Z) (l : list ((Z * Z) * rand_statics E T))
  : option (rand_statics E T) :=
  match l with
  | [] => None
  | (k, st) :: rest =>
      if same_arguments k key then Some st else instantiation key rest
  end.

Fixpoint set_instantiation (key : Z * Z) (st : rand_statics E T)
  (l : list ((Z * Z) * rand_statics E T)) : list ((Z * Z) * rand_statics E T) :=
  match l with
  | [] => [(key, st)]
  | (k, st') :: rest =>
      if same_arguments k key then (k, st) :: rest
      else (k, st') :: set_instantiation key st rest
  end.

Definition rand_impl_tpl (min max : Z) (w : world E T) : outcome (T * world E T) :=
  match instantiation (min, max) (rand_impl_statics w) with
  | Some st =>
      let d := tpl_generator st in
      let '(v, e) := draw (dist_a d) (dist_b d) (tpl_engine st) in
      Returns (v, mk_world (clock_reads w) (get_rand_impl_statics w)
                    (set_instantiation (min, max)
                       (mk_rand_statics (tpl_seed_time st) d e)
                       (rand_impl_statics w)))
  | None =>
      (* static unsigned seed_time{gen_seed()};
         static auto generator = uniform_distribution<T, min, max>();
         static auto engine = std::mt19937_64{seed_time}; *)
      let '(seed, reads) := gen_seed (clock_reads w) in
      d <- uniform_distribution_tpl min max ;;
      let '(v, e) := draw (dist_a d) (dist_b d) (mt19937_64 seed) in
      Returns (v, mk_world reads (get_rand_impl_statics w)
                    (set_instantiation (min, max) (mk_rand_statics seed d e)
                       (rand_impl_statics w)))
  end.

(** *** The public functions of namespace [randomize]

    Each is its [static_assert] on [is_arithmetic<T>] and one call. *)
Definition rand (min max : T) (w : world E T) : outcome (T * world E T) :=
  rand_impl min max w.

Definition get_rand (min max : T) (w : world E T)
  : outcome (sampler T * world E T) :=
  get_rand_impl min max w.

Definition rand_tpl (min max : Z) (w : world E T) : outcome (T * world E T) :=
  rand_impl_tpl min max w.

(** [rand<T>()]: the bounds default to [range<T>::min] and [range<T>::max]. *)
Definition rand_default (w : world E T) : outcome (T * world E T) :=
  rand_tpl range_min range_max w.

End Randomize.

(** ** A concrete standard library

    One implementation of the interface, to run the model on: a 64-bit linear
    congruential engine, an integer distribution that reduces the engine's
    output into [[a, b]], and a real distribution that returns one of its two
    bounds. *)

Module LCG.

Definition next (e : Z) : Z :=
  (6364136223846793005 * e + 1442695040888963407) mod 2 ^ 64.

Definition clock (n : nat) : Z := 1700000000000000000 + 1000 * Z.of_nat n.

Definition draw_int (a b e : Z) : Z * Z :=
  (a + next e mod (b - a + 1), next e).

Definition draw_real (a b : spec_float) (e : Z) : spec_float * Z :=
  (if Z.even (next e / 2 ^ 32) then a else b, next e).

End LCG.

#[export] Instance lcg_integer (k : int_kind) : StdRandom Z (integer k) := {
  clock_count := LCG.clock;
  mt19937_64 := fun seed => seed;
  draw := LCG.draw_int
}.

#[export] Instance lcg_floating (k : float_kind) : StdRandom Z (floating k) := {
  clock_count := LCG.clock;
  mt19937_64 := fun seed => seed;
  draw := LCG.draw_real
}.

(** ** Runs of a program that uses the header

    A client calls the public functions in any order, and calls the closures
    that [get_rand] handed to it.  [step w cs w' cs'] is one such call, from
    the state [w] with the closures [cs] in hand. *)

Section Runs.

Context {E T : Type} {AT : Arith T} {SR : StdRandom E T}.

Inductive step :
  world E T -> list (sampler T) -> world E T -> list (sampler T) -> Prop :=
| step_get_rand w cs min max f w' :
    get_rand min max w = Returns (f, w') -> step w cs w' (f :: cs)
| step_invoke w cs f v w' :
    In f cs -> invoke f w = Returns (v, w') -> step w cs w' cs
| step_rand w cs min max v w' :
    rand min max w = Returns (v, w') -> step w cs w' cs
| step_rand_tpl w cs min max v w' :
    rand_tpl min max w = Returns (v, w') -> step w cs w' cs.

Inductive steps :
  world E T -> list (sampler T) -> world E T -> list (sampler T) -> Prop :=
| steps_refl w cs : steps w cs w cs
| steps_snoc w cs w1 cs1 w2 cs2 :
    steps w cs w1 cs1 -> step w1 cs1 w2 cs2 -> steps w cs w2 cs2.

(** The states a process can be in, with the closures it holds. *)
Definition reachable (w : world E T) (cs : list (sampler T)) : Prop :=
  exists n, steps (initial E T n) [] w cs.

(** [v] lies between the bounds of [key], both included. *)
Definition in_range (key : T * T) (v : T) : Prop :=
  op_le (fst key) v = true /\ op_le v (snd key) = true.

(** The cache of [get_rand_impl<T>]; empty before the first call. *)
Definition cache (w : world E T) : gen_hashmap T :=
  match get_rand_impl_statics w with
  | Some st => generators st
  | None => []
  end.

(** The node [generators[key]] resolves to, and its distribution. *)
Definition node_of (f : sampler T) (w : world E T) : option nat :=
  find (captured_key f) (cache w).

Definition distribution_of (f : sampler T) (w : world E T)
  : option (distribution T) :=
  match node_of f w with
  | Some i => nth_error (map snd (cache w)) i
  | None => None
  end.

(** [n] successive calls of the closure [f], as in
    [f() << f() << f()] or [std::generate(first, last, f)]. *)
Fixpoint invoke_n (f : sampler T) (n : nat) (w : world E T)
  : outcome (list T * world E T) :=
  match n with
  | O => Returns ([], w)
  | S n' =>
      '(v, w1) <- invoke f w ;;
      '(vs, w2) <- invoke_n f n' w1 ;;
      Returns (v :: vs, w2)
  end.

(** *** The invariant of the statics *)

(** A node holds the distribution built from its own key, which met the
    distribution's precondition and could be hashed. *)
Definition entry_ok (e : (T * T) * distribution T) : Prop :=
  snd e = mk_distribution (fst (fst e)) (snd (fst e)) /\
  dist_requires (fst (fst e)) (snd (fst e)) = true /\
  returns (hash_pair (fst e)) = true.

Fixpoint distinct_keys (m : gen_hashmap T) : Prop :=
  match m with
  | [] => True
  | (k, _) :: rest => find k rest = None /\ distinct_keys rest
  end.

Definition instantiation_ok (e : (Z * Z) * rand_statics E T) : Prop :=
  tpl_generator (snd e) =
    mk_distribution (of_value_type (fst (fst e))) (of_value_type (snd (fst e))) /\
  dist_requires (of_value_type (fst (fst e))) (of_value_type (snd (fst e))) = true.

Record invariant (w : world E T) (cs : list (sampler T)) : Prop := {
  inv_entries : Forall entry_ok (cache w);
  inv_distinct : distinct_keys (cache w);
  inv_samplers : forall f, In f cs ->
    get_rand_impl_statics w <> None /\
    node_of f w <> None /\
    returns (hash_pair (captured_key f)) = true;
  inv_instantiations : Forall instantiation_ok (rand_impl_statics w)
}.

(** *** What each function does to the state *)

Definition after_get_rand (min max : T) (w : world E T) : world E T :=
  let '(st, reads) := get_rand_impl_init w in
  mk_world reads
    (Some (mk_get_rand_statics (seed_time st) (engine st)
             (emplaced (generators st) (min, max) (mk_distribution min max))))
    (rand_impl_statics w).

Definition after_invoke (d : distribution T) (w : world E T) : world E T :=
  match get_rand_impl_statics w with
  | Some st =>
      mk_world (clock_reads w)
        (Some (mk_get_rand_statics (seed_time st)
                 (snd (draw (dist_a d) (dist_b d) (engine st)))
                 (generators st)))
        (rand_impl_statics w)
  | None => w
  end.

(** The statics of [rand_impl<T, min, max>] after a call. *)
Definition tpl_statics_after (min max : Z) (w : world E T) : rand_statics E T :=
  match instantiation (min, max) (rand_impl_statics w) with
  | Some st =>
      let d := tpl_generator st in
      mk_rand_statics (tpl_seed_time st) d
        (snd (draw (dist_a d) (dist_b d) (tpl_engine st)))
  | None =>
      let seed := fst (gen_seed (clock_reads w)) in
      let a := of_value_type min in
      let b := of_value_type max in
      mk_rand_statics seed (mk_distribution a b)
        (snd (draw a b (mt19937_64 seed)))
  end.

Definition tpl_value (min max : Z) (w : world E T) : T :=
  match instantiation (min, max) (rand_impl_statics w) with
  | Some st =>
      let d := tpl_generator st in
      fst (draw (dist_a d) (dist_b d) (tpl_engine st))
  | None =>
      fst (draw (of_value_type min) (of_value_type max)
             (mt19937_64 (fst (gen_seed (clock_reads w)))))
  end.

Definition after_rand_tpl (min max : Z) (w : world E T) : world E T :=
  mk_world
    (match instantiation (min, max) (rand_impl_statics w) with
     | Some _ => clock_reads w
     | None => snd (gen_seed (clock_reads w))
     end)
    (get_rand_impl_statics w)
    (set_instantiation (min, max) (tpl_statics_after min max w)
       (rand_impl_statics w)).

(** *** Engines and seeds *)

(** The engine objects of the process: the static [engine] of
    [get_rand_impl<T>] and the one of every instantiation
    [rand_impl<T, min, max>] that has run. *)
Definition engines (w : world E T) : list E :=
  match get_rand_impl_statics w with
  | Some st => [engine st]
  | None => []
  end ++ map (fun e => tpl_engine (snd e)) (rand_impl_statics w).

Definition fn_engine (w : world E T) : option E :=
  option_map engine (get_rand_impl_statics w).

Definition fn_seed (w : world E T) : option Z :=
  option_map seed_time (get_rand_impl_statics w).

Definition tpl_seed (key : Z * Z) (w : world E T) : option Z :=
  option_map tpl_seed_time (instantiation key (rand_impl_statics w)).

(** The seed [gen_seed] returns at the next reading of the clock. *)
Definition next_seed (w : world E T) : Z := fst (gen_seed (clock_reads w)).


(** The engine the next call of [rand_impl<T, min, max>] draws from: the
    static [engine] of that instantiation. *)
Definition tpl_engine_next (key : Z * Z) (w : world E T) : E :=
  match instantiation key (rand_impl_statics w) with
  | Some st => tpl_engine st
  | None => mt19937_64 (next_seed w)
  end.

(** A seed, once taken, stays; a seed that appears is the clock reading of
    that call. *)
Definition seed_kept (before after : option Z) (fresh : Z) : Prop :=
  match before with
  | Some s => after = Some s
  | None => after = None \/ after = Some fresh
  end.

(** The state [w] with the engine of [get_rand_impl<T>] put into the state
    [e], as a new seed would. *)
Definition with_engine (e : E) (w : world E T) : world E T :=
  mk_world (clock_reads w)
    (option_map (fun st => mk_get_rand_statics (seed_time st) e (generators st))
       (get_rand_impl_statics w))
    (rand_impl_statics w).

End Runs.

(** ** The hash in unsigned arithmetic

    The formula [hash = (17 * 31 + p.first) * 31 + p.second] read as 64-bit
    unsigned wrap-around arithmetic on two integers, masked and reduced as
    [hash_pair] does; the hash that [hash_pair] computes is compared with
    it. *)
Definition hash_formula (a b : Z) : Z :=
  Z.land (SizeT.wrap ((17 * 31 + a) * 31 + b)) 0x7fffffff mod 100003.

(** ** Notions for further properties *)

Section Accounting.

Context {E T : Type} {AT : Arith T} {SR : StdRandom E T}.

(** The seeds of the engine objects of the process, in the order of
    [engines]: [seed_time] of [get_rand_impl<T>] and of every instantiation
    [rand_impl<T, min, max>] that has run. *)
Definition seeds (w : world E T) : list Z :=
  match get_rand_impl_statics w with
  | Some st => [seed_time st]
  | None => []
  end ++ map (fun e => tpl_seed_time (snd e)) (rand_impl_statics w).

(** [s] is what [gen_seed] returns at one of the readings [first], ...,
    [next - 1] of the clock. *)
Definition seed_of_reading (first next : nat) (s : Z) : Prop :=
  exists j, (first <= j < next)%nat /\ s = clock_count j mod 2 ^ 32.

(** Every reading of the clock since the reading [n] has seeded one engine. *)
Definition clock_accounted (n : nat) (w : world E T) : Prop :=
  clock_reads w = (n + length (engines w))%nat /\
  length (seeds w) = length (engines w) /\
  Forall (seed_of_reading n (clock_reads w)) (seeds w).

End Accounting.

(** *** Values of a floating-point type *)

(** [x] is a value of the floating-point type [k]: a finite [x] has the
    mantissa and the exponent that the format gives to its magnitude. *)
Definition valid_float (k : float_kind) (x : floating k) : bool :=
  valid_binary (fprec k) (femax k) x.

(** The float [m * 2^e] of a format of precision [prec] is at most [2^K]:
    its exponent is below that of [2^K], or it is [2^K]. *)
Definition at_most_pow2 (prec K : Z) (m : positive) (e : Z) : Prop :=
  e < K + 1 - prec \/ (e = K + 1 - prec /\ Zpos m <= 2 ^ (prec - 1)).

(** A bound of a range of values between [-256] and [2^56]. *)
Definition small_bound (k : float_kind) (x : floating k) : Prop :=
  match x with
  | S754_zero _ => True
  | S754_finite s m e =>
      bounded (fprec k) (femax k) m e = true /\
      at_most_pow2 (fprec k) (if s then 8 else 56) m e
  | _ => False
  end.

(** *** [details::range<T>::actual_min] and [actual_max]

    [std::numeric_limits<T>::min()] and [max()]; for a floating-point [T],
    [min()] is the smallest positive normalized value. *)
Class Range (T : Type) : Type := {
  actual_min : T;
  actual_max : T
}.

#[export] Instance integer_range (k : int_kind) : Range (integer k) := {
  actual_min := numeric_limits_min k;
  actual_max := numeric_limits_max k
}.

#[export] Instance floating_range (k : float_kind) : Range (floating k) := {
  actual_min := IEEE.lit k 1 (2 - femax k);
  actual_max := IEEE.lit k (2 ^ fprec k - 1) (femax k - fprec k)
}.

(** ** The example program

    [main] of the repository's example calls the three forms at [int],
    [double], [short] and [float]: four instantiations of
    [get_rand_impl<T>] and [rand_impl<T, min, max>] with their own statics,
    and one clock.
<<
    std::cout << randomize::rand(1, 6) << '\n';
    auto f = randomize::get_rand(1, 12);
    std::cout << f() << " " << f() << " " << f() << " " << f() << '\n';
    std::cout << randomize::rand(3.14, 42.) << '\n';
    auto g = randomize::get_rand(-16., 64.);
    std::cout << g() << '\n';
    std::cout << randomize::rand<short>() << '\n';
    auto rand_double = randomize::rand<double, -2, 3>;
    std::cout << rand_double() << '\n';
    std::vector<float> v(randomize::rand(5, 1'000));
    std::generate(std::begin(v), std::end(v), randomize::get_rand(-100.f, 100.f));
>>
    The order in which the four calls [f()] of one expression are evaluated
    is not specified in C++14; they are four calls of the same closure. *)

Section Example.

Context {E : Type}.

Variable SRs : StdRandom E (integer Short).

Variable SRi : StdRandom E (integer Int).

Variable SRf : StdRandom E (floating Float).

Variable SRd : StdRandom E (floating Double).

(** The statics of one value type, seen at a later reading of the clock:
    the clock is the one thing the value types share. *)
Definition with_clock {T : Type} (reads : nat) (w : world E T) : world E T :=
  mk_world reads (get_rand_impl_statics w) (rand_impl_statics w).

(** A call at the value type [T], [reads] readings of the clock into the
    run: its result, the readings after it, and the statics of [T]. *)
Definition call {T A : Type} (c : world E T -> outcome (A * world E T))
    (reads : nat) (w : world E T) : outcome (A * nat * world E T) :=
  '(a, w') <- c (with_clock reads w) ;;
  Returns (a, clock_reads w', w').

(** What [main] writes to [std::cout], line by line. *)
Record printed : Type := mk_printed {
  line1 : integer Int;
  line2 : list (integer Int);
  line3 : floating Double;
  line4 : floating Double;
  line5 : integer Short;
  line6 : floating Double;
  line7 : list (floating Float)
}.

(** The literal [3.14]. *)
Definition lit_3_14 : floating Double := IEEE.lit Double 7070651414971679 (-51).

(** [main], in a process that starts at the reading [n0] of the clock: what
    it prints and the number of readings of the clock at its end. *)
Definition main (n0 : nat) : outcome (printed * nat) :=
  let wi := initial E (integer Int) n0 in
  let wd := initial E (floating Double) n0 in
  let ws := initial E (integer Short) n0 in
  let wf := initial E (floating Float) n0 in
  '(r1, c, wi) <- call (rand (SR := SRi) 1 6) n0 wi ;;
  '(f, c, wi) <- call (get_rand (SR := SRi) 1 12) c wi ;;
  '(r2, c, wi) <- call (invoke_n (SR := SRi) f 4) c wi ;;
  '(r3, c, wd) <- call (rand (SR := SRd) lit_3_14 (IEEE.of_int Double 42)) c wd ;;
  '(g, c, wd) <- call (get_rand (SR := SRd) (IEEE.of_int Double (-16))
                         (IEEE.of_int Double 64)) c wd ;;
  '(r4, c, wd) <- call (invoke (SR := SRd) g) c wd ;;
  '(r5, c, ws) <- call (rand_default (SR := SRs)) c ws ;;
  '(r6, c, wd) <- call (rand_tpl (SR := SRd) (-2) 3) c wd ;;
  '(n, c, wi) <- call (rand (SR := SRi) 5 1000) c wi ;;
  '(h, c, wf) <- call (get_rand (SR := SRf) (IEEE.of_int Float (-100))
                         (IEEE.of_int Float 100)) c wf ;;
  '(v, c, wf) <- call (invoke_n (SR := SRf) h (Z.to_nat n)) c wf ;;
  Returns (mk_printed r1 r2 r3 r4 r5 r6 v, c).

End Example.

(** * Properties *)

(** ** Outcomes *)

Lemma bind_returns_inv {A B : Type} (c : outcome A) (k : A -> outcome B) (b : B) :
  bind c k = Returns b -> exists a, c = Returns a /\ k a = Returns b.
Proof. destruct c as [a|]; simpl; [eauto | discriminate]. Qed.

Lemma returns_true {A : Type} (c : outcome A) :
  returns c = true <-> exists a, c = Returns a.
Proof.
  destruct c as [a|]; simpl; split; eauto; try discriminate.
  intros [a H]. discriminate.
Qed.

(** ** IEEE 754 comparisons, sums and conversions *)

Module IEEE_facts.
Import IEEE.

Lemma compare_refl (x : spec_float) :
  x <> S754_nan -> SFcompare x x = Some Eq.
Proof.
  destruct x as [s|s| |s m e]; simpl; intros Hx; try congruence.
  - now destruct s.
  - change (Pos.compare_cont Eq m m) with (Pos.compare m m).
    rewrite Z.compare_refl, Pos.compare_refl. now destruct s.
Qed.

Lemma eqb_inv (x y : spec_float) :
  SFeqb x y = true ->
  x = y \/ exists s1 s2, x = S754_zero s1 /\ y = S754_zero s2.
Proof.
  unfold SFeqb.
  destruct x as [s1|s1| |s1 m1 e1], y as [s2|s2| |s2 m2 e2]; simpl;
    try discriminate; try (destruct s1; discriminate);
    try (destruct s2; discriminate).
  - intros _. right. eauto.
  - destruct s1, s2; try discriminate; now left.
  - change (Pos.compare_cont Eq m1 m2) with (Pos.compare m1 m2).
    destruct s1, s2; try discriminate;
      destruct (Z.compare_spec e1 e2) as [He|He|He]; try discriminate; subst;
      destruct (Pos.compare_spec m1 m2) as [Hm|Hm|Hm]; try discriminate;
      intros _; left; now subst.
Qed.

Lemma compare_zero_l (s1 s2 : bool) (z : spec_float) :
  SFcompare (S754_zero s1) z = SFcompare (S754_zero s2) z.
Proof. now destruct z. Qed.

Lemma compare_zero_r (s1 s2 : bool) (z : spec_float) :
  SFcompare z (S754_zero s1) = SFcompare z (S754_zero s2).
Proof. now destruct z. Qed.

Lemma compare_eqb_l (x y z : spec_float) :
  SFeqb x y = true -> SFcompare x z = SFcompare y z.
Proof.
  intros H. destruct (eqb_inv _ _ H) as [->|(s1 & s2 & -> & ->)];
    [reflexivity | apply compare_zero_l].
Qed.

Lemma compare_eqb_r (x y z : spec_float) :
  SFeqb x y = true -> SFcompare z x = SFcompare z y.
Proof.
  intros H. destruct (eqb_inv _ _ H) as [->|(s1 & s2 & -> & ->)];
    [reflexivity | apply compare_zero_r].
Qed.

Lemma eqb_not_nan (x y : spec_float) :
  SFeqb x y = true -> x <> S754_nan /\ y <> S754_nan.
Proof.
  unfold SFeqb. destruct x, y; simpl; try discriminate; split; congruence.
Qed.

Lemma eqb_refl (x : spec_float) : x <> S754_nan -> SFeqb x x = true.
Proof. intros H. unfold SFeqb. now rewrite compare_refl. Qed.

Lemma leb_not_nan (x y : spec_float) :
  SFleb x y = true -> x <> S754_nan /\ y <> S754_nan.
Proof.
  unfold SFleb. destruct x, y; simpl; try discriminate; split; congruence.
Qed.

Lemma add_nan_r (prec emax : Z) (x : spec_float) :
  SFadd prec emax x S754_nan = S754_nan.
Proof. now destruct x. Qed.

(** Adding a zero of either sign gives the same [std::size_t]. *)
Lemma to_size_t_add_zero (prec emax : Z) (x : spec_float) (s1 s2 : bool) :
  to_size_t (SFadd prec emax x (S754_zero s1)) =
  to_size_t (SFadd prec emax x (S754_zero s2)).
Proof.
  destruct x as [s|s| |s m e]; simpl; trivial.
  now destruct s, s1, s2.
Qed.

(** Two values that compare equal have the same exact value. *)
Lemma exact_eqb (k : float_kind) (x y : spec_float) :
  SFeqb x y = true -> exact k x = exact k y.
Proof.
  intros H. now destruct (eqb_inv _ _ H) as [->|(s1 & s2 & -> & ->)].
Qed.

Lemma real_requires_eqb (k : float_kind) (a a' b b' : spec_float) :
  SFeqb a a' = true -> SFeqb b b' = true ->
  real_requires k a b = real_requires k a' b'.
Proof.
  intros Ha Hb. unfold real_requires, SFleb.
  rewrite (compare_eqb_l a a' b Ha), (compare_eqb_r b b' a' Hb).
  now rewrite (exact_eqb k a a' Ha), (exact_eqb k b b' Hb).
Qed.

(** *** Conversion of an integer: round to nearest, ties to even *)

Lemma digits2_pos_size (m : positive) : digits2_pos m = Pos.size m.
Proof. induction m as [m IH|m IH|]; simpl; now rewrite ?IH. Qed.

Lemma digits2_pos_log2 (m : positive) :
  Zpos (digits2_pos m) = Z.log2 (Zpos m) + 1.
Proof.
  rewrite digits2_pos_size. destruct m as [m|m|]; simpl; lia.
Qed.

Lemma digits2_pos_bounds (m : positive) :
  2 ^ (Zpos (digits2_pos m) - 1) <= Zpos m < 2 ^ Zpos (digits2_pos m).
Proof.
  rewrite digits2_pos_log2.
  replace (Z.log2 (Zpos m) + 1 - 1) with (Z.log2 (Zpos m)) by lia.
  apply (Z.log2_spec (Zpos m)). lia.
Qed.

Lemma digits2_pos_unique (m : positive) (d : Z) :
  2 ^ (d - 1) <= Zpos m < 2 ^ d -> Zpos (digits2_pos m) = d.
Proof.
  intros H. rewrite digits2_pos_log2.
  assert (0 < d).
  { destruct (Z.le_gt_cases d 0) as [Hd|Hd]; trivial.
    assert (2 ^ d <= 2 ^ 0) by (apply Z.pow_le_mono_r; lia).
    simpl in *. lia. }
  rewrite (Z.log2_unique (Zpos m) (d - 1)); try lia.
  now replace (Z.succ (d - 1)) with d by lia.
Qed.

Lemma shr_1_nonneg (m : Z) (r s : bool) :
  0 <= m ->
  shr_1 (Build_shr_record m r s) = Build_shr_record (Z.div2 m) (Z.odd m) (r || s).
Proof.
  intros Hm. destruct m as [|[p|p|]|p]; try reflexivity. lia.
Qed.

Lemma iter_pos_iter {A : Type} (f : A -> A) (n : positive) (x : A) :
  iter_pos f n x = Pos.iter f x n.
Proof.
  revert x. induction n as [n IH|n IH|]; intros x; cbn [iter_pos].
  - rewrite !IH.
    change (Pos.iter f x n~1) with (f (Pos.iter f (Pos.iter f x n) n)).
    now rewrite !Pos.iter_swap.
  - now rewrite !IH.
  - reflexivity.
Qed.

Lemma shr_iter (m : Z) (n : positive) :
  0 <= m ->
  iter_pos shr_1 n (Build_shr_record m false false) =
  Build_shr_record (m / 2 ^ Zpos n)
    (Z.odd (m / 2 ^ (Zpos n - 1)))
    (negb (m mod 2 ^ (Zpos n - 1) =? 0)).
Proof.
  intros Hm. rewrite iter_pos_iter.
  induction n as [|n IH] using Pos.peano_ind.
  - change (Pos.iter shr_1 (Build_shr_record m false false) 1)
      with (shr_1 (Build_shr_record m false false)).
    rewrite shr_1_nonneg by trivial.
    change (Zpos 1 - 1) with 0. rewrite Z.pow_0_r, Z.div_1_r, Z.mod_1_r.
    now rewrite Z.div2_div.
  - rewrite Pos.iter_succ, IH.
    assert (Hpow : 0 < 2 ^ Zpos n) by (apply Z.pow_pos_nonneg; lia).
    assert (Hh : 0 < 2 ^ (Zpos n - 1)) by (apply Z.pow_pos_nonneg; lia).
    assert (Hsplit : 2 ^ Zpos n = 2 ^ (Zpos n - 1) * 2).
    { replace (Zpos n) with ((Zpos n - 1) + 1) at 1 by lia.
      rewrite Z.pow_add_r by lia. reflexivity. }
    rewrite shr_1_nonneg by (apply Z.div_pos; lia).
    rewrite Pos2Z.inj_succ.
    replace (Z.succ (Zpos n) - 1) with (Zpos n) by lia.
    f_equal.
    + rewrite Z.div2_div, Z.div_div by lia.
      now rewrite Z.pow_succ_r, (Z.mul_comm 2) by lia.
    + rewrite Hsplit, Z.rem_mul_r by lia.
      set (h := 2 ^ (Zpos n - 1)) in *.
      set (q := m / h).
      pose proof (Z.mod_pos_bound m h Hh) as Hb.
      rewrite (Zodd_mod q).
      pose proof (Z.mod_pos_bound q 2 ltac:(lia)) as Hq.
      destruct (Z.eqb_spec (q mod 2) 1) as [H1|H1];
        destruct (Z.eqb_spec (m mod h) 0) as [H0|H0];
        destruct (Z.eqb_spec (m mod h + h * (q mod 2)) 0) as [H2|H2];
        simpl; try reflexivity; exfalso; nia.
Qed.

Lemma iter_xO (m n : positive) :
  Zpos (Pos.iter xO m n) = Zpos m * 2 ^ Zpos n.
Proof.
  induction n as [|n IH] using Pos.peano_ind.
  - simpl. lia.
  - rewrite Pos.iter_succ, Pos2Z.inj_succ, Z.pow_succ_r by lia.
    rewrite Pos2Z.inj_xO, IH. lia.
Qed.

Lemma round_shr (m : Z) (n : positive) :
  0 <= m ->
  let mrs := iter_pos shr_1 n (Build_shr_record m false false) in
  shr_m mrs = m / 2 ^ Zpos n /\
  round_nearest_even (shr_m mrs) (loc_of_shr_record mrs) = rne m (Zpos n).
Proof.
  intros Hm mrs. unfold mrs. rewrite shr_iter by trivial. cbn [shr_m].
  split; [reflexivity|].
  unfold rne.
  assert (Hh : 0 < 2 ^ (Zpos n - 1)) by (apply Z.pow_pos_nonneg; lia).
  assert (Hsplit : 2 ^ Zpos n = 2 ^ (Zpos n - 1) * 2).
  { replace (Zpos n) with ((Zpos n - 1) + 1) at 1 by lia.
    rewrite Z.pow_add_r by lia. reflexivity. }
  assert (Hrho : m mod 2 ^ Zpos n =
                 m mod 2 ^ (Zpos n - 1) +
                 2 ^ (Zpos n - 1) * ((m / 2 ^ (Zpos n - 1)) mod 2)).
  { rewrite Hsplit, Z.rem_mul_r by lia. reflexivity. }
  assert (Hq : m / 2 ^ Zpos n = m / 2 ^ (Zpos n - 1) / 2).
  { rewrite Hsplit, Z.div_div by lia. reflexivity. }
  cbv zeta. rewrite Hrho. clear Hrho.
  set (h := 2 ^ (Zpos n - 1)) in *.
  set (q := m / 2 ^ Zpos n) in *.
  set (q1 := m / h) in *.
  pose proof (Z.mod_pos_bound m h Hh) as Hb.
  pose proof (Z.mod_pos_bound q1 2 ltac:(lia)) as Hq1.
  rewrite (Zodd_mod q1).
  destruct (Z.eqb_spec (q1 mod 2) 1) as [H1|H1];
    destruct (Z.eqb_spec (m mod h) 0) as [H0|H0]; cbn [negb loc_of_shr_record round_nearest_even].
  - rewrite H1, H0.
    replace (h <? 0 + h * 1) with false by (symmetry; apply Z.ltb_ge; lia).
    replace (h =? 0 + h * 1) with true by (symmetry; apply Z.eqb_eq; lia).
    rewrite <- Z.negb_odd. simpl. now destruct (Z.odd q).
  - rewrite H1.
    replace (h <? m mod h + h * 1) with true by (symmetry; apply Z.ltb_lt; lia).
    reflexivity.
  - replace (h <? m mod h + h * (q1 mod 2)) with false
      by (symmetry; apply Z.ltb_ge; nia).
    replace (h =? m mod h + h * (q1 mod 2)) with false
      by (symmetry; apply Z.eqb_neq; nia).
    reflexivity.
  - replace (h <? m mod h + h * (q1 mod 2)) with false
      by (symmetry; apply Z.ltb_ge; nia).
    replace (h =? m mod h + h * (q1 mod 2)) with false
      by (symmetry; apply Z.eqb_neq; nia).
    reflexivity.
Qed.

Section Format.

Variables prec emax : Z.

Hypothesis Hprec : 1 < prec.

Hypothesis Hemax : 66 <= emax.

Lemma fexp_pos (e : Z) : 1 <= e -> fexp prec emax e = e - prec.
Proof. unfold fexp, emin. lia. Qed.

(** A mantissa of [prec] digits is left as it is. *)
Lemma binary_round_aux_canonical (s : bool) (m : positive) (e : Z) :
  Zpos (digits2_pos m) = prec ->
  1 - prec <= e <= emax - prec ->
  binary_round_aux prec emax s (Zpos m) e loc_Exact = S754_finite s m e.
Proof.
  intros Hd He. unfold binary_round_aux, shr_fexp.
  cbn [Zdigits2]. rewrite Hd, fexp_pos by lia.
  replace (prec + e - prec - e) with 0 by lia.
  cbn [shr shr_record_of_loc loc_of_shr_record shr_m round_nearest_even Zdigits2].
  rewrite Hd, fexp_pos by lia.
  replace (prec + e - prec - e) with 0 by lia.
  cbn [shr shr_record_of_loc shr_m].
  now replace (e <=? emax - prec) with true by (symmetry; apply Z.leb_le; lia).
Qed.

Lemma rne_bounds (m : positive) :
  let d := Zpos (digits2_pos m) in
  prec < d ->
  2 ^ (prec - 1) <= Zpos m / 2 ^ (d - prec) < 2 ^ prec /\
  Zpos m / 2 ^ (d - prec) <= rne (Zpos m) (d - prec) <= Zpos m / 2 ^ (d - prec) + 1.
Proof.
  intros d Hd. pose proof (digits2_pos_bounds m) as Hm. fold d in Hm.
  assert (Hn : 0 < 2 ^ (d - prec)) by (apply Z.pow_pos_nonneg; lia).
  assert (H1 : 2 ^ (d - 1) = 2 ^ (prec - 1) * 2 ^ (d - prec)).
  { rewrite <- Z.pow_add_r by lia. f_equal. lia. }
  assert (H2 : 2 ^ d = 2 ^ prec * 2 ^ (d - prec)).
  { rewrite <- Z.pow_add_r by lia. f_equal. lia. }
  split.
  - split.
    + apply Z.div_le_lower_bound; lia.
    + apply Z.div_lt_upper_bound; lia.
  - unfold rne. cbv zeta. destruct (_ || _); lia.
Qed.

Lemma binary_round_int (s : bool) (m : positive) :
  Zpos m < 2 ^ 64 ->
  exists mant e,
    binary_round prec emax s m 0 = S754_finite s mant e /\
    Zpos (digits2_pos mant) = prec /\
    1 - prec <= e <= 65 - prec /\
    Zpos mant * 2 ^ (e + prec) = rounded prec m * 2 ^ prec.
Proof.
  intros Hm64. unfold rounded, binary_round. cbv zeta.
  pose proof (digits2_pos_bounds m) as Hm.
  set (d := Zpos (digits2_pos m)) in *.
  assert (Hd1 : 1 <= d) by (unfold d; lia).
  assert (Hd64 : d <= 64).
  { destruct (Z.le_gt_cases d 64) as [H|H]; trivial.
    assert (2 ^ 64 <= 2 ^ (d - 1)) by (apply Z.pow_le_mono_r; lia). lia. }
  rewrite Z.add_0_r, fexp_pos by lia. unfold shl_align.
  destruct (d - prec - 0) as [|n|n] eqn:Hn.
  - (* d = prec *)
    assert (d = prec) by lia.
    replace (d <=? prec) with true by (symmetry; apply Z.leb_le; lia).
    exists m, 0. rewrite binary_round_aux_canonical by (fold d; lia).
    split; [reflexivity|]. split; [exact H|]. split; [lia|]. reflexivity.
  - (* prec < d *)
    assert (Hdp : d - prec = Zpos n) by lia.
    replace (d <=? prec) with false by (symmetry; apply Z.leb_gt; lia).
    destruct (rne_bounds m) as [[Hq1 Hq2] [Hr1 Hr2]]; [fold d; lia|].
    fold d in Hq1, Hq2, Hr1, Hr2. rewrite Hdp in *.
    unfold binary_round_aux, shr_fexp. cbn [Zdigits2]. fold d.
    rewrite Z.add_0_r, fexp_pos by lia.
    replace (d - prec - 0) with (Zpos n) by lia.
    cbn [shr shr_record_of_loc].
    destruct (round_shr (Zpos m) n ltac:(lia)) as [Hsm Hrne].
    cbv zeta in Hsm, Hrne. rewrite Hrne. clear Hsm Hrne.
    set (r := rne (Zpos m) (Zpos n)) in *.
    assert (Hr0 : 0 < r).
    { assert (0 < 2 ^ (prec - 1)) by (apply Z.pow_pos_nonneg; lia). lia. }
    destruct r as [|r0|r0] eqn:Hr; try lia.
    destruct (Z.eq_dec (Zpos r0) (2 ^ prec)) as [Htop|Htop].
    + (* the mantissa overflowed to 2^prec *)
      assert (Hdr : Zpos (digits2_pos r0) = prec + 1).
      { apply digits2_pos_unique. rewrite Htop.
        replace (prec + 1 - 1) with prec by lia. split; [lia|].
        apply Z.pow_lt_mono_r; lia. }
      cbn [Zdigits2]. rewrite Hdr, fexp_pos by lia.
      replace (prec + 1 + (0 + Zpos n) - prec - (0 + Zpos n)) with 1 by lia.
      cbn [shr]. rewrite shr_iter by lia. cbn [shr_m].
      rewrite Htop. change (2 ^ 1) with 2.
      assert (Hhalf : 2 ^ prec / 2 = 2 ^ (prec - 1)).
      { replace prec with ((prec - 1) + 1) at 1 by lia.
        rewrite Z.pow_add_r by lia. change (2 ^ 1) with 2.
        now rewrite Z.div_mul by lia. }
      rewrite Hhalf.
      assert (Hpos : 0 < 2 ^ (prec - 1)) by (apply Z.pow_pos_nonneg; lia).
      destruct (2 ^ (prec - 1)) as [|h|h] eqn:Hh; try lia.
      replace (0 + Zpos n + 1 <=? emax - prec) with true
        by (symmetry; apply Z.leb_le; lia).
      exists h, (0 + Zpos n + 1). split; [reflexivity|]. split.
      { apply digits2_pos_unique. rewrite <- Hh. split; [lia|].
        apply Z.pow_lt_mono_r; lia. }
      split; [lia|].
      rewrite <- Hh. rewrite <- !Z.pow_add_r by lia. f_equal. lia.
    + (* prec digits *)
      assert (Hdr : Zpos (digits2_pos r0) = prec).
      { apply digits2_pos_unique. lia. }
      cbn [Zdigits2]. rewrite Hdr, fexp_pos by lia.
      replace (prec + (0 + Zpos n) - prec - (0 + Zpos n)) with 0 by lia.
      cbn [shr shr_m].
      replace (0 + Zpos n <=? emax - prec) with true
        by (symmetry; apply Z.leb_le; lia).
      exists r0, (0 + Zpos n). split; [reflexivity|]. split; [exact Hdr|].
      split; [lia|].
      rewrite Z.pow_add_r by lia. rewrite Z.add_0_l. ring.
  - (* d < prec *)
    assert (Hdp : prec - d = Zpos n) by lia.
    replace (d <=? prec) with true by (symmetry; apply Z.leb_le; lia).
    assert (Hdm : Zpos (digits2_pos (Pos.iter xO m n)) = prec).
    { apply digits2_pos_unique. rewrite iter_xO, <- Hdp.
      assert (0 < 2 ^ (prec - d)) by (apply Z.pow_pos_nonneg; lia).
      replace (2 ^ (prec - 1)) with (2 ^ (d - 1) * 2 ^ (prec - d))
        by (rewrite <- Z.pow_add_r by lia; f_equal; lia).
      replace (2 ^ prec) with (2 ^ d * 2 ^ (prec - d))
        by (rewrite <- Z.pow_add_r by lia; f_equal; lia).
      nia. }
    exists (Pos.iter xO m n), (d - prec).
    rewrite binary_round_aux_canonical by (trivial; lia).
    split; [reflexivity|]. split; [exact Hdm|]. split; [lia|].
    rewrite iter_xO, <- Hdp.
    replace (d - prec + prec) with d by lia.
    replace (2 ^ prec) with (2 ^ (prec - d) * 2 ^ d)
      by (rewrite <- Z.pow_add_r by lia; f_equal; lia).
    ring.
Qed.

End Format.

Lemma rne_monotone (m1 m2 n : Z) :
  0 <= m1 <= m2 -> 1 <= n -> rne m1 n <= rne m2 n.
Proof.
  intros Hm Hn. unfold rne. cbv zeta.
  assert (Hh : 0 < 2 ^ (n - 1)) by (apply Z.pow_pos_nonneg; lia).
  assert (HP : 2 ^ n = 2 * 2 ^ (n - 1)).
  { replace n with (Z.succ (n - 1)) at 1 by lia. apply Z.pow_succ_r. lia. }
  set (h := 2 ^ (n - 1)) in *. set (P := 2 ^ n) in *.
  pose proof (Z.div_mod m1 P ltac:(lia)) as E1.
  pose proof (Z.div_mod m2 P ltac:(lia)) as E2.
  pose proof (Z.mod_pos_bound m1 P ltac:(lia)) as B1.
  pose proof (Z.mod_pos_bound m2 P ltac:(lia)) as B2.
  assert (Hq : m1 / P <= m2 / P) by (apply Z.div_le_mono; lia).
  set (q1 := m1 / P) in *. set (q2 := m2 / P) in *.
  set (r1 := m1 mod P) in *. set (r2 := m2 mod P) in *.
  destruct (Z.eq_dec q1 q2) as [Heq|Hne].
  - rewrite <- Heq. assert (r1 <= r2) by nia.
    destruct (Z.ltb_spec h r1), (Z.eqb_spec h r1), (Z.ltb_spec h r2),
      (Z.eqb_spec h r2), (Z.odd q1); simpl; lia.
  - assert (q1 + 1 <= q2) by lia.
    destruct ((h <? r1) || _), ((h <? r2) || _); lia.
Qed.

Section Rounded.

Variables prec emax : Z.

Hypothesis Hprec : 1 < prec.

Hypothesis Hemax : 66 <= emax.

Lemma rounded_bounds (m : positive) :
  let d := Zpos (digits2_pos m) in
  2 ^ (d - 1) <= rounded prec m <= 2 ^ d.
Proof.
  intros d. unfold rounded. fold d. pose proof (digits2_pos_bounds m) as Hm.
  fold d in Hm.
  destruct (Z.leb_spec d prec) as [Hd|Hd]; [lia|].
  pose proof (rne_bounds prec Hprec m) as Hb. cbv zeta in Hb. fold d in Hb.
  destruct (Hb Hd) as [[Hq1 Hq2] [Hr1 Hr2]]. clear Hb.
  assert (Hn : 0 < 2 ^ (d - prec)) by (apply Z.pow_pos_nonneg; lia).
  replace (2 ^ (d - 1)) with (2 ^ (prec - 1) * 2 ^ (d - prec))
    by (rewrite <- Z.pow_add_r by lia; f_equal; lia).
  replace (2 ^ d) with (2 ^ prec * 2 ^ (d - prec))
    by (rewrite <- Z.pow_add_r by lia; f_equal; lia).
  split; apply Z.mul_le_mono_nonneg_r; lia.
Qed.

Lemma rounded_monotone (a b : positive) :
  Zpos a <= Zpos b -> rounded prec a <= rounded prec b.
Proof.
  intros Hab.
  pose proof (rounded_bounds a) as Ba. pose proof (rounded_bounds b) as Bb.
  cbv zeta in Ba, Bb.
  assert (Hd : Zpos (digits2_pos a) <= Zpos (digits2_pos b)).
  { rewrite !digits2_pos_log2. apply Z.add_le_mono_r. now apply Z.log2_le_mono. }
  destruct (Z.eq_dec (Zpos (digits2_pos a)) (Zpos (digits2_pos b))) as [He|Hne].
  - unfold rounded. rewrite <- He.
    destruct (Z.leb_spec (Zpos (digits2_pos a)) prec) as [Hp|Hp]; trivial.
    apply Z.mul_le_mono_nonneg_r.
    + apply Z.pow_nonneg. lia.
    + apply rne_monotone; lia.
  - assert (2 ^ Zpos (digits2_pos a) <= 2 ^ (Zpos (digits2_pos b) - 1))
      by (apply Z.pow_le_mono_r; lia).
    lia.
Qed.

(** Comparison of two floats with mantissas of [prec] digits, through
    their values scaled by [2^prec]. *)
Lemma compare_canonical (m1 m2 : positive) (e1 e2 : Z) :
  Zpos (digits2_pos m1) = prec -> Zpos (digits2_pos m2) = prec ->
  - prec <= e1 -> - prec <= e2 ->
  Zpos m1 * 2 ^ (e1 + prec) <= Zpos m2 * 2 ^ (e2 + prec) ->
  SFleb (S754_finite false m1 e1) (S754_finite false m2 e2) = true /\
  SFleb (S754_finite true m2 e2) (S754_finite true m1 e1) = true.
Proof.
  intros Hd1 Hd2 He1 He2 Hv.
  pose proof (digits2_pos_bounds m1) as B1. rewrite Hd1 in B1.
  pose proof (digits2_pos_bounds m2) as B2. rewrite Hd2 in B2.
  assert (Hcases : e1 < e2 \/ (e1 = e2 /\ Zpos m1 <= Zpos m2)).
  { destruct (Z.lt_trichotomy e1 e2) as [H|[H|H]]; [now left| |].
    - right. split; trivial. subst e2.
      assert (0 < 2 ^ (e1 + prec)) by (apply Z.pow_pos_nonneg; lia). nia.
    - exfalso.
      assert (Hp : 2 ^ (e1 + prec) = 2 ^ (e1 - e2) * 2 ^ (e2 + prec)).
      { rewrite <- Z.pow_add_r by lia. f_equal. lia. }
      assert (H2 : 2 ^ 1 <= 2 ^ (e1 - e2)) by (apply Z.pow_le_mono_r; lia).
      change (2 ^ 1) with 2 in H2.
      assert (H0 : 0 < 2 ^ (e2 + prec)) by (apply Z.pow_pos_nonneg; lia).
      assert (Hpp : 2 ^ prec = 2 * 2 ^ (prec - 1)).
      { replace prec with (Z.succ (prec - 1)) at 1 by lia.
        apply Z.pow_succ_r. lia. }
      rewrite Hp in Hv. nia. }
  unfold SFleb, SFcompare.
  change (Pos.compare_cont Eq m1 m2) with (Pos.compare m1 m2).
  change (Pos.compare_cont Eq m2 m1) with (Pos.compare m2 m1).
  destruct Hcases as [Hlt|[-> Hm]].
  - rewrite (proj2 (Z.compare_lt_iff e1 e2) Hlt).
    rewrite (proj2 (Z.compare_gt_iff e2 e1) Hlt). auto.
  - rewrite Z.compare_refl.
    rewrite (Pos.compare_antisym m1 m2).
    destruct (Pos.compare_spec m1 m2) as [H|H|H]; simpl; auto; lia.
Qed.

End Rounded.

(** *** The casts of two ordered [long long] values *)

Lemma of_int_finite (k : float_kind) (s : bool) (m : positive) :
  Zpos m < 2 ^ 64 ->
  exists mant e,
    binary_round (fprec k) (femax k) s m 0 = S754_finite s mant e /\
    Zpos (digits2_pos mant) = fprec k /\
    1 - fprec k <= e <= 65 - fprec k /\
    Zpos mant * 2 ^ (e + fprec k) = rounded (fprec k) m * 2 ^ fprec k.
Proof.
  intros Hm. apply binary_round_int; trivial; destruct k; simpl; lia.
Qed.

Lemma exact_finite (k : float_kind) (s : bool) (m mant : positive) (e : Z) :
  1 - fprec k <= e ->
  Zpos mant * 2 ^ (e + fprec k) = rounded (fprec k) m * 2 ^ fprec k ->
  exact k (S754_finite s mant e) =
  Some (cond_Zopp s (rounded (fprec k) m * 2 ^ (fprec k + femax k - 3))).
Proof.
  intros He Hv. unfold exact, emin. do 2 f_equal.
  assert (Hk : 1 < fprec k /\ 66 <= femax k) by (destruct k; simpl; lia).
  replace (e - (3 - femax k - fprec k)) with ((e + fprec k) + (femax k - 3)) by lia.
  rewrite Z.pow_add_r, Z.mul_assoc, Hv by lia.
  rewrite <- Z.mul_assoc, <- Z.pow_add_r by lia.
  do 2 f_equal. lia.
Qed.

Lemma max_exact_large (k : float_kind) :
  2 ^ 65 * 2 ^ (fprec k + femax k - 3) <= max_exact k.
Proof. destruct k; vm_compute; discriminate. Qed.

(** For [long long] bounds [a <= b], the casts meet the precondition of
    [uniform_real_distribution]. *)
Lemma of_int_requires (k : float_kind) (a b : Z) :
  - 2 ^ 63 <= a -> a <= b -> b <= 2 ^ 63 - 1 ->
  real_requires k (of_int k a) (of_int k b) = true.
Proof.
  intros Ha Hab Hb.
  assert (Hk : 1 < fprec k /\ 66 <= femax k) by (destruct k; simpl; lia).
  destruct Hk as [Hprec Hemax].
  assert (Hscale : 0 < 2 ^ (fprec k + femax k - 3))
    by (apply Z.pow_pos_nonneg; lia).
  pose proof (max_exact_large k) as Hmax.
  assert (Hpos : forall s m, Zpos m <= 2 ^ 63 ->
            exists mant e,
              binary_round (fprec k) (femax k) s m 0 = S754_finite s mant e /\
              Zpos (digits2_pos mant) = fprec k /\
              - fprec k <= e /\
              Zpos mant * 2 ^ (e + fprec k) = rounded (fprec k) m * 2 ^ fprec k /\
              exact k (S754_finite s mant e) =
                Some (cond_Zopp s (rounded (fprec k) m * 2 ^ (fprec k + femax k - 3))) /\
              0 < rounded (fprec k) m <= 2 ^ 64).
  { intros s m Hm.
    destruct (of_int_finite k s m ltac:(lia)) as (mant & e & Hr & Hd & He & Hv).
    exists mant, e. split; [exact Hr|]. split; [exact Hd|]. split; [lia|].
    split; [exact Hv|]. split; [now apply exact_finite with (m := m)|].
    pose proof (rounded_bounds (fprec k) Hprec m) as Hrb. cbv zeta in Hrb.
    pose proof (digits2_pos_bounds m) as Hdb.
    assert (Hd64 : Zpos (digits2_pos m) <= 64).
    { destruct (Z.le_gt_cases (Zpos (digits2_pos m)) 64) as [H|H]; trivial.
      assert (2 ^ 64 <= 2 ^ (Zpos (digits2_pos m) - 1))
        by (apply Z.pow_le_mono_r; lia).
      lia. }
    assert (2 ^ Zpos (digits2_pos m) <= 2 ^ 64) by (apply Z.pow_le_mono_r; lia).
    assert (0 < 2 ^ (Zpos (digits2_pos m) - 1)) by (apply Z.pow_pos_nonneg; lia).
    lia. }
  unfold real_requires, of_int, lit, binary_normalize.
  destruct a as [|ma|ma], b as [|mb|mb]; try lia.
  - cbn [exact cond_Zopp SFleb SFcompare andb].
    apply Z.leb_le. nia.
  - destruct (Hpos false mb ltac:(lia)) as (m2 & e2 & -> & _ & _ & _ & -> & Hr2).
    cbn [exact cond_Zopp SFleb SFcompare andb].
    apply Z.leb_le. nia.
  - destruct (Hpos false ma ltac:(lia)) as (m1 & e1 & -> & Hd1 & He1 & Hv1 & -> & Hr1).
    destruct (Hpos false mb ltac:(lia)) as (m2 & e2 & -> & Hd2 & He2 & Hv2 & -> & Hr2).
    pose proof (rounded_monotone (fprec k) Hprec ma mb Hab) as Hmono.
    rewrite (proj1 (compare_canonical (fprec k) Hprec m1 m2 e1 e2 Hd1 Hd2 He1 He2
                      ltac:(rewrite Hv1, Hv2; nia))).
    cbn [cond_Zopp andb]. apply Z.leb_le. nia.
  - destruct (Hpos true ma ltac:(lia)) as (m1 & e1 & -> & _ & _ & _ & -> & Hr1).
    cbn [exact cond_Zopp SFleb SFcompare andb].
    apply Z.leb_le. nia.
  - destruct (Hpos true ma ltac:(lia)) as (m1 & e1 & -> & _ & _ & _ & -> & Hr1).
    destruct (Hpos false mb ltac:(lia)) as (m2 & e2 & -> & _ & _ & _ & -> & Hr2).
    cbn [cond_Zopp SFleb SFcompare andb].
    apply Z.leb_le. nia.
  - destruct (Hpos true ma ltac:(lia)) as (m1 & e1 & -> & Hd1 & He1 & Hv1 & -> & Hr1).
    destruct (Hpos true mb ltac:(lia)) as (m2 & e2 & -> & Hd2 & He2 & Hv2 & -> & Hr2).
    assert (Hba : Zpos mb <= Zpos ma) by lia.
    pose proof (rounded_monotone (fprec k) Hprec mb ma Hba) as Hmono.
    rewrite (proj2 (compare_canonical (fprec k) Hprec m2 m1 e2 e1 Hd2 Hd1 He2 He1
                      ltac:(rewrite Hv1, Hv2; nia))).
    cbn [cond_Zopp andb]. apply Z.leb_le. nia.
Qed.

End IEEE_facts.

(** ** The arithmetic types meet the laws *)

#[export] Instance integer_laws (k : int_kind) : ArithLaws (integer k).
Proof.
  split.
  - intros x y H. apply Z.eqb_eq in H. subst. apply Z.eqb_refl.
  - intros x y z H1 H2. apply Z.eqb_eq in H1, H2. subst. apply Z.eqb_refl.
  - intros x y z H. apply Z.eqb_eq in H. now subst.
  - intros x y z H. apply Z.eqb_eq in H. now subst.
  - intros h x y H. apply Z.eqb_eq in H. now subst.
  - intros h x _. apply Z.eqb_refl.
  - intros a b H. exact H.
  - intros a a' b b' Ha Hb. apply Z.eqb_eq in Ha, Hb. now subst.
Qed.

#[export] Instance floating_laws (k : float_kind) : ArithLaws (floating k).
Proof.
  split.
  - intros x y H. unfold op_eq, floating_arith, SFeqb.
    rewrite <- (IEEE_facts.compare_eqb_l x y x H).
    apply IEEE_facts.eqb_not_nan in H. now rewrite IEEE_facts.compare_refl.
  - intros x y z H1 H2. unfold op_eq, floating_arith, SFeqb.
    rewrite (IEEE_facts.compare_eqb_l x y z H1). exact H2.
  - intros x y z H. unfold op_le, floating_arith, SFleb.
    now rewrite (IEEE_facts.compare_eqb_l x y z H).
  - intros x y z H. unfold op_le, floating_arith, SFleb.
    now rewrite (IEEE_facts.compare_eqb_r x y z H).
  - intros h x y H. unfold size_t_plus, floating_arith, IEEE.size_t_plus.
    destruct (IEEE_facts.eqb_inv _ _ H) as [->|(s1 & s2 & -> & ->)];
      [reflexivity | apply IEEE_facts.to_size_t_add_zero].
  - intros h x H. apply IEEE_facts.eqb_refl. intros ->.
    unfold size_t_plus, floating_arith, IEEE.size_t_plus in H.
    now rewrite IEEE_facts.add_nan_r in H.
  - intros a b H. unfold dist_requires, floating_arith, IEEE.real_requires in H.
    now apply andb_prop in H.
  - intros a a' b b' Ha Hb. now apply IEEE_facts.real_requires_eqb.
Qed.

(** ** The concrete standard library meets its contract *)

Module LCG_facts.
Import LCG.

Lemma draw_int_range (a b e : Z) :
  (a <=? b) = true ->
  (a <=? fst (draw_int a b e)) = true /\ (fst (draw_int a b e) <=? b) = true.
Proof.
  intros H. apply Z.leb_le in H. unfold draw_int. simpl.
  assert (0 <= next e mod (b - a + 1) < b - a + 1) by (apply Z.mod_pos_bound; lia).
  split; apply Z.leb_le; lia.
Qed.

Lemma draw_real_range (k : float_kind) (a b : spec_float) (e : Z) :
  IEEE.real_requires k a b = true ->
  SFleb a (fst (draw_real a b e)) = true /\ SFleb (fst (draw_real a b e)) b = true.
Proof.
  intros H. unfold IEEE.real_requires in H. apply andb_prop in H.
  destruct H as [H _]. destruct (IEEE_facts.leb_not_nan _ _ H) as [Ha Hb].
  assert (Haa : SFleb a a = true) by (unfold SFleb; now rewrite IEEE_facts.compare_refl).
  assert (Hbb : SFleb b b = true) by (unfold SFleb; now rewrite IEEE_facts.compare_refl).
  unfold draw_real. simpl. destruct (Z.even _); auto.
Qed.

End LCG_facts.

#[export] Instance lcg_integer_laws (k : int_kind) : StdRandomLaws Z (integer k).
Proof. split. exact LCG_facts.draw_int_range. Qed.

#[export] Instance lcg_floating_laws (k : float_kind) : StdRandomLaws Z (floating k).
Proof. split. exact (LCG_facts.draw_real_range k). Qed.

(** ** Keys and their hash *)

Section Keys.

Context {T : Type} {AT : Arith T} {AL : ArithLaws T}.

Lemma pair_eq_sym (p q : T * T) : pair_eq p q = true -> pair_eq q p = true.
Proof.
  unfold pair_eq. intros H. apply andb_prop in H. destruct H as [H1 H2].
  now rewrite (op_eq_sym _ _ H1), (op_eq_sym _ _ H2).
Qed.

Lemma pair_eq_trans (p q r : T * T) :
  pair_eq p q = true -> pair_eq q r = true -> pair_eq p r = true.
Proof.
  unfold pair_eq. intros H H'. apply andb_prop in H, H'.
  destruct H as [H1 H2], H' as [H1' H2'].
  now rewrite (op_eq_trans _ _ _ H1 H1'), (op_eq_trans _ _ _ H2 H2').
Qed.

(** Equal keys are equal to the same keys. *)
Lemma pair_eq_congr (k p q : T * T) :
  pair_eq p q = true -> pair_eq k p = pair_eq k q.
Proof.
  intros H. destruct (pair_eq k p) eqn:Hp, (pair_eq k q) eqn:Hq; trivial.
  - now rewrite (pair_eq_trans _ _ _ Hp H) in Hq.
  - now rewrite (pair_eq_trans _ _ _ Hq (pair_eq_sym _ _ H)) in Hp.
Qed.

(** The requirement of [std::unordered_map] on its hash function: keys that
    compare equal have the same hash. *)
Lemma hash_pair_eq (p q : T * T) :
  pair_eq p q = true -> hash_pair p = hash_pair q.
Proof.
  unfold pair_eq, hash_pair. intros H. apply andb_prop in H.
  destruct H as [H1 H2].
  rewrite (size_t_plus_eq _ _ _ H1).
  destruct (size_t_plus _ (fst q)) as [h|]; simpl; trivial.
  now rewrite (size_t_plus_eq _ _ _ H2).
Qed.

(** A key that can be hashed compares equal to itself. *)
Lemma hash_pair_self (p : T * T) :
  returns (hash_pair p) = true -> pair_eq p p = true.
Proof.
  unfold hash_pair, pair_eq. intros H.
  destruct (size_t_plus (SizeT.wrap (17 * 31)) (fst p)) as [h|] eqn:H1;
    simpl in H; [|discriminate].
  destruct (size_t_plus (SizeT.wrap (h * 31)) (snd p)) as [h'|] eqn:H2;
    simpl in H; [|discriminate].
  rewrite (size_t_plus_self (SizeT.wrap (17 * 31)) (fst p)) by now rewrite H1.
  now rewrite (size_t_plus_self (SizeT.wrap (h * 31)) (snd p)) by now rewrite H2.
Qed.

Lemma hash_pair_range (p : T * T) (h : Z) :
  hash_pair p = Returns h -> 0 <= h <= 100002.
Proof.
  unfold hash_pair. intros H.
  apply bind_returns_inv in H. destruct H as (h1 & _ & H).
  apply bind_returns_inv in H. destruct H as (h2 & _ & H).
  injection H as <-.
  assert (0 <= Z.land h2 0x7fffffff mod 100003 < 100003)
    by (apply Z.mod_pos_bound; lia).
  lia.
Qed.

(** *** Looking a key up *)

Lemma find_congr (p q : T * T) (m : gen_hashmap T) :
  pair_eq p q = true -> find p m = find q m.
Proof.
  intros H. induction m as [|[k d] m IH]; simpl; trivial.
  now rewrite (pair_eq_congr k _ _ H), IH.
Qed.

Lemma find_lt (key : T * T) (m : gen_hashmap T) (i : nat) :
  find key m = Some i -> (i < length m)%nat.
Proof.
  revert i. induction m as [|[k d] m IH]; simpl; intros i; [discriminate|].
  destruct (pair_eq k key).
  - intros [= <-]. lia.
  - destruct (find key m) as [j|]; simpl; [|discriminate].
    intros [= <-]. specialize (IH j eq_refl). lia.
Qed.

Lemma find_nth (key : T * T) (m : gen_hashmap T) (i : nat) :
  find key m = Some i ->
  exists k d, nth_error m i = Some (k, d) /\ pair_eq k key = true.
Proof.
  revert i. induction m as [|[k d] m IH]; simpl; intros i; [discriminate|].
  destruct (pair_eq k key) eqn:Hk.
  - intros [= <-]. simpl. eauto.
  - destruct (find key m) as [j|]; simpl; [|discriminate].
    intros [= <-]. simpl. now apply IH.
Qed.

Lemma find_app_some (key : T * T) (m l : gen_hashmap T) (i : nat) :
  find key m = Some i -> find key (m ++ l) = Some i.
Proof.
  revert i. induction m as [|[k d] m IH]; simpl; intros i; [discriminate|].
  destruct (pair_eq k key); trivial.
  destruct (find key m) as [j|]; simpl; [|discriminate].
  intros [= <-]. now rewrite (IH j eq_refl).
Qed.

Lemma find_app_none (key k : T * T) (d : distribution T) (m : gen_hashmap T) :
  find key m = None ->
  find key (m ++ [(k, d)]) =
  if pair_eq k key then Some (length m) else None.
Proof.
  induction m as [|[k' d'] m IH]; simpl.
  - intros _. now destruct (pair_eq k key).
  - destruct (pair_eq k' key); [discriminate|].
    destruct (find key m) as [j|]; simpl; [discriminate|].
    intros _. rewrite IH by trivial. now destruct (pair_eq k key).
Qed.

Lemma nth_app_lt (m l : gen_hashmap T) (i : nat) (d : distribution T) :
  (i < length m)%nat ->
  nth i (map snd (m ++ l)) d = nth i (map snd m) d.
Proof.
  intros H. rewrite map_app, app_nth1; trivial. now rewrite length_map.
Qed.

End Keys.

(** ** The invariant of a run *)

Section Invariant.
Context {E T : Type} {AT : Arith T} {SR : StdRandom E T}.
Context {AL : ArithLaws T} {SL : StdRandomLaws E T}.

Lemma get_rand_impl_returns (min max : T) (w : world E T) :
  dist_requires min max = true ->
  returns (hash_pair (min, max)) = true ->
  get_rand_impl min max w = Returns (mk_sampler (min, max), after_get_rand min max w).
Proof.
  intros Hd Hh. unfold get_rand_impl, after_get_rand.
  destruct (get_rand_impl_init w) as [st reads].
  unfold uniform_distribution, std_uniform_distribution, emplace.
  rewrite Hd. simpl.
  apply returns_true in Hh. destruct Hh as [h Hh]. now rewrite Hh.
Qed.

Lemma get_rand_impl_inv (min max : T) (w w' : world E T) (f : sampler T) :
  get_rand_impl min max w = Returns (f, w') ->
  dist_requires min max = true /\
  returns (hash_pair (min, max)) = true /\
  f = mk_sampler (min, max) /\
  w' = after_get_rand min max w.
Proof.
  intros H.
  assert (Hd : dist_requires min max = true).
  { unfold get_rand_impl in H. destruct (get_rand_impl_init w) as [st reads].
    unfold uniform_distribution, std_uniform_distribution in H.
    destruct (dist_requires min max); [trivial | discriminate]. }
  assert (Hh : returns (hash_pair (min, max)) = true).
  { unfold get_rand_impl in H. destruct (get_rand_impl_init w) as [st reads].
    unfold uniform_distribution, std_uniform_distribution, emplace in H.
    rewrite Hd in H. simpl in H.
    destruct (hash_pair (min, max)); [trivial | discriminate]. }
  rewrite (get_rand_impl_returns min max w Hd Hh) in H.
  injection H as <- <-. auto.
Qed.

Lemma cache_after_get_rand (min max : T) (w : world E T) :
  cache (after_get_rand min max w) =
  emplaced (cache w) (min, max) (mk_distribution min max).
Proof.
  unfold after_get_rand, get_rand_impl_init, cache.
  destruct (get_rand_impl_statics w) as [st|]; reflexivity.
Qed.

Lemma subscript_found (m : gen_hashmap T) (key : T * T) (i : nat) :
  returns (hash_pair key) = true ->
  find key m = Some i ->
  subscript m key = Returns (nth i (map snd m) default_distribution, m).
Proof.
  intros Hh Hf. unfold subscript.
  apply returns_true in Hh. destruct Hh as [h Hh]. rewrite Hh. simpl.
  now rewrite Hf.
Qed.

Lemma invoke_found (f : sampler T) (w : world E T)
    (st : get_rand_statics E T) (i : nat) :
  get_rand_impl_statics w = Some st ->
  returns (hash_pair (captured_key f)) = true ->
  find (captured_key f) (generators st) = Some i ->
  let d := nth i (map snd (generators st)) default_distribution in
  invoke f w =
  Returns (fst (draw (dist_a d) (dist_b d) (engine st)), after_invoke d w).
Proof.
  intros Hst Hh Hf d. unfold invoke, after_invoke. rewrite Hst.
  rewrite (subscript_found _ _ _ Hh Hf). simpl. fold d.
  now destruct (draw (dist_a d) (dist_b d) (engine st)).
Qed.

Lemma cache_after_invoke (d : distribution T) (w : world E T) :
  cache (after_invoke d w) = cache w.
Proof.
  unfold after_invoke, cache.
  destruct (get_rand_impl_statics w) eqn:Hst; simpl; [reflexivity|].
  now rewrite Hst.
Qed.

(** *** The cache only grows *)

Lemma emplaced_extends (m : gen_hashmap T) (key : T * T) (d : distribution T) :
  exists l, emplaced m key d = m ++ l.
Proof.
  unfold emplaced. destruct (find key m).
  - exists []. now rewrite app_nil_r.
  - now exists [(key, d)].
Qed.

Lemma emplaced_entries (m : gen_hashmap T) (key : T * T) (d : distribution T) :
  Forall entry_ok m -> entry_ok (key, d) -> Forall entry_ok (emplaced m key d).
Proof.
  intros Hm He. unfold emplaced. destruct (find key m); trivial.
  apply Forall_app. split; auto.
Qed.

Lemma distinct_keys_snoc (m : gen_hashmap T) (key : T * T) (d : distribution T) :
  distinct_keys m -> find key m = None -> distinct_keys (m ++ [(key, d)]).
Proof.
  induction m as [|[k d'] m IH]; simpl.
  - auto.
  - intros [Hk Hm] Hf.
    destruct (pair_eq k key) eqn:Hkk; [discriminate|].
    destruct (find key m) eqn:Hfm; simpl in Hf; [discriminate|].
    split; [|now apply IH].
    rewrite find_app_none by trivial.
    destruct (pair_eq key k) eqn:Hkk'; trivial.
    now rewrite (pair_eq_sym _ _ Hkk') in Hkk.
Qed.

Lemma emplaced_distinct (m : gen_hashmap T) (key : T * T) (d : distribution T) :
  distinct_keys m -> distinct_keys (emplaced m key d).
Proof.
  intros Hm. unfold emplaced. destruct (find key m) eqn:Hf; trivial.
  now apply distinct_keys_snoc.
Qed.

Lemma emplaced_find (m : gen_hashmap T) (key : T * T) (d : distribution T) :
  pair_eq key key = true -> find key (emplaced m key d) <> None.
Proof.
  intros Hk. unfold emplaced. destruct (find key m) eqn:Hf.
  - now rewrite Hf.
  - rewrite find_app_none by trivial. now rewrite Hk.
Qed.

(** A key that is in the cache stays on its node. *)
Lemma find_extends (key : T * T) (m l : gen_hashmap T) :
  find key m <> None -> find key (m ++ l) = find key m.
Proof.
  destruct (find key m) as [i|] eqn:Hf; [|congruence].
  intros _. now apply find_app_some.
Qed.

Lemma node_extends (f : sampler T) (w w' : world E T) (l : gen_hashmap T) :
  cache w' = cache w ++ l ->
  node_of f w <> None ->
  node_of f w' = node_of f w /\ distribution_of f w' = distribution_of f w.
Proof.
  unfold distribution_of, node_of. intros Hc Hn.
  rewrite Hc, find_extends by trivial. split; trivial.
  destruct (find (captured_key f) (cache w)) as [i|] eqn:Hf; trivial.
  rewrite map_app. apply nth_error_app1.
  rewrite length_map. eapply find_lt; eauto.
Qed.

(** *** The invariant is kept *)

Lemma invariant_initial (n : nat) : invariant (initial E T n) [].
Proof.
  split; simpl.
  - constructor.
  - exact I.
  - intros f [].
  - constructor.
Qed.

Lemma invariant_weaken (w : world E T) (f : sampler T) (cs : list (sampler T)) :
  invariant w (f :: cs) -> invariant w cs.
Proof.
  intros [H1 H2 H3 H4]. split; trivial.
  intros g Hg. apply H3. now right.
Qed.

Lemma invariant_get_rand (w w' : world E T) (cs : list (sampler T))
    (min max : T) (f : sampler T) :
  invariant w cs ->
  get_rand min max w = Returns (f, w') ->
  invariant w' (f :: cs) /\ exists l, cache w' = cache w ++ l.
Proof.
  intros [H1 H2 H3 H4] H. apply get_rand_impl_inv in H.
  destruct H as (Hd & Hh & -> & ->).
  pose proof (cache_after_get_rand min max w) as Hc.
  destruct (emplaced_extends (cache w) (min, max) (mk_distribution min max))
    as [l Hl].
  split; [|exists l; congruence].
  split.
  - rewrite Hc. apply emplaced_entries; trivial. repeat split; trivial.
  - rewrite Hc. now apply emplaced_distinct.
  - intros g [<-|Hg].
    + repeat split; trivial.
      * unfold after_get_rand. destruct (get_rand_impl_init w). discriminate.
      * unfold node_of. rewrite Hc. simpl.
        apply emplaced_find. now apply hash_pair_self.
    + destruct (H3 g Hg) as (Hs & Hn & Hhg). repeat split; trivial.
      * unfold after_get_rand. destruct (get_rand_impl_init w). discriminate.
      * unfold node_of in *. rewrite Hc, Hl. now rewrite find_extends.
  - unfold after_get_rand. now destruct (get_rand_impl_init w).
Qed.

(** A closure in hand finds its node: the call returns the draw of that
    node's distribution, and only the engine changes. *)
Lemma invoke_held (w : world E T) (cs : list (sampler T)) (f : sampler T) :
  invariant w cs -> In f cs ->
  exists st i d,
    get_rand_impl_statics w = Some st /\
    node_of f w = Some i /\
    nth_error (cache w) i = Some (d, mk_distribution (fst d) (snd d)) /\
    pair_eq d (captured_key f) = true /\
    dist_requires (fst d) (snd d) = true /\
    invoke f w =
      Returns (fst (draw (fst d) (snd d) (engine st)),
               after_invoke (mk_distribution (fst d) (snd d)) w).
Proof.
  intros [H1 H2 H3 H4] Hf. destruct (H3 f Hf) as (Hs & Hn & Hh).
  destruct (get_rand_impl_statics w) as [st|] eqn:Hst; [|congruence].
  unfold node_of, cache in *. rewrite Hst in *.
  destruct (find (captured_key f) (generators st)) as [i|] eqn:Hfi; [|congruence].
  destruct (find_nth _ _ _ Hfi) as (k & d & Hnth & Hk).
  assert (Hok : entry_ok (k, d)).
  { rewrite Forall_forall in H1. apply H1. eapply nth_error_In; eauto. }
  destruct Hok as (Hd & Hreq & _). simpl in Hd, Hreq. subst d.
  exists st, i, k. repeat split; trivial.
  rewrite (invoke_found f w st i Hst Hh Hfi).
  assert (Hd : nth i (map snd (generators st)) default_distribution
               = mk_distribution (fst k) (snd k)).
  { apply nth_error_nth. now rewrite nth_error_map, Hnth. }
  now rewrite Hd.
Qed.

Lemma invariant_after_invoke (w : world E T) (cs : list (sampler T))
    (d : distribution T) :
  invariant w cs -> invariant (after_invoke d w) cs.
Proof.
  intros [H1 H2 H3 H4].
  pose proof (cache_after_invoke d w) as Hc.
  split.
  - now rewrite Hc.
  - now rewrite Hc.
  - intros g Hg. destruct (H3 g Hg) as (Hs & Hn & Hh). repeat split; trivial.
    + unfold after_invoke.
      destruct (get_rand_impl_statics w); [discriminate|congruence].
    + unfold node_of in *. now rewrite Hc.
  - unfold after_invoke. now destruct (get_rand_impl_statics w).
Qed.

Lemma invariant_invoke (w w' : world E T) (cs : list (sampler T))
    (f : sampler T) (v : T) :
  invariant w cs -> In f cs ->
  invoke f w = Returns (v, w') ->
  invariant w' cs /\ cache w' = cache w.
Proof.
  intros Hinv Hf H.
  destruct (invoke_held w cs f Hinv Hf) as (st & i & d & _ & _ & _ & _ & _ & Hi).
  rewrite Hi in H. injection H as _ <-.
  split; [now apply invariant_after_invoke | apply cache_after_invoke].
Qed.

(** *** The template-parameter form *)

Lemma same_arguments_eq (k key : Z * Z) :
  same_arguments k key = true <-> k = key.
Proof.
  unfold same_arguments. destruct k as [a b], key as [a' b']. simpl.
  rewrite andb_true_iff, !Z.eqb_eq. split; [intros [-> ->] | intros [= -> ->]]; auto.
Qed.

Lemma instantiation_found (key : Z * Z) (st : rand_statics E T)
    (l : list ((Z * Z) * rand_statics E T)) :
  instantiation key l = Some st ->
  Forall instantiation_ok l -> instantiation_ok (key, st).
Proof.
  induction l as [|[k st'] l IH]; simpl; [discriminate|].
  intros H Hl. inversion Hl as [|? ? Hhd Htl]; subst.
  destruct (same_arguments k key) eqn:Hk.
  - injection H as ->. apply same_arguments_eq in Hk. now subst.
  - now apply IH.
Qed.

Lemma set_instantiation_ok (key : Z * Z) (st : rand_statics E T)
    (l : list ((Z * Z) * rand_statics E T)) :
  Forall instantiation_ok l -> instantiation_ok (key, st) ->
  Forall instantiation_ok (set_instantiation key st l).
Proof.
  intros Hl Hk. induction l as [|[k st'] l IH]; simpl.
  - now constructor.
  - inversion Hl as [|? ? Hhd Htl]; subst.
    destruct (same_arguments k key) eqn:Hab.
    + constructor; trivial. apply same_arguments_eq in Hab. now subst.
    + constructor; auto.
Qed.

Lemma instantiation_set_same (key : Z * Z) (st : rand_statics E T)
    (l : list ((Z * Z) * rand_statics E T)) :
  instantiation key (set_instantiation key st l) = Some st.
Proof.
  induction l as [|[k st'] l IH]; simpl.
  - now rewrite (proj2 (same_arguments_eq key key) eq_refl).
  - destruct (same_arguments k key) eqn:Hab; simpl; now rewrite Hab.
Qed.

Lemma instantiation_set_other (key key' : Z * Z) (st : rand_statics E T)
    (l : list ((Z * Z) * rand_statics E T)) :
  key' <> key ->
  instantiation key' (set_instantiation key st l) = instantiation key' l.
Proof.
  intros Hne. induction l as [|[k st'] l IH]; simpl.
  - destruct (same_arguments key key') eqn:Hk; trivial.
    apply same_arguments_eq in Hk. congruence.
  - destruct (same_arguments k key) eqn:Hab; simpl.
    + destruct (same_arguments k key') eqn:Hab'; trivial.
      apply same_arguments_eq in Hab, Hab'. congruence.
    + now rewrite IH.
Qed.

Lemma rand_impl_tpl_returns (min max : Z) (w : world E T) :
  Forall instantiation_ok (rand_impl_statics w) ->
  dist_requires (of_value_type min) (of_value_type max) = true ->
  rand_impl_tpl min max w = Returns (tpl_value min max w, after_rand_tpl min max w).
Proof.
  intros Hok Hd.
  unfold rand_impl_tpl, tpl_value, after_rand_tpl, tpl_statics_after.
  destruct (instantiation (min, max) (rand_impl_statics w)) as [st|]; simpl.
  - now destruct (draw _ _ (tpl_engine st)).
  - unfold uniform_distribution_tpl, std_uniform_distribution.
    rewrite Hd. simpl. now destruct (draw _ _ _).
Qed.

Lemma rand_impl_tpl_inv (min max : Z) (w w' : world E T) (v : T) :
  Forall instantiation_ok (rand_impl_statics w) ->
  rand_impl_tpl min max w = Returns (v, w') ->
  dist_requires (of_value_type min) (of_value_type max) = true /\
  v = tpl_value min max w /\ w' = after_rand_tpl min max w.
Proof.
  intros Hok H.
  assert (Hd : dist_requires (of_value_type min) (of_value_type max) = true).
  { unfold rand_impl_tpl in H.
    destruct (instantiation (min, max) (rand_impl_statics w)) as [st|] eqn:Hi.
    - now destruct (instantiation_found _ _ _ Hi Hok).
    - simpl in H. unfold uniform_distribution_tpl, std_uniform_distribution in H.
      destruct (dist_requires _ _); [trivial | discriminate]. }
  rewrite (rand_impl_tpl_returns min max w Hok Hd) in H.
  injection H as <- <-. auto.
Qed.

Lemma tpl_statics_after_ok (min max : Z) (w : world E T) :
  Forall instantiation_ok (rand_impl_statics w) ->
  dist_requires (of_value_type min) (of_value_type max) = true ->
  instantiation_ok ((min, max), tpl_statics_after min max w).
Proof.
  intros Hok Hd. unfold tpl_statics_after.
  destruct (instantiation (min, max) (rand_impl_statics w)) as [st|] eqn:Hi.
  - destruct (instantiation_found _ _ _ Hi Hok) as [Hg Hr].
    split; simpl in *; trivial.
  - split; simpl; trivial.
Qed.

Lemma tpl_value_in_range (min max : Z) (w : world E T) :
  Forall instantiation_ok (rand_impl_statics w) ->
  dist_requires (of_value_type min) (of_value_type max) = true ->
  in_range (of_value_type min, of_value_type max) (tpl_value min max w).
Proof.
  intros Hok Hd. unfold tpl_value, in_range.
  destruct (instantiation (min, max) (rand_impl_statics w)) as [st|] eqn:Hi.
  - destruct (instantiation_found _ _ _ Hi Hok) as [Hg Hr].
    simpl in *. rewrite Hg. simpl. now apply draw_range.
  - simpl. now apply draw_range.
Qed.

Lemma invariant_rand_tpl (w w' : world E T) (cs : list (sampler T))
    (min max : Z) (v : T) :
  invariant w cs ->
  rand_tpl min max w = Returns (v, w') ->
  invariant w' cs /\ get_rand_impl_statics w' = get_rand_impl_statics w.
Proof.
  intros [H1 H2 H3 H4] H.
  destruct (rand_impl_tpl_inv min max w _ _ H4 H) as (Hd & -> & ->).
  split; [|reflexivity].
  split; trivial.
  simpl. apply set_instantiation_ok; trivial.
  now apply tpl_statics_after_ok.
Qed.

(** *** Every reachable state satisfies the invariant *)

Lemma invariant_step (w w' : world E T) (cs cs' : list (sampler T)) :
  invariant w cs -> step w cs w' cs' ->
  invariant w' cs' /\ exists l, cache w' = cache w ++ l.
Proof.
  intros Hinv Hstep.
  destruct Hstep as [w cs min max f w' H | w cs f v w' Hf H
                    | w cs min max v w' H | w cs min max v w' H].
  - now apply invariant_get_rand with (min := min) (max := max).
  - destruct (invariant_invoke w w' cs f v Hinv Hf H) as [Hi Hc].
    split; trivial. exists []. now rewrite app_nil_r.
  - unfold rand, rand_impl in H. apply bind_returns_inv in H.
    destruct H as ([f w1] & Hg & Hi).
    destruct (invariant_get_rand w w1 cs min max f Hinv Hg) as [Hinv1 [l Hl]].
    destruct (invariant_invoke w1 w' (f :: cs) f v Hinv1 (or_introl eq_refl) Hi)
      as [Hinv' Hc].
    split; [now apply invariant_weaken with (f := f)|].
    exists l. congruence.
  - destruct (invariant_rand_tpl w w' cs min max v Hinv H) as [Hi Hs].
    split; trivial. exists []. unfold cache. now rewrite Hs, app_nil_r.
Qed.

Lemma step_keeps_samplers (w w' : world E T) (cs cs' : list (sampler T)) :
  step w cs w' cs' -> forall f, In f cs -> In f cs'.
Proof.
  intros Hstep f Hf. destruct Hstep; trivial. now right.
Qed.

Lemma invariant_steps (w w' : world E T) (cs cs' : list (sampler T)) :
  invariant w cs -> steps w cs w' cs' ->
  invariant w' cs' /\
  (exists l, cache w' = cache w ++ l) /\
  (forall f, In f cs -> In f cs').
Proof.
  intros Hinv Hsteps. induction Hsteps as [w cs | w cs w1 cs1 w2 cs2 _ IH Hstep].
  - split; trivial. split; auto. exists []. now rewrite app_nil_r.
  - destruct (IH Hinv) as (Hinv1 & [l Hl] & Hin).
    destruct (invariant_step w1 w2 cs1 cs2 Hinv1 Hstep) as [Hinv2 [l' Hl']].
    split; trivial. split.
    + exists (l ++ l'). now rewrite Hl', Hl, app_assoc.
    + intros f Hf. eapply step_keeps_samplers; eauto.
Qed.

Lemma reachable_invariant (w : world E T) (cs : list (sampler T)) :
  reachable w cs -> invariant w cs.
Proof.
  intros [n Hsteps].
  now destruct (invariant_steps _ _ _ _ (invariant_initial n) Hsteps).
Qed.

Lemma reachable_initial (n : nat) : reachable (initial E T n) [].
Proof. exists n. constructor. Qed.

Lemma reachable_step (w w' : world E T) (cs cs' : list (sampler T)) :
  reachable w cs -> step w cs w' cs' -> reachable w' cs'.
Proof. intros [n H] Hs. exists n. econstructor; eauto. Qed.

Lemma reachable_steps (w w' : world E T) (cs cs' : list (sampler T)) :
  reachable w cs -> steps w cs w' cs' -> reachable w' cs'.
Proof.
  intros Hr Hs. induction Hs as [|w cs w1 cs1 w2 cs2 _ IH Hstep]; trivial.
  apply reachable_step with (w := w1) (cs := cs1); auto.
Qed.

(** *** Draws lie between the bounds *)

Lemma in_range_eq (k key : T * T) (v : T) :
  pair_eq k key = true -> in_range k v -> in_range key v.
Proof.
  unfold pair_eq, in_range. intros H [H1 H2]. apply andb_prop in H.
  destruct H as [Ha Hb].
  now rewrite <- (op_le_eq_l _ _ v Ha), <- (op_le_eq_r _ _ v Hb).
Qed.

Lemma invoke_in_range (w : world E T) (cs : list (sampler T)) (f : sampler T) :
  invariant w cs -> In f cs ->
  exists v w',
    invoke f w = Returns (v, w') /\
    in_range (captured_key f) v /\
    invariant w' cs /\ cache w' = cache w.
Proof.
  intros Hinv Hf.
  destruct (invoke_held w cs f Hinv Hf)
    as (st & i & d & Hst & Hn & Hnth & Hk & Hreq & Hi).
  eexists. eexists. split; [exact Hi|]. split; [|split].
  - apply in_range_eq with (k := d); trivial.
    now apply draw_range.
  - now apply invariant_after_invoke.
  - apply cache_after_invoke.
Qed.

Lemma rand_in_range (w : world E T) (cs : list (sampler T)) (min max : T) :
  invariant w cs ->
  dist_requires min max = true ->
  returns (hash_pair (min, max)) = true ->
  exists v w',
    rand min max w = Returns (v, w') /\ in_range (min, max) v /\
    invariant w' cs.
Proof.
  intros Hinv Hd Hh. unfold rand, rand_impl.
  pose proof (get_rand_impl_returns min max w Hd Hh) as Hg.
  rewrite Hg. simpl.
  destruct (invariant_get_rand w _ cs min max _ Hinv Hg) as [Hinv1 _].
  destruct (invoke_in_range _ _ (mk_sampler (min, max)) Hinv1 (or_introl eq_refl))
    as (v & w' & Hi & Hr & Hinv' & _).
  exists v, w'. split; trivial. split; trivial.
  now apply invariant_weaken with (f := mk_sampler (min, max)).
Qed.

Lemma invoke_n_in_range (f : sampler T) (n : nat) :
  forall (w : world E T) (cs : list (sampler T)),
  invariant w cs -> In f cs ->
  exists vs w',
    invoke_n f n w = Returns (vs, w') /\
    length vs = n /\
    Forall (in_range (captured_key f)) vs /\
    invariant w' cs.
Proof.
  induction n as [|n IH]; intros w cs Hinv Hf; simpl.
  - exists [], w. split; [|split; [|split]]; trivial.
  - destruct (invoke_in_range w cs f Hinv Hf) as (v & w1 & Hi & Hr & Hinv1 & _).
    destruct (IH w1 cs Hinv1 Hf) as (vs & w2 & Hn & Hlen & Hall & Hinv2).
    exists (v :: vs), w2. rewrite Hi. simpl. rewrite Hn. simpl.
    split; [|split; [|split]]; trivial; [now rewrite Hlen | now constructor].
Qed.

(** *** One node per key *)

Lemma find_none_nth (key : T * T) (m : gen_hashmap T) (j : nat)
    (k : T * T) (d : distribution T) :
  find key m = None -> nth_error m j = Some (k, d) -> pair_eq k key = false.
Proof.
  revert j. induction m as [|[k0 d0] m IH]; intros j; simpl.
  - destruct j; discriminate.
  - destruct (pair_eq k0 key) eqn:H0; [discriminate|].
    destruct (find key m) eqn:Hf; simpl; [discriminate|]. intros _.
    destruct j as [|j]; simpl.
    + now intros [= <- <-].
    + now apply IH.
Qed.

Lemma distinct_keys_unique (key : T * T) (m : gen_hashmap T) (i j : nat)
    (k : T * T) (d : distribution T) :
  distinct_keys m ->
  find key m = Some i ->
  nth_error m j = Some (k, d) -> pair_eq k key = true -> j = i.
Proof.
  revert i j. induction m as [|[k0 d0] m IH]; intros i j; simpl.
  - discriminate.
  - intros [H0 Hm] Hf Hj Hk.
    destruct (pair_eq k0 key) eqn:Hk0.
    + injection Hf as <-. destruct j as [|j]; trivial. simpl in Hj.
      pose proof (find_none_nth k0 m j k d H0 Hj) as Hne.
      rewrite (pair_eq_trans _ _ _ Hk (pair_eq_sym _ _ Hk0)) in Hne.
      discriminate.
    + destruct (find key m) as [i'|] eqn:Hfm; simpl in Hf; [|discriminate].
      injection Hf as <-. destruct j as [|j]; simpl in Hj.
      * injection Hj as <- <-. congruence.
      * f_equal. now apply IH.
Qed.

End Invariant.

(** * The hash of a key *)

Lemma wrap_hash_steps (a b : Z) :
  SizeT.wrap (SizeT.wrap (SizeT.wrap (SizeT.wrap (17 * 31) + a) * 31) + b) =
  SizeT.wrap ((17 * 31 + a) * 31 + b).
Proof.
  unfold SizeT.wrap. generalize SizeT.modulus as M. intros M.
  rewrite (Zplus_mod_idemp_l (17 * 31) a M).
  rewrite (Zmult_mod_idemp_l (17 * 31 + a) 31 M).
  now rewrite Zplus_mod_idemp_l.
Qed.

Lemma hash_pair_integer (k : int_kind) (a b : integer k) :
  hash_pair (a, b) = Returns (hash_formula a b).
Proof.
  unfold hash_pair, hash_formula.
  cbn [fst snd size_t_plus integer_arith]. unfold int_size_t_plus.
  cbn [bind]. do 3 f_equal. apply wrap_hash_steps.
Qed.

Lemma hash_pair_integer_returns (k : int_kind) (p : integer k * integer k) :
  returns (hash_pair p) = true.
Proof. destruct p as [a b]. now rewrite hash_pair_integer. Qed.

(** The steps of the hash at a floating-point type. *)
Lemma hash_pair_floating (k : float_kind) (a b : floating k) :
  hash_pair (a, b) =
  (h1 <- IEEE.to_size_t (SFadd (fprec k) (femax k) (IEEE.of_int k 527) a) ;;
   h2 <- IEEE.to_size_t
           (SFadd (fprec k) (femax k) (IEEE.of_int k (SizeT.wrap (h1 * 31))) b) ;;
   Returns (Z.land h2 0x7fffffff mod 100003)).
Proof. reflexivity. Qed.

(** A key whose hash is undefined makes the whole call undefined. *)
Lemma get_rand_unhashable {E T : Type} {AT : Arith T} {SR : StdRandom E T}
    (min max : T) (w : world E T) :
  hash_pair (min, max) = Undefined ->
  get_rand min max w = Undefined /\ rand min max w = Undefined.
Proof.
  intros Hh.
  assert (Hg : get_rand min max w = Undefined).
  { unfold get_rand, get_rand_impl.
    destruct (get_rand_impl_init w) as [st reads].
    destruct (uniform_distribution min max) as [d|]; simpl; trivial.
    unfold emplace. now rewrite Hh. }
  split; trivial.
  unfold rand, rand_impl. unfold get_rand in Hg. now rewrite Hg.
Qed.

(** C10, as the code has it.  For an integral [T], [hash_pair] computes
    [((17 * 31 + p.first) * 31 + p.second)] in 64-bit unsigned wrap-around
    arithmetic and returns that value masked with [0x7fffffff] and reduced
    modulo [100003].  For a floating-point [T] each sum [hash * 31 + x] is a
    floating-point addition whose result is converted back to [std::size_t].
    At every type a returned hash lies in [[0, 100002]], and pairs that
    compare equal have the same hash. *)
Theorem hash_pair_contract :
  (forall (k : int_kind) (a b : integer k),
     hash_pair (a, b) = Returns (hash_formula a b)) /\
  (forall (k : float_kind) (a b : floating k),
     hash_pair (a, b) =
     (h1 <- IEEE.size_t_plus k (SizeT.wrap (17 * 31)) a ;;
      h2 <- IEEE.size_t_plus k (SizeT.wrap (h1 * 31)) b ;;
      Returns (Z.land h2 0x7fffffff mod 100003))) /\
  (forall (T : Type) (AT : Arith T) (p : T * T) (h : Z),
     hash_pair p = Returns h -> 0 <= h <= 100002) /\
  (forall (T : Type) (AT : Arith T) (AL : ArithLaws T) (p q : T * T),
     pair_eq p q = true -> hash_pair p = hash_pair q).
Proof.
  split; [|split; [|split]].
  - exact hash_pair_integer.
  - reflexivity.
  - intros T AT p h. apply hash_pair_range.
  - intros T AT AL p q. apply hash_pair_eq.
Qed.

(** C10 fails at [T = double]: for the pair [(-0.5, 0.0)] the code adds
    [-0.5] to [527.0] and truncates [526.5] to [526], so it returns [16306];
    unsigned arithmetic on the two values converted to [std::size_t] (both
    [0]) gives [16337]. *)
Lemma hash_pair_double_differs :
  hash_pair (T := floating Double)
    (IEEE.lit Double (-1) (-1), IEEE.of_int Double 0) = Returns 16306 /\
  IEEE.to_size_t (IEEE.lit Double (-1) (-1)) = Returns 0 /\
  IEEE.to_size_t (IEEE.of_int Double 0) = Returns 0 /\
  hash_formula 0 0 = 16337.
Proof. vm_compute. repeat split. Qed.

(** * Keys that cannot be hashed

    At a floating-point [T] the sums of [hash_pair] are floating-point sums,
    and their conversion back to [std::size_t] is undefined when the
    truncated value is negative or not below [2^64] ([conv.fpint]). *)

Lemma hash_pair_double_negative :
  hash_pair (T := floating Double)
    (IEEE.of_int Double (-1000), IEEE.of_int Double 0) = Undefined.
Proof. vm_compute. reflexivity. Qed.

Lemma hash_pair_float_negative :
  hash_pair (T := floating Float)
    (IEEE.of_int Float (-1000), IEEE.of_int Float 1000) = Undefined.
Proof. vm_compute. reflexivity. Qed.

Lemma hash_pair_double_large :
  hash_pair (T := floating Double)
    (IEEE.of_int Double 0, IEEE.of_int Double (2 ^ 64)) = Undefined.
Proof. vm_compute. reflexivity. Qed.

(** [rand(-1000.0, 0.0)] at [T = double]: the range is valid and meets the
    precondition of [uniform_real_distribution], and the call is undefined,
    in every state and with every standard library: [hash_pair] converts
    [527.0 + -1000.0 = -473.0] to [std::size_t]. *)
Theorem rand_double_negative_undefined
    (E : Type) (SR : StdRandom E (floating Double))
    (w : world E (floating Double)) :
  op_le (IEEE.of_int Double (-1000)) (IEEE.of_int Double 0) = true /\
  dist_requires (T := floating Double)
    (IEEE.of_int Double (-1000)) (IEEE.of_int Double 0) = true /\
  rand (IEEE.of_int Double (-1000)) (IEEE.of_int Double 0) w = Undefined.
Proof.
  split; [vm_compute; reflexivity|]. split; [vm_compute; reflexivity|].
  apply get_rand_unhashable. exact hash_pair_double_negative.
Qed.

(** [get_rand(-1000.f, 1000.f)] at [T = float]: the range is valid and
    meets the precondition of [uniform_real_distribution], and the call is
    undefined before any closure is returned. *)
Theorem get_rand_float_negative_undefined
    (E : Type) (SR : StdRandom E (floating Float))
    (w : world E (floating Float)) :
  op_le (IEEE.of_int Float (-1000)) (IEEE.of_int Float 1000) = true /\
  dist_requires (T := floating Float)
    (IEEE.of_int Float (-1000)) (IEEE.of_int Float 1000) = true /\
  get_rand (IEEE.of_int Float (-1000)) (IEEE.of_int Float 1000) w = Undefined.
Proof.
  split; [vm_compute; reflexivity|]. split; [vm_compute; reflexivity|].
  apply get_rand_unhashable. exact hash_pair_float_negative.
Qed.

(** The range [(0.0, 2^64)] at [T = double]: valid, within the
    precondition of the distribution, and neither [get_rand] nor [rand]
    returns: the second sum of [hash_pair] is [2^64], which is not a value
    of [std::size_t]. *)
Theorem valid_range_not_total
    (E : Type) (SR : StdRandom E (floating Double))
    (w : world E (floating Double)) :
  op_le (IEEE.of_int Double 0) (IEEE.of_int Double (2 ^ 64)) = true /\
  dist_requires (T := floating Double)
    (IEEE.of_int Double 0) (IEEE.of_int Double (2 ^ 64)) = true /\
  get_rand (IEEE.of_int Double 0) (IEEE.of_int Double (2 ^ 64)) w = Undefined /\
  rand (IEEE.of_int Double 0) (IEEE.of_int Double (2 ^ 64)) w = Undefined.
Proof.
  split; [vm_compute; reflexivity|]. split; [vm_compute; reflexivity|].
  apply get_rand_unhashable. exact hash_pair_double_large.
Qed.

(** * Engines and seeds *)

Section Engines.
Context {E T : Type} {AT : Arith T} {SR : StdRandom E T}.
Context {AL : ArithLaws T} {SL : StdRandomLaws E T}.

Lemma step_effect (w w' : world E T) (cs cs' : list (sampler T)) :
  invariant w cs -> step w cs w' cs' ->
  (exists min max, w' = after_get_rand min max w) \/
  (exists d, get_rand_impl_statics w <> None /\ w' = after_invoke d w) \/
  (exists min max d, w' = after_invoke d (after_get_rand min max w)) \/
  (exists min max, w' = after_rand_tpl min max w).
Proof.
  intros Hinv Hstep.
  destruct Hstep as [w cs min max f w' H | w cs f v w' Hf H
                    | w cs min max v w' H | w cs min max v w' H].
  - left. apply get_rand_impl_inv in H. destruct H as (_ & _ & _ & ->). eauto.
  - right; left.
    destruct (invoke_held w cs f Hinv Hf) as (st & i & d & Hst & _ & _ & _ & _ & Hi).
    rewrite Hi in H. injection H as _ <-.
    eexists. split; [|reflexivity]. congruence.
  - right; right; left.
    unfold rand, rand_impl in H. apply bind_returns_inv in H.
    destruct H as ([f w1] & Hg & Hi).
    destruct (invariant_get_rand w w1 cs min max f Hinv Hg) as [Hinv1 _].
    apply get_rand_impl_inv in Hg. destruct Hg as (_ & _ & -> & ->).
    destruct (invoke_held _ _ _ Hinv1 (or_introl eq_refl))
      as (st & i & d & _ & _ & _ & _ & _ & Hi').
    rewrite Hi' in Hi. injection Hi as _ <-. eauto.
  - right; right; right.
    destruct Hinv as [_ _ _ H4].
    destruct (rand_impl_tpl_inv min max w _ _ H4 H) as (_ & _ & ->). eauto.
Qed.

Lemma fn_seed_after_get_rand (min max : T) (w : world E T) :
  fn_seed (after_get_rand min max w) =
  Some (match fn_seed w with Some s => s | None => next_seed w end) /\
  rand_impl_statics (after_get_rand min max w) = rand_impl_statics w.
Proof.
  unfold fn_seed, after_get_rand, get_rand_impl_init, next_seed.
  now destruct (get_rand_impl_statics w).
Qed.

Lemma fn_seed_after_invoke (d : distribution T) (w : world E T) :
  fn_seed (after_invoke d w) = fn_seed w /\
  rand_impl_statics (after_invoke d w) = rand_impl_statics w.
Proof.
  unfold fn_seed, after_invoke.
  destruct (get_rand_impl_statics w) eqn:Hst; simpl; auto.
  now rewrite Hst.
Qed.

Lemma tpl_seed_after_rand_tpl (min max : Z) (w : world E T) (key : Z * Z) :
  tpl_seed key (after_rand_tpl min max w) =
  if same_arguments (min, max) key
  then Some (match tpl_seed key w with Some s => s | None => next_seed w end)
  else tpl_seed key w.
Proof.
  unfold tpl_seed, after_rand_tpl. simpl.
  destruct (same_arguments (min, max) key) eqn:Hk.
  - apply same_arguments_eq in Hk. subst key.
    rewrite instantiation_set_same. unfold tpl_statics_after, next_seed.
    now destruct (instantiation (min, max) (rand_impl_statics w)).
  - rewrite instantiation_set_other; trivial.
    intros ->. now rewrite (proj2 (same_arguments_eq _ _) eq_refl) in Hk.
Qed.

Lemma seeds_step (w w' : world E T) (cs cs' : list (sampler T)) :
  invariant w cs -> step w cs w' cs' ->
  seed_kept (fn_seed w) (fn_seed w') (next_seed w) /\
  (forall key, seed_kept (tpl_seed key w) (tpl_seed key w') (next_seed w)) /\
  (rand_impl_statics w' = rand_impl_statics w \/
   get_rand_impl_statics w' = get_rand_impl_statics w /\
   exists key, forall key', key' <> key ->
     instantiation key' (rand_impl_statics w') =
     instantiation key' (rand_impl_statics w)).
Proof.
  intros Hinv Hstep.
  assert (Hsame : forall key (u u' : world E T),
             rand_impl_statics u' = rand_impl_statics u ->
             seed_kept (tpl_seed key u) (tpl_seed key u') (next_seed u)).
  { intros key u u' Hu. unfold tpl_seed, seed_kept. rewrite Hu.
    destruct (instantiation key (rand_impl_statics u)); simpl; auto. }
  destruct (step_effect w w' cs cs' Hinv Hstep)
    as [(min & max & ->) | [(d & Hne & ->) | [(min & max & d & ->) | (min & max & ->)]]].
  - destruct (fn_seed_after_get_rand min max w) as [Hs Hr].
    split; [|split; [|now left]].
    + rewrite Hs. unfold seed_kept. destruct (fn_seed w); auto.
    + intros key. now apply Hsame.
  - destruct (fn_seed_after_invoke d w) as [Hs Hr].
    split; [|split; [|now left]].
    + rewrite Hs. unfold seed_kept. destruct (fn_seed w); auto.
    + intros key. now apply Hsame.
  - destruct (fn_seed_after_get_rand min max w) as [Hs Hr].
    destruct (fn_seed_after_invoke d (after_get_rand min max w)) as [Hs' Hr'].
    split; [|split; [|left; congruence]].
    + rewrite Hs', Hs. unfold seed_kept. destruct (fn_seed w); auto.
    + intros key. apply Hsame. congruence.
  - split; [|split].
    + unfold fn_seed, after_rand_tpl, seed_kept. simpl.
      destruct (get_rand_impl_statics w); simpl; auto.
    + intros key. rewrite tpl_seed_after_rand_tpl. unfold seed_kept.
      destruct (same_arguments (min, max) key), (tpl_seed key w); auto.
    + right. split; [reflexivity|]. exists (min, max). intros key' Hk.
      unfold after_rand_tpl. simpl. now apply instantiation_set_other.
Qed.

Lemma fn_engine_after_get_rand (min max : T) (w : world E T) :
  fn_engine (after_get_rand min max w) =
  Some (match fn_engine w with
        | Some e => e
        | None => mt19937_64 (next_seed w)
        end).
Proof.
  unfold fn_engine, after_get_rand, get_rand_impl_init, next_seed.
  now destruct (get_rand_impl_statics w).
Qed.

Lemma fn_engine_after_invoke (d : distribution T) (w : world E T) (e : E) :
  fn_engine w = Some e ->
  fn_engine (after_invoke d w) = Some (snd (draw (dist_a d) (dist_b d) e)).
Proof.
  unfold fn_engine, after_invoke.
  destruct (get_rand_impl_statics w) as [st|]; simpl; [|discriminate].
  now intros [= <-].
Qed.

(** A closure draws with the engine of [get_rand_impl<T>] and leaves it
    advanced; the statics of the template form are not touched. *)
Lemma invoke_uses_fn_engine (w : world E T) (cs : list (sampler T))
    (f : sampler T) :
  invariant w cs -> In f cs ->
  exists e d w',
    fn_engine w = Some e /\
    invoke f w = Returns (fst (draw (dist_a d) (dist_b d) e), w') /\
    fn_engine w' = Some (snd (draw (dist_a d) (dist_b d) e)) /\
    rand_impl_statics w' = rand_impl_statics w.
Proof.
  intros Hinv Hf.
  destruct (invoke_held w cs f Hinv Hf) as (st & i & d & Hst & _ & _ & _ & _ & Hi).
  assert (He : fn_engine w = Some (engine st)) by (unfold fn_engine; now rewrite Hst).
  exists (engine st), (mk_distribution (fst d) (snd d)). eexists.
  split; [exact He|]. split; [exact Hi|]. split.
  - now apply fn_engine_after_invoke.
  - apply fn_seed_after_invoke.
Qed.

Lemma rand_uses_fn_engine (w w' : world E T) (cs : list (sampler T))
    (min max : T) (v : T) :
  invariant w cs ->
  rand min max w = Returns (v, w') ->
  exists d,
    let e := match fn_engine w with
             | Some e => e
             | None => mt19937_64 (next_seed w)
             end in
    v = fst (draw (dist_a d) (dist_b d) e) /\
    fn_engine w' = Some (snd (draw (dist_a d) (dist_b d) e)) /\
    rand_impl_statics w' = rand_impl_statics w.
Proof.
  intros Hinv H. unfold rand, rand_impl in H. apply bind_returns_inv in H.
  destruct H as ([f w1] & Hg & Hi).
  destruct (invariant_get_rand w w1 cs min max f Hinv Hg) as [Hinv1 _].
  apply get_rand_impl_inv in Hg. destruct Hg as (_ & _ & -> & ->).
  destruct (invoke_uses_fn_engine _ _ _ Hinv1 (or_introl eq_refl))
    as (e & d & w2 & He & Hi' & He' & Hr).
  rewrite Hi' in Hi. injection Hi as <- <-.
  rewrite fn_engine_after_get_rand in He. injection He as <-.
  exists d. cbv zeta. split; [reflexivity|]. split; [exact He'|].
  rewrite Hr. apply fn_seed_after_get_rand.
Qed.

Lemma rand_tpl_uses_own_engine (w w' : world E T) (cs : list (sampler T))
    (min max : Z) (v : T) :
  invariant w cs ->
  rand_tpl min max w = Returns (v, w') ->
  exists d,
    let e := match instantiation (min, max) (rand_impl_statics w) with
             | Some st => tpl_engine st
             | None => mt19937_64 (next_seed w)
             end in
    v = fst (draw (dist_a d) (dist_b d) e) /\
    option_map tpl_engine (instantiation (min, max) (rand_impl_statics w')) =
      Some (snd (draw (dist_a d) (dist_b d) e)) /\
    get_rand_impl_statics w' = get_rand_impl_statics w.
Proof.
  intros [_ _ _ H4] H.
  destruct (rand_impl_tpl_inv min max w _ _ H4 H) as (_ & -> & ->).
  unfold tpl_value, after_rand_tpl. simpl.
  rewrite instantiation_set_same. unfold tpl_statics_after, next_seed.
  destruct (instantiation (min, max) (rand_impl_statics w)) as [st|]; simpl.
  - exists (tpl_generator st). auto.
  - exists (mk_distribution (of_value_type min) (of_value_type max)). auto.
Qed.

End Engines.

(** C3, as the code has it.  The engine is a function-local static: there is
    one per instantiation, one for [get_rand_impl<T>] and one for each
    [rand_impl<T, min, max>].  In every reachable state: a closure, and a
    one-shot draw of the function-parameter form, draw with the engine of
    [get_rand_impl<T>] and advance it, and leave the statics of the
    template-parameter form as they are; a draw of the template-parameter
    form uses the engine of its own instantiation and leaves the statics of
    [get_rand_impl<T>] as they are; over any call a seed that was taken is
    kept, and a seed that appears is the clock reading of that call; a call
    changes the statics of one instantiation only; a closure holds its key
    and nothing else. *)
Theorem engine_per_instantiation
    (E T : Type) (AT : Arith T) (SR : StdRandom E T)
    (AL : ArithLaws T) (SL : StdRandomLaws E T)
    (w : world E T) (cs : list (sampler T)) :
  reachable w cs ->
  (forall f, In f cs ->
     exists e d w',
       fn_engine w = Some e /\
       invoke f w = Returns (fst (draw (dist_a d) (dist_b d) e), w') /\
       fn_engine w' = Some (snd (draw (dist_a d) (dist_b d) e)) /\
       rand_impl_statics w' = rand_impl_statics w) /\
  (forall min max v w',
     rand min max w = Returns (v, w') ->
     exists d,
       let e := match fn_engine w with
                | Some e => e
                | None => mt19937_64 (next_seed w)
                end in
       v = fst (draw (dist_a d) (dist_b d) e) /\
       fn_engine w' = Some (snd (draw (dist_a d) (dist_b d) e)) /\
       rand_impl_statics w' = rand_impl_statics w) /\
  (forall min max v w',
     rand_tpl min max w = Returns (v, w') ->
     exists d,
       let e := match instantiation (min, max) (rand_impl_statics w) with
                | Some st => tpl_engine st
                | None => mt19937_64 (next_seed w)
                end in
       v = fst (draw (dist_a d) (dist_b d) e) /\
       option_map tpl_engine (instantiation (min, max) (rand_impl_statics w')) =
         Some (snd (draw (dist_a d) (dist_b d) e)) /\
       get_rand_impl_statics w' = get_rand_impl_statics w) /\
  (forall w' cs',
     step w cs w' cs' ->
     seed_kept (fn_seed w) (fn_seed w') (next_seed w) /\
     (forall key, seed_kept (tpl_seed key w) (tpl_seed key w') (next_seed w)) /\
     (rand_impl_statics w' = rand_impl_statics w \/
      get_rand_impl_statics w' = get_rand_impl_statics w /\
      exists key, forall key', key' <> key ->
        instantiation key' (rand_impl_statics w') =
        instantiation key' (rand_impl_statics w))) /\
  (forall f : sampler T, f = mk_sampler (captured_key f)).
Proof.
  intros Hr. pose proof (reachable_invariant w cs Hr) as Hinv.
  split; [|split; [|split; [|split]]].
  - intros f Hf. exact (invoke_uses_fn_engine w cs f Hinv Hf).
  - intros min max v w' H. exact (rand_uses_fn_engine w w' cs min max v Hinv H).
  - intros min max v w' H.
    exact (rand_tpl_uses_own_engine w w' cs min max v Hinv H).
  - intros w' cs' Hstep. exact (seeds_step w w' cs cs' Hinv Hstep).
  - now intros [key].
Qed.

(** The theorem in the state that [get_rand(1, 12)] leaves, at [T = int]. *)
Lemma engine_per_instantiation_witness :
  let w0 := initial Z (integer Int) 0 in
  let f := mk_sampler (T := integer Int) (1, 12) in
  let w := after_get_rand (T := integer Int) 1 12 w0 in
  reachable w [f] /\
  exists e d w',
    fn_engine w = Some e /\
    invoke f w = Returns (fst (draw (dist_a d) (dist_b d) e), w') /\
    fn_engine w' = Some (snd (draw (dist_a d) (dist_b d) e)) /\
    rand_impl_statics w' = rand_impl_statics w.
Proof.
  intros w0 f w.
  assert (Hr : reachable w [f]).
  { apply reachable_step with (w := w0) (cs := []); [apply reachable_initial|].
    apply step_get_rand with (min := 1) (max := 12). reflexivity. }
  split; [exact Hr|].
  exact (proj1 (engine_per_instantiation Z (integer Int) _ _ _ _ w [f] Hr)
           f (or_introl eq_refl)).
Defined.

(** C3 fails: after [rand(1, 6)] and [rand<int, 1, 6>()] the process holds
    two engines, seeded from two readings of the clock, and the draw of the
    template-parameter form has not advanced the engine that the
    function-parameter form uses. *)
Lemma two_engines_in_one_process :
  exists v1 w1 v2 w2,
    rand (T := integer Int) 1 6 (initial Z (integer Int) 0) = Returns (v1, w1) /\
    rand_tpl (T := integer Int) 1 6 w1 = Returns (v2, w2) /\
    reachable w2 [] /\
    length (engines w2) = 2%nat /\
    fn_engine w2 = fn_engine w1 /\
    fn_seed w2 = Some (LCG.clock 0 mod 2 ^ 32) /\
    tpl_seed (1, 6) w2 = Some (LCG.clock 1 mod 2 ^ 32) /\
    fn_seed w2 <> tpl_seed (1, 6) w2.
Proof.
  do 4 eexists.
  split; [vm_compute; reflexivity|].
  split; [vm_compute; reflexivity|].
  split.
  { eapply reachable_step.
    - eapply reachable_step; [apply (reachable_initial 0)|].
      eapply step_rand with (min := 1) (max := 6). vm_compute. reflexivity.
    - eapply step_rand_tpl with (min := 1) (max := 6). vm_compute. reflexivity. }
  vm_compute. repeat split; congruence.
Qed.

(** * The cache of distributions *)

Section Cache.
Context {E T : Type} {AT : Arith T} {SR : StdRandom E T}.
Context {AL : ArithLaws T} {SL : StdRandomLaws E T}.

Lemma cache_with_engine (e : E) (w : world E T) :
  cache (with_engine e w) = cache w.
Proof.
  unfold cache, with_engine. simpl.
  now destruct (get_rand_impl_statics w).
Qed.

Lemma pair_eq_requires (p q : T * T) :
  pair_eq p q = true ->
  dist_requires (fst p) (snd p) = dist_requires (fst q) (snd q).
Proof.
  unfold pair_eq. intros H. apply andb_prop in H. destruct H as [H1 H2].
  now apply dist_requires_eq.
Qed.

(** The node a held closure resolves to, and what it holds. *)
Lemma held_node (w : world E T) (cs : list (sampler T)) (f : sampler T) :
  invariant w cs -> In f cs ->
  exists i k,
    node_of f w = Some i /\
    nth_error (cache w) i = Some (k, mk_distribution (fst k) (snd k)) /\
    distribution_of f w = Some (mk_distribution (fst k) (snd k)) /\
    pair_eq k (captured_key f) = true.
Proof.
  intros Hinv Hf.
  destruct (invoke_held w cs f Hinv Hf) as (st & i & k & _ & Hn & Hnth & Hk & _).
  exists i, k. split; [exact Hn|]. split; [exact Hnth|]. split; [|exact Hk].
  unfold distribution_of. rewrite Hn, nth_error_map, Hnth. reflexivity.
Qed.

(** The node of a held closure and its entry stay over any run. *)
Lemma held_node_steps (w w' : world E T) (cs cs' : list (sampler T))
    (f : sampler T) (i : nat) (entry : (T * T) * distribution T) :
  invariant w cs -> In f cs ->
  steps w cs w' cs' ->
  node_of f w = Some i ->
  nth_error (cache w) i = Some entry ->
  invariant w' cs' /\ In f cs' /\
  node_of f w' = Some i /\ nth_error (cache w') i = Some entry.
Proof.
  intros Hinv Hf Hsteps Hn Hnth.
  destruct (invariant_steps w w' cs cs' Hinv Hsteps) as (Hinv' & [l Hl] & Hin).
  assert (Hne : node_of f w <> None) by congruence.
  destruct (node_extends f w w' l Hl Hne) as [Hn' _].
  split; [exact Hinv'|]. split; [now apply Hin|]. split; [congruence|].
  rewrite Hl, nth_error_app1; trivial.
  apply nth_error_Some. congruence.
Qed.

(** A call of a held closure is the draw from the distribution of its node,
    on the engine of [get_rand_impl<T>]. *)
Lemma invoke_node (w : world E T) (cs : list (sampler T)) (f : sampler T)
    (i : nat) (k : T * T) (d : distribution T) :
  invariant w cs -> In f cs ->
  node_of f w = Some i ->
  nth_error (cache w) i = Some (k, d) ->
  d = mk_distribution (fst k) (snd k) /\
  pair_eq k (captured_key f) = true /\
  exists e,
    fn_engine w = Some e /\
    invoke f w =
      Returns (fst (draw (dist_a d) (dist_b d) e), after_invoke d w).
Proof.
  intros Hinv Hf Hn Hnth.
  destruct (invoke_held w cs f Hinv Hf)
    as (st & i' & k' & Hst & Hn' & Hnth' & Hk & _ & Hi).
  rewrite Hn in Hn'. injection Hn' as <-.
  rewrite Hnth in Hnth'. injection Hnth' as <- ->.
  split; [reflexivity|]. split; [exact Hk|].
  exists (engine st). split; [|exact Hi].
  unfold fn_engine. now rewrite Hst.
Qed.

(** The engine put into another state: the cache and the closures are as
    they were. *)
Lemma invariant_with_engine (e : E) (w : world E T) (cs : list (sampler T)) :
  invariant w cs -> invariant (with_engine e w) cs.
Proof.
  intros [H1 H2 H3 H4]. split.
  - now rewrite cache_with_engine.
  - now rewrite cache_with_engine.
  - intros f Hf. destruct (H3 f Hf) as (Hs & Hn & Hh).
    split; [|split; [|exact Hh]].
    + unfold with_engine. simpl.
      destruct (get_rand_impl_statics w); [discriminate|contradiction].
    + unfold node_of in *. now rewrite cache_with_engine.
  - exact H4.
Qed.

Lemma fn_engine_with_engine (e e' : E) (w : world E T) :
  fn_engine w = Some e' -> fn_engine (with_engine e w) = Some e.
Proof.
  unfold fn_engine, with_engine. simpl.
  now destruct (get_rand_impl_statics w).
Qed.

End Cache.

(** C4.  Let [get_rand(min, max)] return the closure [f1], let the program
    go on with any calls, and let [get_rand] then be called with bounds that
    compare equal to [(min, max)].  That call returns and leaves the cache as
    it was; its closure [f2] resolves to the node that [f1] resolves to, the
    one [f1] resolved to from the start, and no other node of the cache has a
    key equal to [(min, max)].  The node holds the distribution [d] built
    from its key.  A call of [f1] right after the first [get_rand] is the
    draw from [d]; after the second [get_rand] and any further calls, a call
    of [f1] and a call of [f2] are both the draw from [d] on the engine of
    [get_rand_impl<T>], and leave the cache as it is. *)
Theorem cached_distribution_reused
    (E T : Type) (AT : Arith T) (SR : StdRandom E T)
    (AL : ArithLaws T) (SL : StdRandomLaws E T)
    (w w1 w' : world E T) (cs cs' : list (sampler T))
    (min max min' max' : T) (f1 : sampler T) :
  reachable w cs ->
  get_rand min max w = Returns (f1, w1) ->
  steps w1 (f1 :: cs) w' cs' ->
  pair_eq (min, max) (min', max') = true ->
  exists f2 w2 i k d,
    get_rand min' max' w' = Returns (f2, w2) /\
    cache w2 = cache w' /\
    node_of f1 w1 = Some i /\ node_of f1 w2 = Some i /\ node_of f2 w2 = Some i /\
    nth_error (cache w1) i = Some (k, d) /\
    nth_error (cache w2) i = Some (k, d) /\
    (forall j k' d', nth_error (cache w2) j = Some (k', d') ->
                     pair_eq k' (min, max) = true -> j = i) /\
    d = mk_distribution (fst k) (snd k) /\
    pair_eq k (min, max) = true /\
    (exists e1,
       fn_engine w1 = Some e1 /\
       invoke f1 w1 =
         Returns (fst (draw (dist_a d) (dist_b d) e1), after_invoke d w1)) /\
    (forall w3 cs3,
       steps w2 (f2 :: cs') w3 cs3 ->
       exists e3,
         fn_engine w3 = Some e3 /\
         invoke f1 w3 =
           Returns (fst (draw (dist_a d) (dist_b d) e3), after_invoke d w3) /\
         invoke f2 w3 =
           Returns (fst (draw (dist_a d) (dist_b d) e3), after_invoke d w3)).
Proof.
  intros Hr H1 Hsteps Heq.
  pose proof (reachable_invariant w cs Hr) as Hinv.
  destruct (invariant_get_rand w w1 cs min max f1 Hinv H1) as [Hinv1 _].
  apply get_rand_impl_inv in H1. destruct H1 as (Hd & Hh & Hf1 & Hw1).
  assert (Hkey : captured_key f1 = (min, max)) by now subst f1.
  destruct (held_node w1 (f1 :: cs) f1 Hinv1 (or_introl eq_refl))
    as (i & k & Hn1 & Hnth1 & _ & Hk).
  rewrite Hkey in Hk.
  set (d := mk_distribution (fst k) (snd k)) in *.
  destruct (held_node_steps w1 w' (f1 :: cs) cs' f1 i (k, d)
              Hinv1 (or_introl eq_refl) Hsteps Hn1 Hnth1)
    as (Hinv' & Hin' & Hn' & Hnth').
  assert (Hfind : find (min', max') (cache w') = Some i).
  { rewrite <- (find_congr (min, max) (min', max') (cache w') Heq).
    unfold node_of in Hn'. now rewrite Hkey in Hn'. }
  assert (Hd' : dist_requires min' max' = true).
  { rewrite <- Hd. symmetry. exact (pair_eq_requires (min, max) (min', max') Heq). }
  assert (Hh' : returns (hash_pair (min', max')) = true).
  { now rewrite <- (hash_pair_eq (min, max) (min', max') Heq). }
  pose proof (get_rand_impl_returns min' max' w' Hd' Hh') as H2.
  set (f2 := mk_sampler (min', max')) in *.
  set (w2 := after_get_rand min' max' w') in *.
  assert (Hc : cache w2 = cache w').
  { unfold w2. rewrite cache_after_get_rand. unfold emplaced. now rewrite Hfind. }
  destruct (invariant_get_rand w' w2 cs' min' max' f2 Hinv' H2) as [Hinv2 _].
  assert (Hn12 : node_of f1 w2 = Some i)
    by (unfold node_of in *; now rewrite Hc).
  assert (Hn22 : node_of f2 w2 = Some i)
    by (unfold node_of; now rewrite Hc).
  assert (Hnth2 : nth_error (cache w2) i = Some (k, d)) by now rewrite Hc.
  exists f2, w2, i, k, d.
  split; [exact H2|]. split; [exact Hc|]. split; [exact Hn1|].
  split; [exact Hn12|]. split; [exact Hn22|]. split; [exact Hnth1|].
  split; [exact Hnth2|]. split.
  { intros j k' d' Hj Hk'. rewrite Hc in Hj.
    apply (distinct_keys_unique (min, max) (cache w') i j k' d'); trivial.
    - now destruct Hinv'.
    - unfold node_of in Hn'. now rewrite Hkey in Hn'. }
  split; [reflexivity|]. split; [exact Hk|]. split.
  - destruct (invoke_node w1 (f1 :: cs) f1 i k d Hinv1 (or_introl eq_refl)
                Hn1 Hnth1) as (_ & _ & e1 & He1 & Hi1).
    now exists e1.
  - intros w3 cs3 Hsteps3.
    destruct (held_node_steps w2 w3 (f2 :: cs') cs3 f1 i (k, d)
                Hinv2 (or_intror Hin') Hsteps3 Hn12 Hnth2)
      as (Hinv3 & Hin3 & Hn3 & Hnth3).
    destruct (held_node_steps w2 w3 (f2 :: cs') cs3 f2 i (k, d)
                Hinv2 (or_introl eq_refl) Hsteps3 Hn22 Hnth2)
      as (_ & Hin3' & Hn3' & _).
    destruct (invoke_node w3 cs3 f1 i k d Hinv3 Hin3 Hn3 Hnth3)
      as (_ & _ & e3 & He3 & Hi3).
    destruct (invoke_node w3 cs3 f2 i k d Hinv3 Hin3' Hn3' Hnth3)
      as (_ & _ & e3' & He3' & Hi3').
    exists e3. split; [exact He3|]. split; [exact Hi3|].
    rewrite He3 in He3'. injection He3' as <-. exact Hi3'.
Qed.

(** The theorem on [get_rand(1, 12)], one call of the closure, and
    [get_rand(1, 12)] again, at [T = int]. *)
Lemma cached_distribution_reused_witness :
  let w0 := initial Z (integer Int) 0 in
  let f1 := mk_sampler (T := integer Int) (1, 12) in
  let w1 := after_get_rand (T := integer Int) 1 12 w0 in
  let w' := after_invoke (T := integer Int) (mk_distribution 1 12) w1 in
  exists f2 w2 i k d,
    get_rand (T := integer Int) 1 12 w' = Returns (f2, w2) /\
    cache w2 = cache w' /\
    node_of f1 w1 = Some i /\ node_of f1 w2 = Some i /\ node_of f2 w2 = Some i /\
    nth_error (cache w1) i = Some (k, d) /\
    nth_error (cache w2) i = Some (k, d) /\
    (forall j k' d', nth_error (cache w2) j = Some (k', d') ->
                     pair_eq k' (1, 12) = true -> j = i) /\
    d = mk_distribution (fst k) (snd k) /\
    pair_eq k (1, 12) = true /\
    (exists e1,
       fn_engine w1 = Some e1 /\
       invoke f1 w1 =
         Returns (fst (draw (dist_a d) (dist_b d) e1), after_invoke d w1)) /\
    (forall w3 cs3,
       steps w2 [f2; f1] w3 cs3 ->
       exists e3,
         fn_engine w3 = Some e3 /\
         invoke f1 w3 =
           Returns (fst (draw (dist_a d) (dist_b d) e3), after_invoke d w3) /\
         invoke f2 w3 =
           Returns (fst (draw (dist_a d) (dist_b d) e3), after_invoke d w3)).
Proof.
  intros w0 f1 w1 w'.
  apply (cached_distribution_reused Z (integer Int) _ _ _ _ w0 w1 w' [] [f1]
           1 12 1 12 f1).
  - apply reachable_initial.
  - reflexivity.
  - apply steps_snoc with (w1 := w1) (cs1 := [f1]); [apply steps_refl|].
    apply step_invoke with (f := f1) (v := 4); [now left|].
    vm_compute. reflexivity.
  - reflexivity.
Defined.

(** C7.  A closure that the program holds resolves, in the state it is held
    in and after any further calls (closures invoked, this one included,
    [get_rand] called with the same or other bounds, one-shot draws of either
    form), to the same node with the same distribution [d], whose parameters
    compare equal to the bounds the closure was made with.  A call of the
    closure, before and after those calls, is the draw from [d] on the engine
    of [get_rand_impl<T>]; and whatever state [e] a new seed puts that engine
    in, the call is the draw from [d] on [e]. *)
Theorem sampler_parameters_fixed
    (E T : Type) (AT : Arith T) (SR : StdRandom E T)
    (AL : ArithLaws T) (SL : StdRandomLaws E T)
    (w w' : world E T) (cs cs' : list (sampler T)) (f : sampler T) :
  reachable w cs ->
  In f cs ->
  steps w cs w' cs' ->
  exists i d,
    node_of f w = Some i /\ node_of f w' = Some i /\
    distribution_of f w = Some d /\ distribution_of f w' = Some d /\
    pair_eq (dist_a d, dist_b d) (captured_key f) = true /\
    (exists e0,
       fn_engine w = Some e0 /\
       invoke f w =
         Returns (fst (draw (dist_a d) (dist_b d) e0), after_invoke d w)) /\
    (exists e',
       fn_engine w' = Some e' /\
       invoke f w' =
         Returns (fst (draw (dist_a d) (dist_b d) e'), after_invoke d w')) /\
    (forall e,
       distribution_of f (with_engine e w') = Some d /\
       invoke f (with_engine e w') =
         Returns (fst (draw (dist_a d) (dist_b d) e),
                  after_invoke d (with_engine e w'))).
Proof.
  intros Hr Hf Hsteps.
  pose proof (reachable_invariant w cs Hr) as Hinv.
  destruct (held_node w cs f Hinv Hf) as (i & k & Hn & Hnth & Hd & Hk).
  set (d := mk_distribution (fst k) (snd k)) in *.
  destruct (held_node_steps w w' cs cs' f i (k, d) Hinv Hf Hsteps Hn Hnth)
    as (Hinv' & Hf' & Hn' & Hnth').
  assert (Hd' : distribution_of f w' = Some d).
  { unfold distribution_of. now rewrite Hn', nth_error_map, Hnth'. }
  exists i, d.
  split; [exact Hn|]. split; [exact Hn'|]. split; [exact Hd|].
  split; [exact Hd'|]. split; [simpl; now destruct k|]. split; [|split].
  - destruct (invoke_node w cs f i k d Hinv Hf Hn Hnth) as (_ & _ & e0 & H0 & Hi).
    now exists e0.
  - destruct (invoke_node w' cs' f i k d Hinv' Hf' Hn' Hnth')
      as (_ & _ & e' & H0 & Hi).
    now exists e'.
  - intros e.
    assert (Hne : node_of f (with_engine e w') = Some i)
      by (unfold node_of in *; now rewrite cache_with_engine).
    assert (Hnthe : nth_error (cache (with_engine e w')) i = Some (k, d))
      by now rewrite cache_with_engine.
    split.
    + unfold distribution_of. now rewrite Hne, nth_error_map, Hnthe.
    + destruct (invoke_node (with_engine e w') cs' f i k d
                  (invariant_with_engine e w' cs' Hinv') Hf' Hne Hnthe)
        as (_ & _ & e1 & H1 & Hi).
      destruct (invoke_node w' cs' f i k d Hinv' Hf' Hn' Hnth')
        as (_ & _ & e' & H0 & _).
      rewrite (fn_engine_with_engine e e' w' H0) in H1.
      injection H1 as <-. exact Hi.
Qed.

(** The theorem on the closure of [get_rand(1, 12)], over a call of it, a
    [get_rand(3, 4)] and a [rand<int, 1, 6>()]. *)
Lemma sampler_parameters_fixed_witness :
  let w0 := initial Z (integer Int) 0 in
  let f := mk_sampler (T := integer Int) (1, 12) in
  let g := mk_sampler (T := integer Int) (3, 4) in
  let w := after_get_rand (T := integer Int) 1 12 w0 in
  let w1 := after_invoke (T := integer Int) (mk_distribution 1 12) w in
  let w2 := after_get_rand (T := integer Int) 3 4 w1 in
  let w' := after_rand_tpl (T := integer Int) 1 6 w2 in
  exists i d,
    node_of f w = Some i /\ node_of f w' = Some i /\
    distribution_of f w = Some d /\ distribution_of f w' = Some d /\
    pair_eq (dist_a d, dist_b d) (captured_key f) = true /\
    (exists e0,
       fn_engine w = Some e0 /\
       invoke f w =
         Returns (fst (draw (dist_a d) (dist_b d) e0), after_invoke d w)) /\
    (exists e',
       fn_engine w' = Some e' /\
       invoke f w' =
         Returns (fst (draw (dist_a d) (dist_b d) e'), after_invoke d w')) /\
    (forall e,
       distribution_of f (with_engine e w') = Some d /\
       invoke f (with_engine e w') =
         Returns (fst (draw (dist_a d) (dist_b d) e),
                  after_invoke d (with_engine e w'))).
Proof.
  intros w0 f g w w1 w2 w'.
  apply (sampler_parameters_fixed Z (integer Int) _ _ _ _ w w' [f] [g; f] f).
  - apply reachable_step with (w := w0) (cs := []); [apply reachable_initial|].
    apply step_get_rand with (min := 1) (max := 12). reflexivity.
  - now left.
  - apply steps_snoc with (w1 := w2) (cs1 := [g; f]).
    + apply steps_snoc with (w1 := w1) (cs1 := [f]).
      * apply steps_snoc with (w1 := w) (cs1 := [f]); [apply steps_refl|].
        apply step_invoke with (f := f) (v := 4); [now left|].
        vm_compute. reflexivity.
      * apply step_get_rand with (min := 3) (max := 4). reflexivity.
    + apply step_rand_tpl with (min := 1) (max := 6) (v := 4).
      vm_compute. reflexivity.
Defined.

(** C9.  [rand(min, max)] is [get_rand(min, max)] followed by one call of
    the closure it returns: undefined when [get_rand] is, and otherwise the
    closure's call returns, its result is the result of [rand], and the
    cache is left as [emplace] of the key [(min, max)] left it, with a node
    for that key. *)
Theorem rand_is_get_rand_then_invoke
    (E T : Type) (AT : Arith T) (SR : StdRandom E T)
    (AL : ArithLaws T) (SL : StdRandomLaws E T)
    (w : world E T) (cs : list (sampler T)) (min max : T) :
  reachable w cs ->
  rand min max w = ('(f, w1) <- get_rand min max w ;; invoke f w1) /\
  (get_rand min max w = Undefined -> rand min max w = Undefined) /\
  (forall f w1,
     get_rand min max w = Returns (f, w1) ->
     exists v w',
       invoke f w1 = Returns (v, w') /\
       rand min max w = Returns (v, w') /\
       cache w' = emplaced (cache w) (min, max) (mk_distribution min max) /\
       find (min, max) (cache w') <> None).
Proof.
  intros Hr. pose proof (reachable_invariant w cs Hr) as Hinv.
  split; [reflexivity|]. split.
  - intros H. unfold rand, rand_impl. unfold get_rand in H. now rewrite H.
  - intros f w1 Hg.
    destruct (invariant_get_rand w w1 cs min max f Hinv Hg) as [Hinv1 _].
    destruct (invoke_in_range w1 (f :: cs) f Hinv1 (or_introl eq_refl))
      as (v & w' & Hi & _ & _ & Hc).
    exists v, w'. split; [exact Hi|]. split.
    + unfold rand, rand_impl. unfold get_rand in Hg. now rewrite Hg.
    + apply get_rand_impl_inv in Hg. destruct Hg as (_ & Hh & -> & ->).
      rewrite Hc, cache_after_get_rand. split; [reflexivity|].
      apply emplaced_find. now apply hash_pair_self.
Qed.

(** The theorem on [rand(1, 6)] in a fresh process, at [T = int]. *)
Lemma rand_is_get_rand_then_invoke_witness :
  let w := initial Z (integer Int) 0 in
  exists v w',
    rand (T := integer Int) 1 6 w = Returns (v, w') /\
    cache w' = [((1, 6), mk_distribution 1 6)].
Proof.
  intros w.
  assert (Hg : get_rand (T := integer Int) 1 6 w =
               Returns (mk_sampler (1, 6), after_get_rand (T := integer Int) 1 6 w))
    by reflexivity.
  destruct (proj2 (proj2 (rand_is_get_rand_then_invoke Z (integer Int) _ _ _ _
                            w [] 1 6 (reachable_initial 0))) _ _ Hg)
    as (v & w' & _ & H & Hc & _).
  exists v, w'. split; [exact H|exact Hc].
Defined.

(** * The template-parameter form and the default bounds *)

Lemma rand_tpl_in_range {E T : Type} {AT : Arith T} {SR : StdRandom E T}
    {AL : ArithLaws T} {SL : StdRandomLaws E T}
    (w : world E T) (cs : list (sampler T)) (min max : Z) :
  invariant w cs ->
  dist_requires (of_value_type min) (of_value_type max) = true ->
  exists v w',
    rand_tpl min max w = Returns (v, w') /\
    in_range (of_value_type min, of_value_type max) v /\
    invariant w' cs.
Proof.
  intros Hinv Hd. pose proof Hinv as [_ _ _ H4].
  pose proof (rand_impl_tpl_returns min max w H4 Hd) as H.
  exists (tpl_value min max w), (after_rand_tpl min max w).
  split; [exact H|]. split.
  - now apply tpl_value_in_range.
  - now destruct (invariant_rand_tpl w _ cs min max _ Hinv H).
Qed.

(** A call of the template-parameter form is the draw from the distribution
    of the casts of its template arguments, on the engine of its own
    instantiation, whose statics hold that distribution afterwards. *)
Lemma rand_tpl_draw {E T : Type} {AT : Arith T} {SR : StdRandom E T}
    {AL : ArithLaws T} {SL : StdRandomLaws E T}
    (w : world E T) (cs : list (sampler T)) (min max : Z) :
  invariant w cs ->
  dist_requires (of_value_type min) (of_value_type max) = true ->
  let a := of_value_type min in
  let b := of_value_type max in
  let e := tpl_engine_next (min, max) w in
  exists w' st,
    rand_tpl min max w = Returns (fst (draw a b e), w') /\
    instantiation (min, max) (rand_impl_statics w') = Some st /\
    tpl_generator st = mk_distribution a b /\
    tpl_engine st = snd (draw a b e) /\
    get_rand_impl_statics w' = get_rand_impl_statics w /\
    in_range (a, b) (fst (draw a b e)).
Proof.
  intros Hinv Hd a b e. pose proof Hinv as [_ _ _ H4].
  pose proof (rand_impl_tpl_returns min max w H4 Hd) as H.
  assert (Hv : tpl_value min max w = fst (draw a b e) /\
               tpl_generator (tpl_statics_after min max w) = mk_distribution a b /\
               tpl_engine (tpl_statics_after min max w) = snd (draw a b e)).
  { unfold tpl_value, tpl_statics_after, e, tpl_engine_next, next_seed.
    destruct (instantiation (min, max) (rand_impl_statics w)) as [st|] eqn:Hst.
    - destruct (instantiation_found _ _ _ Hst H4) as [Hg _].
      cbn [fst snd] in Hg. rewrite Hg. cbn. auto.
    - cbn. auto. }
  destruct Hv as (Hv & Hg & He).
  exists (after_rand_tpl min max w), (tpl_statics_after min max w).
  split; [unfold rand_tpl; now rewrite H, Hv|].
  split; [unfold after_rand_tpl; cbn; apply instantiation_set_same|].
  split; [exact Hg|]. split; [exact He|]. split; [reflexivity|].
  exact (draw_range a b e Hd).
Qed.

Lemma in_range_integer (k : int_kind) (a b v : integer k) :
  in_range (a, b) v <-> a <= v <= b.
Proof.
  unfold in_range. simpl. rewrite !Z.leb_le. reflexivity.
Qed.

Lemma numeric_limits_ordered (k : int_kind) :
  (numeric_limits_min k <=? numeric_limits_max k) = true.
Proof. now destruct k. Qed.

Lemma default_real_requires (k : float_kind) :
  IEEE.real_requires k
    (IEEE.of_int k (numeric_limits_min LongLong))
    (IEEE.of_int k (numeric_limits_max LongLong)) = true.
Proof. destruct k; vm_compute; reflexivity. Qed.

(** C5.  For an integral [T], [range<T>::min] and [range<T>::max] are
    [numeric_limits<T>::min()] and [max()], for [short] the numbers [-32768]
    and [32767]; [rand<T>()] is the draw from the distribution of these two
    parameters on the engine of its instantiation, whose statics hold that
    distribution afterwards, and no value that [rand<T>()] returns lies
    outside them.  For a floating-point [T] they are the limits of
    [long long], and [rand<T>()] is the draw from the distribution whose
    parameters are their casts to [T]. *)
Theorem default_bounds :
  (forall k : int_kind,
     range_min (T := integer k) = numeric_limits_min k /\
     range_max (T := integer k) = numeric_limits_max k) /\
  (numeric_limits_min Short = -32768 /\ numeric_limits_max Short = 32767) /\
  (forall (k : int_kind) (E : Type) (SR : StdRandom E (integer k))
          (SL : StdRandomLaws E (integer k))
          (w : world E (integer k)) (cs : list (sampler (integer k))),
     reachable w cs ->
     let a : integer k := numeric_limits_min k in
     let b : integer k := numeric_limits_max k in
     let e := tpl_engine_next (numeric_limits_min k, numeric_limits_max k) w in
     (exists w' st,
        rand_default w = Returns (fst (draw a b e), w') /\
        instantiation (numeric_limits_min k, numeric_limits_max k)
          (rand_impl_statics w') = Some st /\
        tpl_generator st = mk_distribution a b /\
        tpl_engine st = snd (draw a b e)) /\
     (forall v w',
        rand_default w = Returns (v, w') ->
        numeric_limits_min k <= v <= numeric_limits_max k)) /\
  (forall k : float_kind,
     range_min (T := floating k) = - 2 ^ 63 /\
     range_max (T := floating k) = 2 ^ 63 - 1) /\
  (forall (k : float_kind) (E : Type) (SR : StdRandom E (floating k))
          (SL : StdRandomLaws E (floating k))
          (w : world E (floating k)) (cs : list (sampler (floating k))),
     reachable w cs ->
     let a := IEEE.of_int k (- 2 ^ 63) in
     let b := IEEE.of_int k (2 ^ 63 - 1) in
     let e := tpl_engine_next (- 2 ^ 63, 2 ^ 63 - 1) w in
     (exists w' st,
        rand_default w = Returns (fst (draw a b e), w') /\
        instantiation (- 2 ^ 63, 2 ^ 63 - 1) (rand_impl_statics w') = Some st /\
        tpl_generator st = mk_distribution a b /\
        tpl_engine st = snd (draw a b e)) /\
     (forall v w',
        rand_default w = Returns (v, w') -> in_range (a, b) v)).
Proof.
  split; [|split; [|split; [|split]]].
  - intros k. split; reflexivity.
  - split; reflexivity.
  - intros k E SR SL w cs Hr a b e.
    destruct (rand_tpl_draw (T := integer k) w cs
                (numeric_limits_min k) (numeric_limits_max k)
                (reachable_invariant w cs Hr) (numeric_limits_ordered k))
      as (w' & st & H & Hi & Hg & He & _ & Hv).
    change (rand_tpl (T := integer k) (numeric_limits_min k)
              (numeric_limits_max k) w)
      with (rand_default (T := integer k) w) in H.
    split.
    + exists w', st. split; [exact H|]. split; [exact Hi|].
      split; [exact Hg|exact He].
    + intros v w'' H'. rewrite H in H'. injection H' as <- _.
      now apply in_range_integer in Hv.
  - intros k. split; reflexivity.
  - intros k E SR SL w cs Hr a b e.
    destruct (rand_tpl_draw (T := floating k) w cs
                (numeric_limits_min LongLong) (numeric_limits_max LongLong)
                (reachable_invariant w cs Hr) (default_real_requires k))
      as (w' & st & H & Hi & Hg & He & _ & Hv).
    change (rand_tpl (T := floating k) (numeric_limits_min LongLong)
              (numeric_limits_max LongLong) w)
      with (rand_default (T := floating k) w) in H.
    split.
    + exists w', st. split; [exact H|]. split; [exact Hi|].
      split; [exact Hg|exact He].
    + intros v w'' H'. rewrite H in H'. injection H' as <- _. exact Hv.
Qed.

(** The theorem on [rand<short>()] in a fresh process. *)
Lemma default_bounds_witness :
  (exists w',
     rand_default (T := integer Short) (initial Z (integer Short) 0) =
       Returns (fst (draw (T := integer Short) (-32768) 32767
                       (mt19937_64 (T := integer Short) (LCG.clock 0 mod 2 ^ 32))),
                w')) /\
  (forall v w',
     rand_default (T := integer Short) (initial Z (integer Short) 0) =
       Returns (v, w') ->
     -32768 <= v <= 32767).
Proof.
  destruct (proj1 (proj2 (proj2 default_bounds)) Short Z _ _
              (initial Z (integer Short) 0) [] (reachable_initial 0))
    as [(w' & st & H & _) Hv].
  split; [exists w'; exact H|exact Hv].
Defined.

(** * One-shot draws and samplers *)

(** The header does not look at its bounds: a range that breaks the
    precondition of the distribution goes to the distribution's constructor
    as it is. *)
Lemma requires_broken_undefined
    {E T : Type} {AT : Arith T} {SR : StdRandom E T}
    (min max : T) (w : world E T) :
  dist_requires min max = false ->
  get_rand min max w = Undefined /\ rand min max w = Undefined.
Proof.
  intros Hd.
  assert (Hg : get_rand min max w = Undefined).
  { unfold get_rand, get_rand_impl.
    destruct (get_rand_impl_init w) as [st reads].
    unfold uniform_distribution, std_uniform_distribution.
    now rewrite Hd. }
  split; [exact Hg|].
  unfold rand, rand_impl. unfold get_rand in Hg. now rewrite Hg.
Qed.

(** A closure that [get_rand] returns draws between its bounds, however
    often it is called and whatever is called in between. *)
Lemma sampler_in_range
    {E T : Type} {AT : Arith T} {SR : StdRandom E T}
    {AL : ArithLaws T} {SL : StdRandomLaws E T}
    (w : world E T) (cs : list (sampler T)) (min max : T) :
  reachable w cs ->
  dist_requires min max = true ->
  returns (hash_pair (min, max)) = true ->
  exists f w1,
    get_rand min max w = Returns (f, w1) /\
    (forall n, exists vs w',
       invoke_n f n w1 = Returns (vs, w') /\
       length vs = n /\
       Forall (in_range (min, max)) vs) /\
    (forall w2 cs2,
       steps w1 (f :: cs) w2 cs2 ->
       exists v w3, invoke f w2 = Returns (v, w3) /\ in_range (min, max) v).
Proof.
  intros Hr Hd Hh.
  pose proof (reachable_invariant w cs Hr) as Hinv.
  pose proof (get_rand_impl_returns min max w Hd Hh) as Hg.
  destruct (invariant_get_rand w _ cs min max _ Hinv Hg) as [Hinv1 _].
  exists (mk_sampler (min, max)), (after_get_rand min max w).
  split; [exact Hg|]. split.
  - intros n.
    destruct (invoke_n_in_range (mk_sampler (min, max)) n _ _ Hinv1
                (or_introl eq_refl)) as (vs & w' & Hn & Hlen & Hall & _).
    exists vs, w'. auto.
  - intros w2 cs2 Hsteps.
    destruct (invariant_steps _ _ _ _ Hinv1 Hsteps) as (Hinv2 & _ & Hin).
    destruct (invoke_in_range w2 cs2 (mk_sampler (min, max)) Hinv2
                (Hin _ (or_introl eq_refl))) as (v & w3 & Hi & Hv & _).
    exists v, w3. auto.
Qed.

Lemma rand_integer_in_range
    (k : int_kind) (E : Type) (SR : StdRandom E (integer k))
    (SL : StdRandomLaws E (integer k))
    (w : world E (integer k)) (cs : list (sampler (integer k)))
    (min max : integer k) :
  reachable w cs ->
  min <= max ->
  exists v w', rand min max w = Returns (v, w') /\ min <= v <= max.
Proof.
  intros Hr Hle.
  destruct (rand_in_range w cs min max (reachable_invariant w cs Hr))
    as (v & w' & H & Hv & _).
  - now apply Z.leb_le.
  - apply hash_pair_integer_returns.
  - exists v, w'. split; [exact H|]. now apply in_range_integer in Hv.
Qed.

(** Two floating-point literals: the largest finite [double] and the largest
    finite [float]. *)
Lemma max_double_finite :
  IEEE.lit Double (2 ^ 53 - 1) 971 = S754_finite false (2 ^ 53 - 1) 971 /\
  IEEE.lit Float (2 ^ 24 - 1) 104 = S754_finite false (2 ^ 24 - 1) 104.
Proof. vm_compute. split; reflexivity. Qed.

(** C1, as the code has it.  For an integral [T] and [min <= max],
    [rand(min, max)] returns, in every state of the process, a value [v]
    with [min <= v <= max].  For a floating-point [T] it does so when the
    bounds meet the precondition of [std::uniform_real_distribution]
    ([min <= max] and [max - min] no larger than the largest finite value of
    [T]) and [hash_pair] returns a hash for the key [(min, max)]. *)
Theorem rand_in_range_where_defined :
  (forall (k : int_kind) (E : Type) (SR : StdRandom E (integer k))
          (SL : StdRandomLaws E (integer k))
          (w : world E (integer k)) (cs : list (sampler (integer k)))
          (min max : integer k),
     reachable w cs ->
     min <= max ->
     exists v w', rand min max w = Returns (v, w') /\ min <= v <= max) /\
  (forall (k : float_kind) (E : Type) (SR : StdRandom E (floating k))
          (SL : StdRandomLaws E (floating k))
          (w : world E (floating k)) (cs : list (sampler (floating k)))
          (min max : floating k),
     reachable w cs ->
     IEEE.real_requires k min max = true ->
     returns (hash_pair (min, max)) = true ->
     exists v w',
       rand min max w = Returns (v, w') /\
       SFleb min v = true /\ SFleb v max = true).
Proof.
  split.
  - exact rand_integer_in_range.
  - intros k E SR SL w cs min max Hr Hd Hh.
    destruct (rand_in_range w cs min max (reachable_invariant w cs Hr) Hd Hh)
      as (v & w' & H & Hv & _).
    exists v, w'. split; [exact H|exact Hv].
Qed.

(** The theorem on [rand(3.14, 42.)] in a fresh process. *)
Lemma rand_in_range_where_defined_witness :
  exists v w',
    rand (T := floating Double)
      (IEEE.lit Double 7070651414971679 (-51)) (IEEE.of_int Double 42)
      (initial Z (floating Double) 0) = Returns (v, w') /\
    SFleb (IEEE.lit Double 7070651414971679 (-51)) v = true /\
    SFleb v (IEEE.of_int Double 42) = true.
Proof.
  apply (proj2 rand_in_range_where_defined Double Z _ _
           (initial Z (floating Double) 0) []).
  - apply reachable_initial.
  - vm_compute. reflexivity.
  - vm_compute. reflexivity.
Defined.

(** C1 fails at [T = double] for the range from the lowest to the largest
    finite value: [min <= max] holds, the difference [max - min] is larger
    than the largest finite [double], so the range breaks the precondition
    of [std::uniform_real_distribution], and [rand(min, max)] has no defined
    result. *)
Lemma rand_wide_range_undefined :
  let min := IEEE.lit Double (- (2 ^ 53 - 1)) 971 in
  let max := IEEE.lit Double (2 ^ 53 - 1) 971 in
  op_le (T := floating Double) min max = true /\
  uniform_distribution (T := floating Double) min max = Undefined /\
  rand (T := floating Double) min max (initial Z (floating Double) 0) =
    Undefined.
Proof. vm_compute. repeat split. Qed.

Lemma sampler_integer_in_range
    (k : int_kind) (E : Type) (SR : StdRandom E (integer k))
    (SL : StdRandomLaws E (integer k))
    (w : world E (integer k)) (cs : list (sampler (integer k)))
    (min max : integer k) :
  reachable w cs ->
  min <= max ->
  exists f w1,
    get_rand min max w = Returns (f, w1) /\
    (forall n, exists vs w',
       invoke_n f n w1 = Returns (vs, w') /\
       length vs = n /\
       Forall (fun v => min <= v <= max) vs) /\
    (forall w2 cs2,
       steps w1 (f :: cs) w2 cs2 ->
       exists v w3, invoke f w2 = Returns (v, w3) /\ min <= v <= max).
Proof.
  intros Hr Hle.
  assert (Hd : dist_requires (T := integer k) min max = true)
    by now apply Z.leb_le.
  destruct (sampler_in_range w cs min max Hr Hd
              (hash_pair_integer_returns k (min, max)))
    as (f & w1 & Hg & Hn & Hs).
  exists f, w1. split; [exact Hg|]. split.
  - intros n. destruct (Hn n) as (vs & w' & H & Hlen & Hall).
    exists vs, w'. split; [exact H|]. split; [exact Hlen|].
    apply Forall_impl with (P := in_range (min, max)); [|exact Hall].
    intros v Hv. now apply in_range_integer in Hv.
  - intros w2 cs2 Hsteps. destruct (Hs w2 cs2 Hsteps) as (v & w3 & H & Hv).
    exists v, w3. split; [exact H|]. now apply in_range_integer in Hv.
Qed.

(** C2, as the code has it.  For an integral [T] and [min <= max],
    [get_rand(min, max)] returns a closure in every state of the process;
    [n] successive calls of the closure return [n] values, each between
    [min] and [max], and so does a call of it in any state the process
    reaches later.  For a floating-point [T] this holds when the bounds meet
    the precondition of [std::uniform_real_distribution] and [hash_pair]
    returns a hash for the key [(min, max)]. *)
Theorem sampler_in_range_where_defined :
  (forall (k : int_kind) (E : Type) (SR : StdRandom E (integer k))
          (SL : StdRandomLaws E (integer k))
          (w : world E (integer k)) (cs : list (sampler (integer k)))
          (min max : integer k),
     reachable w cs ->
     min <= max ->
     exists f w1,
       get_rand min max w = Returns (f, w1) /\
       (forall n, exists vs w',
          invoke_n f n w1 = Returns (vs, w') /\
          length vs = n /\
          Forall (fun v => min <= v <= max) vs) /\
       (forall w2 cs2,
          steps w1 (f :: cs) w2 cs2 ->
          exists v w3, invoke f w2 = Returns (v, w3) /\ min <= v <= max)) /\
  (forall (k : float_kind) (E : Type) (SR : StdRandom E (floating k))
          (SL : StdRandomLaws E (floating k))
          (w : world E (floating k)) (cs : list (sampler (floating k)))
          (min max : floating k),
     reachable w cs ->
     IEEE.real_requires k min max = true ->
     returns (hash_pair (min, max)) = true ->
     exists f w1,
       get_rand min max w = Returns (f, w1) /\
       (forall n, exists vs w',
          invoke_n f n w1 = Returns (vs, w') /\
          length vs = n /\
          Forall (fun v => SFleb min v = true /\ SFleb v max = true) vs) /\
       (forall w2 cs2,
          steps w1 (f :: cs) w2 cs2 ->
          exists v w3,
            invoke f w2 = Returns (v, w3) /\
            SFleb min v = true /\ SFleb v max = true)).
Proof.
  split.
  - exact sampler_integer_in_range.
  - intros k E SR SL w cs min max Hr Hd Hh.
    exact (sampler_in_range w cs min max Hr Hd Hh).
Qed.

(** The theorem on [get_rand(-100.f, 100.f)] in a fresh process. *)
Lemma sampler_in_range_where_defined_witness :
  exists f w1,
    get_rand (T := floating Float)
      (IEEE.of_int Float (-100)) (IEEE.of_int Float 100)
      (initial Z (floating Float) 0) = Returns (f, w1) /\
    (forall n, exists vs w',
       invoke_n f n w1 = Returns (vs, w') /\
       length vs = n /\
       Forall (fun v => SFleb (IEEE.of_int Float (-100)) v = true /\
                        SFleb v (IEEE.of_int Float 100) = true) vs) /\
    (forall w2 cs2,
       steps w1 [f] w2 cs2 ->
       exists v w3,
         invoke f w2 = Returns (v, w3) /\
         SFleb (IEEE.of_int Float (-100)) v = true /\
         SFleb v (IEEE.of_int Float 100) = true).
Proof.
  apply (proj2 sampler_in_range_where_defined Float Z _ _
           (initial Z (floating Float) 0) []).
  - apply reachable_initial.
  - vm_compute. reflexivity.
  - vm_compute. reflexivity.
Defined.

(** C2 fails at [T = float] for the range from the lowest to the largest
    finite value: [min <= max] holds, the range breaks the precondition of
    [std::uniform_real_distribution], and [get_rand(min, max)] returns no
    closure. *)
Lemma get_rand_wide_range_undefined :
  let min := IEEE.lit Float (- (2 ^ 24 - 1)) 104 in
  let max := IEEE.lit Float (2 ^ 24 - 1) 104 in
  op_le (T := floating Float) min max = true /\
  uniform_distribution (T := floating Float) min max = Undefined /\
  get_rand (T := floating Float) min max (initial Z (floating Float) 0) =
    Undefined.
Proof. vm_compute. repeat split. Qed.

(** C8, as the code has it.  [get_rand] and [rand] return in every state of
    the process for an integral [T] and [min <= max], and for a
    floating-point [T] when the bounds meet the precondition of
    [std::uniform_real_distribution] and [hash_pair] returns a hash for the
    key.  The header has no error path and does not compare [min] with
    [max]: bounds that break the precondition of the distribution, an
    inverted range among them, reach the distribution's constructor and the
    behaviour is undefined. *)
Theorem total_where_preconditions_hold :
  (forall (k : int_kind) (E : Type) (SR : StdRandom E (integer k))
          (SL : StdRandomLaws E (integer k))
          (w : world E (integer k)) (cs : list (sampler (integer k)))
          (min max : integer k),
     reachable w cs ->
     min <= max ->
     (exists f w', get_rand min max w = Returns (f, w')) /\
     (exists v w', rand min max w = Returns (v, w'))) /\
  (forall (k : float_kind) (E : Type) (SR : StdRandom E (floating k))
          (SL : StdRandomLaws E (floating k))
          (w : world E (floating k)) (cs : list (sampler (floating k)))
          (min max : floating k),
     reachable w cs ->
     IEEE.real_requires k min max = true ->
     returns (hash_pair (min, max)) = true ->
     (exists f w', get_rand min max w = Returns (f, w')) /\
     (exists v w', rand min max w = Returns (v, w'))) /\
  (forall (E T : Type) (AT : Arith T) (SR : StdRandom E T)
          (w : world E T) (min max : T),
     dist_requires min max = false ->
     get_rand min max w = Undefined /\ rand min max w = Undefined) /\
  (forall (k : int_kind) (min max : integer k),
     max < min -> dist_requires min max = false) /\
  (forall (k : float_kind) (min max : floating k),
     SFleb min max = false -> dist_requires min max = false).
Proof.
  split; [|split; [|split; [|split]]].
  - intros k E SR SL w cs min max Hr Hle. split.
    + destruct (sampler_integer_in_range k E SR SL w cs min max Hr Hle)
        as (f & w1 & H & _).
      now exists f, w1.
    + destruct (rand_integer_in_range k E SR SL w cs min max Hr Hle)
        as (v & w' & H & _).
      now exists v, w'.
  - intros k E SR SL w cs min max Hr Hd Hh. split.
    + destruct (sampler_in_range w cs min max Hr Hd Hh) as (f & w1 & H & _).
      now exists f, w1.
    + destruct (rand_in_range w cs min max (reachable_invariant w cs Hr) Hd Hh)
        as (v & w' & H & _).
      now exists v, w'.
  - intros E T AT SR w min max. apply requires_broken_undefined.
  - intros k min max Hlt. now apply Z.leb_gt.
  - intros k min max Hle. cbn [dist_requires floating_arith].
    unfold IEEE.real_requires. now rewrite Hle.
Qed.

(** The theorem on [get_rand(1, 12)] and [rand(1, 12)] at [T = int], and on
    the inverted range [(6, 1)]. *)
Lemma total_where_preconditions_hold_witness :
  ((exists f w',
      get_rand (T := integer Int) 1 12 (initial Z (integer Int) 0) =
        Returns (f, w')) /\
   (exists v w',
      rand (T := integer Int) 1 12 (initial Z (integer Int) 0) =
        Returns (v, w'))) /\
  get_rand (T := integer Int) 6 1 (initial Z (integer Int) 0) = Undefined /\
  rand (T := integer Int) 6 1 (initial Z (integer Int) 0) = Undefined.
Proof.
  assert (Hle : 1 <= 12) by lia.
  assert (Hlt : 1 < 6) by lia.
  split.
  - exact (proj1 total_where_preconditions_hold Int Z _ _
             (initial Z (integer Int) 0) [] 1 12 (reachable_initial 0) Hle).
  - apply (proj1 (proj2 (proj2 total_where_preconditions_hold))
             Z (integer Int) _ _ (initial Z (integer Int) 0) 6 1).
    exact (proj1 (proj2 (proj2 (proj2 total_where_preconditions_hold)))
             Int 6 1 Hlt).
Defined.

(** C8 fails at [T = double] for the valid range [(-2^1023, 2^1023)]:
    [min <= max] holds and both bounds are finite, their difference is not a
    finite [double], and neither [get_rand] nor [rand] returns. *)
Lemma wide_range_not_total :
  let min := IEEE.lit Double (-1) 1023 in
  let max := IEEE.lit Double 1 1023 in
  op_le (T := floating Double) min max = true /\
  IEEE.exact Double min <> None /\
  IEEE.exact Double max <> None /\
  get_rand (T := floating Double) min max (initial Z (floating Double) 0) =
    Undefined /\
  rand (T := floating Double) min max (initial Z (floating Double) 0) =
    Undefined.
Proof. vm_compute. repeat split; discriminate. Qed.

(** * Closures and nodes *)

Section Closures.

Context {E T : Type} {AT : Arith T} {SR : StdRandom E T}.

Context {AL : ArithLaws T} {SL : StdRandomLaws E T}.

Lemma invoke_congr (w : world E T) (cs : list (sampler T)) (f g : sampler T) :
  invariant w cs -> In f cs ->
  pair_eq (captured_key f) (captured_key g) = true ->
  invoke g w = invoke f w.
Proof.
  intros Hinv Hf Hk.
  destruct Hinv as [H1 H2 H3 H4]. destruct (H3 f Hf) as (Hs & Hn & Hh).
  destruct (get_rand_impl_statics w) as [st|] eqn:Hst; [|congruence].
  unfold node_of, cache in Hn. rewrite Hst in Hn.
  destruct (find (captured_key f) (generators st)) as [i|] eqn:Hfi; [|congruence].
  assert (Hfg : find (captured_key g) (generators st) = Some i)
    by now rewrite <- (find_congr _ _ _ Hk).
  assert (Hhg : returns (hash_pair (captured_key g)) = true)
    by now rewrite <- (hash_pair_eq _ _ Hk).
  rewrite (invoke_found f w st i Hst Hh Hfi).
  now rewrite (invoke_found g w st i Hst Hhg Hfg).
Qed.

Lemma held_distribution (w : world E T) (cs : list (sampler T)) (f : sampler T) :
  invariant w cs -> In f cs ->
  exists i k,
    node_of f w = Some i /\
    nth_error (cache w) i = Some (k, mk_distribution (fst k) (snd k)) /\
    distribution_of f w = Some (mk_distribution (fst k) (snd k)) /\
    pair_eq k (captured_key f) = true.
Proof.
  intros Hinv Hf.
  destruct (invoke_held w cs f Hinv Hf) as (st & i & d & Hst & Hn & Hnth & Hk & _).
  exists i, d. split; [exact Hn|]. split; [exact Hnth|]. split; [|exact Hk].
  unfold distribution_of. rewrite Hn. now rewrite nth_error_map, Hnth.
Qed.

Lemma distinct_nodes (w : world E T) (cs : list (sampler T)) (f g : sampler T) :
  invariant w cs -> In f cs -> In g cs ->
  pair_eq (captured_key f) (captured_key g) = false ->
  node_of f w <> node_of g w.
Proof.
  intros Hinv Hf Hg Hk.
  destruct (held_distribution w cs f Hinv Hf) as (i & k & Hn & Hnth & _ & Hkf).
  destruct (held_distribution w cs g Hinv Hg) as (j & k' & Hn' & Hnth' & _ & Hkg).
  rewrite Hn, Hn'. intros [= <-]. rewrite Hnth in Hnth'. injection Hnth' as <-.
  rewrite (pair_eq_trans _ _ _ (pair_eq_sym _ _ Hkf) Hkg) in Hk. discriminate.
Qed.

End Closures.

(** Two closures for bounds that compare equal are one sampler: in every
    state of the process, a call of the one returns what a call of the other
    would return and leaves the state it would leave. *)
Theorem closures_interchangeable
    (E T : Type) (AT : Arith T) (SR : StdRandom E T)
    (AL : ArithLaws T) (SL : StdRandomLaws E T)
    (w : world E T) (cs : list (sampler T)) (f g : sampler T) :
  reachable w cs ->
  In f cs ->
  pair_eq (captured_key f) (captured_key g) = true ->
  invoke g w = invoke f w /\
  exists v w', invoke f w = Returns (v, w').
Proof.
  intros Hr Hf Hk. pose proof (reachable_invariant w cs Hr) as Hinv.
  split; [now apply invoke_congr with (cs := cs)|].
  destruct (invoke_in_range w cs f Hinv Hf) as (v & w' & H & _).
  now exists v, w'.
Qed.

(** The theorem at [T = double], for the closures of [get_rand(0.0, 1.0)]
    and [get_rand(-0.0, 1.0)]. *)
Lemma closures_interchangeable_witness :
  let f := mk_sampler (T := floating Double)
             (S754_zero false, IEEE.of_int Double 1) in
  let g := mk_sampler (T := floating Double)
             (S754_zero true, IEEE.of_int Double 1) in
  let w := after_get_rand (T := floating Double)
             (S754_zero false) (IEEE.of_int Double 1)
             (initial Z (floating Double) 0) in
  invoke g w = invoke f w /\
  exists v w', invoke f w = Returns (v, w').
Proof.
  intros f g w.
  assert (Hr : reachable w [f]).
  { apply reachable_step with (w := initial Z (floating Double) 0) (cs := []);
      [apply reachable_initial|].
    apply step_get_rand with (min := S754_zero false)
                             (max := IEEE.of_int Double 1).
    reflexivity. }
  assert (Hk : pair_eq (captured_key f) (captured_key g) = true) by reflexivity.
  exact (closures_interchangeable Z (floating Double) _ _ _ _ w [f] f g
           Hr (or_introl eq_refl) Hk).
Defined.

(** Closures for bounds that differ never share a node, whatever the hash
    of their keys: each resolves to a node that holds the distribution of
    its own bounds.  Keys do collide: at an integral [T] the keys
    [(a, b + 31)] and [(a + 1, b)] have the same hash. *)
Theorem distinct_bounds_distinct_nodes :
  (forall (k : int_kind) (a b : integer k),
     hash_pair (T := integer k) (a, b + 31) =
     hash_pair (T := integer k) (a + 1, b)) /\
  (forall (E T : Type) (AT : Arith T) (SR : StdRandom E T)
          (AL : ArithLaws T) (SL : StdRandomLaws E T)
          (w : world E T) (cs : list (sampler T)) (f g : sampler T),
     reachable w cs ->
     In f cs -> In g cs ->
     pair_eq (captured_key f) (captured_key g) = false ->
     node_of f w <> node_of g w /\
     exists df dg,
       distribution_of f w = Some df /\
       distribution_of g w = Some dg /\
       pair_eq (dist_a df, dist_b df) (captured_key f) = true /\
       pair_eq (dist_a dg, dist_b dg) (captured_key g) = true).
Proof.
  split.
  - intros k a b. rewrite !hash_pair_integer. unfold hash_formula.
    do 4 f_equal. lia.
  - intros E T AT SR AL SL w cs f g Hr Hf Hg Hk.
    pose proof (reachable_invariant w cs Hr) as Hinv.
    split; [now apply distinct_nodes with (cs := cs)|].
    destruct (held_distribution w cs f Hinv Hf) as (i & kf & _ & _ & Hdf & Hkf).
    destruct (held_distribution w cs g Hinv Hg) as (j & kg & _ & _ & Hdg & Hkg).
    exists (mk_distribution (fst kf) (snd kf)), (mk_distribution (fst kg) (snd kg)).
    split; [exact Hdf|]. split; [exact Hdg|]. split.
    + simpl. now destruct kf.
    + simpl. now destruct kg.
Qed.

(** The theorem at [T = int], for the closures of [get_rand(0, 32)] and
    [get_rand(1, 1)], whose keys have the same hash. *)
Lemma distinct_bounds_distinct_nodes_witness :
  let f := mk_sampler (T := integer Int) (0, 32) in
  let g := mk_sampler (T := integer Int) (1, 1) in
  let w := after_get_rand (T := integer Int) 1 1
             (after_get_rand (T := integer Int) 0 32
                (initial Z (integer Int) 0)) in
  hash_pair (T := integer Int) (0, 32) = hash_pair (T := integer Int) (1, 1) /\
  node_of f w <> node_of g w /\
  exists df dg,
    distribution_of f w = Some df /\
    distribution_of g w = Some dg /\
    pair_eq (dist_a df, dist_b df) (captured_key f) = true /\
    pair_eq (dist_a dg, dist_b dg) (captured_key g) = true.
Proof.
  intros f g w.
  assert (Hr : reachable w [g; f]).
  { apply reachable_step
      with (w := after_get_rand (T := integer Int) 0 32 (initial Z (integer Int) 0))
           (cs := [f]).
    - apply reachable_step with (w := initial Z (integer Int) 0) (cs := []);
        [apply reachable_initial|].
      apply step_get_rand with (min := 0) (max := 32). reflexivity.
    - apply step_get_rand with (min := 1) (max := 1). reflexivity. }
  assert (Hk : pair_eq (captured_key f) (captured_key g) = false) by reflexivity.
  split.
  - exact (proj1 distinct_bounds_distinct_nodes Int 0 1).
  - exact (proj2 distinct_bounds_distinct_nodes Z (integer Int) _ _ _ _
             w [g; f] f g Hr (or_intror (or_introl eq_refl))
             (or_introl eq_refl) Hk).
Defined.

(** * The cache over a run *)

Section CacheRuns.

Context {E T : Type} {AT : Arith T} {SR : StdRandom E T}.

Context {AL : ArithLaws T} {SL : StdRandomLaws E T}.

Lemma find_own_key (m : gen_hashmap T) (i : nat) (k : T * T)
    (d : distribution T) :
  distinct_keys m ->
  nth_error m i = Some (k, d) ->
  pair_eq k k = true ->
  find k m = Some i.
Proof.
  revert i. induction m as [|[k0 d0] m IH]; intros i; simpl.
  - destruct i; discriminate.
  - intros [H0 Hm] Hi Hk. destruct i as [|i]; simpl in Hi.
    + injection Hi as -> ->. now rewrite Hk.
    + pose proof (find_none_nth k0 m i k d H0 Hi) as Hne.
      destruct (pair_eq k0 k) eqn:Hk0.
      * now rewrite (pair_eq_sym _ _ Hk0) in Hne.
      * now rewrite (IH i Hm Hi Hk).
Qed.

Lemma cache_after_rand (w w' : world E T) (cs : list (sampler T))
    (min max v : T) :
  invariant w cs ->
  rand min max w = Returns (v, w') ->
  cache w' = emplaced (cache w) (min, max) (mk_distribution min max).
Proof.
  intros Hinv H. unfold rand, rand_impl in H.
  apply bind_returns_inv in H. destruct H as ([f w1] & Hg & Hi).
  destruct (invariant_get_rand w w1 cs min max f Hinv Hg) as [Hinv1 _].
  destruct (invariant_invoke w1 w' (f :: cs) f v Hinv1 (or_introl eq_refl) Hi)
    as [_ Hc].
  apply get_rand_impl_inv in Hg. destruct Hg as (_ & _ & _ & ->).
  now rewrite Hc, cache_after_get_rand.
Qed.

End CacheRuns.

(** The cache never loses or overwrites an entry: over any run it is
    extended at its end only.  A call of a closure and a call of the
    template-parameter form leave it as it is; [get_rand] and [rand] leave
    it as it is when the key is in it, and add one entry when it is not. *)
Theorem cache_only_grows
    (E T : Type) (AT : Arith T) (SR : StdRandom E T)
    (AL : ArithLaws T) (SL : StdRandomLaws E T)
    (w : world E T) (cs : list (sampler T)) :
  reachable w cs ->
  (forall w' cs', steps w cs w' cs' -> exists l, cache w' = cache w ++ l) /\
  (forall f v w',
     In f cs -> invoke f w = Returns (v, w') -> cache w' = cache w) /\
  (forall min max v w',
     rand_tpl min max w = Returns (v, w') -> cache w' = cache w) /\
  (forall min max f w',
     get_rand min max w = Returns (f, w') ->
     cache w' =
       match find (min, max) (cache w) with
       | Some _ => cache w
       | None => cache w ++ [((min, max), mk_distribution min max)]
       end) /\
  (forall min max v w',
     rand min max w = Returns (v, w') ->
     cache w' =
       match find (min, max) (cache w) with
       | Some _ => cache w
       | None => cache w ++ [((min, max), mk_distribution min max)]
       end).
Proof.
  intros Hr. pose proof (reachable_invariant w cs Hr) as Hinv.
  split; [|split; [|split; [|split]]].
  - intros w' cs' Hs.
    now destruct (invariant_steps w w' cs cs' Hinv Hs) as (_ & Hl & _).
  - intros f v w' Hf H.
    now destruct (invariant_invoke w w' cs f v Hinv Hf H).
  - intros min max v w' H.
    destruct (invariant_rand_tpl w w' cs min max v Hinv H) as [_ Hs].
    unfold cache. now rewrite Hs.
  - intros min max f w' H.
    apply get_rand_impl_inv in H. destruct H as (_ & _ & _ & ->).
    apply cache_after_get_rand.
  - intros min max v w' H.
    exact (cache_after_rand w w' cs min max v Hinv H).
Qed.

(** The theorem for [rand(1, 6)] called twice at [T = int]: the first call
    adds the entry, the second call finds it. *)
Lemma cache_only_grows_witness :
  let w0 := initial Z (integer Int) 0 in
  exists v1 w1 v2 w2,
    rand (T := integer Int) 1 6 w0 = Returns (v1, w1) /\
    rand (T := integer Int) 1 6 w1 = Returns (v2, w2) /\
    cache w1 = [((1, 6), mk_distribution 1 6)] /\
    cache w2 = cache w1.
Proof.
  intros w0.
  assert (Hd : dist_requires (T := integer Int) 1 6 = true) by reflexivity.
  assert (Hh : returns (hash_pair (T := integer Int) (1, 6)) = true)
    by reflexivity.
  destruct (rand_in_range w0 [] 1 6 (invariant_initial 0) Hd Hh)
    as (v1 & w1 & H1 & _ & _).
  assert (Hr1 : reachable w1 []).
  { apply reachable_step with (w := w0) (cs := []); [apply reachable_initial|].
    now apply step_rand with (min := 1) (max := 6) (v := v1). }
  destruct (rand_in_range w1 [] 1 6 (reachable_invariant w1 [] Hr1) Hd Hh)
    as (v2 & w2 & H2 & _ & _).
  exists v1, w1, v2, w2. split; [exact H1|]. split; [exact H2|].
  pose proof (proj2 (proj2 (proj2 (proj2
                (cache_only_grows Z (integer Int) _ _ _ _ w0 []
                   (reachable_initial 0))))) 1 6 v1 w1 H1) as Hc1.
  pose proof (proj2 (proj2 (proj2 (proj2
                (cache_only_grows Z (integer Int) _ _ _ _ w1 [] Hr1))))
                1 6 v2 w2 H2) as Hc2.
  split; [exact Hc1|].
  rewrite Hc2, Hc1. reflexivity.
Defined.

(** Every entry of the cache is found under its own key, at its own
    position; it holds the distribution built from its key, and the key met
    the precondition of the distribution and none of its bounds is a NaN. *)
Theorem cache_entries_well_formed
    (E T : Type) (AT : Arith T) (SR : StdRandom E T)
    (AL : ArithLaws T) (SL : StdRandomLaws E T)
    (w : world E T) (cs : list (sampler T))
    (i : nat) (k : T * T) (d : distribution T) :
  reachable w cs ->
  nth_error (cache w) i = Some (k, d) ->
  find k (cache w) = Some i /\
  d = mk_distribution (fst k) (snd k) /\
  dist_requires (fst k) (snd k) = true /\
  op_le (fst k) (snd k) = true /\
  pair_eq k k = true.
Proof.
  intros Hr Hi. destruct (reachable_invariant w cs Hr) as [H1 H2 _ _].
  assert (Hok : entry_ok (k, d)).
  { rewrite Forall_forall in H1. apply H1. eapply nth_error_In; eauto. }
  destruct Hok as (Hd & Hreq & Hh). simpl in Hd, Hreq, Hh.
  pose proof (hash_pair_self k Hh) as Hk.
  split; [now apply find_own_key with (d := d)|].
  split; [exact Hd|]. split; [exact Hreq|]. split; [|exact Hk].
  now apply dist_requires_le.
Qed.

(** The theorem on the entry that [get_rand(-16., 64.)] leaves at
    [T = double]. *)
Lemma cache_entries_well_formed_witness :
  let a := IEEE.of_int Double (-16) in
  let b := IEEE.of_int Double 64 in
  let w := after_get_rand (T := floating Double) a b
             (initial Z (floating Double) 0) in
  find (a, b) (cache w) = Some 0%nat /\
  mk_distribution a b = mk_distribution a b /\
  dist_requires a b = true /\
  op_le a b = true /\
  pair_eq (a, b) (a, b) = true.
Proof.
  intros a b w.
  assert (Hr : reachable w [mk_sampler (a, b)]).
  { apply reachable_step with (w := initial Z (floating Double) 0) (cs := []);
      [apply reachable_initial|].
    apply step_get_rand with (min := a) (max := b).
    vm_compute. reflexivity. }
  assert (Hi : nth_error (cache w) 0 = Some ((a, b), mk_distribution a b))
    by (vm_compute; reflexivity).
  exact (cache_entries_well_formed Z (floating Double) _ _ _ _
           w [mk_sampler (a, b)] 0%nat (a, b) (mk_distribution a b) Hr Hi).
Defined.

(** * The clock and the seeds *)

Section Seeds.

Context {E T : Type} {AT : Arith T} {SR : StdRandom E T}.

Context {AL : ArithLaws T} {SL : StdRandomLaws E T}.

Lemma seed_of_reading_weaken (n c c' : nat) (s : Z) :
  (c <= c')%nat -> seed_of_reading n c s -> seed_of_reading n c' s.
Proof. intros Hc (j & Hj & ->). exists j. split; [lia|reflexivity]. Qed.

Lemma seed_of_reading_range (n c : nat) (s : Z) :
  seed_of_reading n c s -> 0 <= s < 2 ^ 32.
Proof. intros (j & _ & ->). apply Z.mod_pos_bound. lia. Qed.

Lemma set_instantiation_found (key : Z * Z) (st st0 : rand_statics E T)
    (l : list ((Z * Z) * rand_statics E T)) :
  instantiation key l = Some st0 ->
  tpl_seed_time st = tpl_seed_time st0 ->
  length (set_instantiation key st l) = length l /\
  map (fun e => tpl_seed_time (snd e)) (set_instantiation key st l) =
  map (fun e => tpl_seed_time (snd e)) l.
Proof.
  induction l as [|[k st'] l IH]; simpl; [discriminate|].
  destruct (same_arguments k key).
  - intros [= ->] Hs. simpl. split; [reflexivity|]. now rewrite Hs.
  - intros Hi Hs. destruct (IH Hi Hs) as [H1 H2]. simpl. now rewrite H1, H2.
Qed.

Lemma set_instantiation_new (key : Z * Z) (st : rand_statics E T)
    (l : list ((Z * Z) * rand_statics E T)) :
  instantiation key l = None ->
  set_instantiation key st l = l ++ [(key, st)].
Proof.
  induction l as [|[k st'] l IH]; simpl; [reflexivity|].
  destruct (same_arguments k key); [discriminate|].
  intros Hi. now rewrite IH.
Qed.

Lemma clock_accounted_get_rand (n : nat) (min max : T) (w : world E T) :
  clock_accounted n w -> clock_accounted n (after_get_rand min max w).
Proof.
  unfold clock_accounted, after_get_rand, get_rand_impl_init, engines, seeds.
  destruct (get_rand_impl_statics w) as [st|]; simpl.
  - trivial.
  - intros (Hc & Hl & Hs). rewrite !length_map in *.
    split; [lia|]. split; [reflexivity|].
    constructor.
    + exists (clock_reads w). split; [lia|reflexivity].
    + eapply Forall_impl; [|exact Hs].
      intros s. apply seed_of_reading_weaken. lia.
Qed.

Lemma clock_accounted_invoke (n : nat) (d : distribution T) (w : world E T) :
  clock_accounted n w -> clock_accounted n (after_invoke d w).
Proof.
  unfold clock_accounted, after_invoke, engines, seeds.
  destruct (get_rand_impl_statics w) as [st|] eqn:Hst; simpl.
  - trivial.
  - now rewrite Hst.
Qed.

Lemma clock_accounted_rand_tpl (n : nat) (min max : Z) (w : world E T) :
  clock_accounted n w -> clock_accounted n (after_rand_tpl min max w).
Proof.
  unfold clock_accounted, after_rand_tpl, tpl_statics_after, engines, seeds.
  cbn [clock_reads get_rand_impl_statics rand_impl_statics].
  destruct (instantiation (min, max) (rand_impl_statics w)) as [st|] eqn:Hi.
  - intros (Hc & Hl & Hs).
    destruct (set_instantiation_found (min, max)
                (mk_rand_statics (tpl_seed_time st) (tpl_generator st)
                   (snd (draw (dist_a (tpl_generator st)) (dist_b (tpl_generator st))
                           (tpl_engine st))))
                st _ Hi eq_refl) as [H1 H2].
    rewrite !length_app, !length_map in *. rewrite H1, H2. auto.
  - intros (Hc & Hl & Hs).
    rewrite set_instantiation_new by trivial.
    rewrite ?map_app, ?length_app, ?length_map in *.
    cbn [map length snd tpl_seed_time tpl_engine gen_seed fst].
    split; [lia|]. split; [lia|].
    rewrite app_assoc. apply Forall_app. split.
    + eapply Forall_impl; [|exact Hs].
      intros s. apply seed_of_reading_weaken. lia.
    + constructor; [|constructor].
      exists (clock_reads w). split; [lia|reflexivity].
Qed.

Lemma clock_accounted_steps (n : nat) (w : world E T) (cs : list (sampler T)) :
  steps (initial E T n) [] w cs -> clock_accounted n w.
Proof.
  intros Hs.
  assert (H : invariant w cs /\ clock_accounted n w).
  { remember (initial E T n) as w0 eqn:Hw0.
    remember (@nil (sampler T)) as cs0 eqn:Hcs0.
    induction Hs as [w cs | w cs w1 cs1 w2 cs2 Hs IH Hstep].
    - subst. split; [apply invariant_initial|].
      unfold clock_accounted, initial, engines, seeds. simpl.
      split; [lia|]. split; [reflexivity|constructor].
    - destruct (IH Hw0 Hcs0) as [Hinv Hca].
      split; [now destruct (invariant_step w1 w2 cs1 cs2 Hinv Hstep)|].
      destruct (step_effect w1 w2 cs1 cs2 Hinv Hstep)
        as [(min & max & ->) | [(d & _ & ->) | [(min & max & d & ->) | (min & max & ->)]]].
      + now apply clock_accounted_get_rand.
      + now apply clock_accounted_invoke.
      + now apply clock_accounted_invoke, clock_accounted_get_rand.
      + now apply clock_accounted_rand_tpl. }
  apply H.
Qed.

End Seeds.

(** The clock is read once for each engine object and never again: in a
    process that started at the reading [n], the number of readings is the
    number of engines.  Every seed is a reading of the clock reduced to 32
    bits (the conversion to [unsigned]), so at most [2^32] seeds exist. *)
Theorem clock_read_once_per_engine
    (E T : Type) (AT : Arith T) (SR : StdRandom E T)
    (AL : ArithLaws T) (SL : StdRandomLaws E T)
    (n : nat) (w : world E T) (cs : list (sampler T)) :
  steps (initial E T n) [] w cs ->
  clock_reads w = (n + length (engines w))%nat /\
  length (seeds w) = length (engines w) /\
  Forall (fun s => 0 <= s < 2 ^ 32 /\ seed_of_reading n (clock_reads w) s)
    (seeds w).
Proof.
  intros Hs. destruct (clock_accounted_steps n w cs Hs) as (Hc & Hl & Hf).
  split; [exact Hc|]. split; [exact Hl|].
  eapply Forall_impl; [|exact Hf].
  intros s H. split; [|exact H]. now apply seed_of_reading_range in H.
Qed.

(** The theorem after [rand(1, 6)] and [rand<int, 1, 6>()] at [T = int]: two
    engines, two readings of the clock. *)
Lemma clock_read_once_per_engine_witness :
  let w0 := initial Z (integer Int) 0 in
  let w1 := after_invoke (T := integer Int) (mk_distribution 1 6)
              (after_get_rand (T := integer Int) 1 6 w0) in
  let w2 := after_rand_tpl (T := integer Int) 1 6 w1 in
  clock_reads w2 = 2%nat /\
  length (seeds w2) = 2%nat /\
  Forall (fun s => 0 <= s < 2 ^ 32 /\
                   seed_of_reading (E := Z) (T := integer Int)
                     0 (clock_reads w2) s)
    (seeds w2).
Proof.
  intros w0 w1 w2.
  assert (Hs : steps w0 [] w2 []).
  { apply steps_snoc with (w1 := w1) (cs1 := []).
    - apply steps_snoc with (w1 := w0) (cs1 := []); [apply steps_refl|].
      apply step_rand with (min := 1) (max := 6)
                           (v := fst (draw (T := integer Int) 1 6
                                        (mt19937_64 (T := integer Int)
                                           (next_seed w0)))).
      reflexivity.
    - apply step_rand_tpl with (min := 1) (max := 6)
                               (v := tpl_value (T := integer Int) 1 6 w1).
      reflexivity. }
  exact (clock_read_once_per_engine Z (integer Int) _ _ _ _ 0 w2 [] Hs).
Defined.

(** * Sums with a floating-point bound *)

Module IEEE_sums.

Import IEEE.

Import IEEE_facts.

Section Normal.

Variables prec emax : Z.

Hypothesis Hprec : 1 < prec.

Hypothesis Hemax : 66 <= emax.

Lemma fexp_normal (e : Z) : 3 - emax <= e -> fexp prec emax e = e - prec.
Proof. unfold fexp, emin. lia. Qed.

(** A mantissa of [prec] digits above the subnormal range is left as it is,
    unless its exponent is too large for the format. *)
Lemma binary_round_aux_normal (s : bool) (m : positive) (e : Z) :
  Zpos (digits2_pos m) = prec ->
  3 - emax - prec <= e ->
  binary_round_aux prec emax s (Zpos m) e loc_Exact =
  if e <=? emax - prec then S754_finite s m e else S754_infinity s.
Proof.
  intros Hd He. unfold binary_round_aux, shr_fexp.
  cbn [Zdigits2]. rewrite Hd, fexp_normal by lia.
  replace (prec + e - prec - e) with 0 by lia.
  cbn [shr shr_record_of_loc loc_of_shr_record shr_m round_nearest_even Zdigits2].
  rewrite Hd, fexp_normal by lia.
  replace (prec + e - prec - e) with 0 by lia.
  cbn [shr shr_record_of_loc shr_m]. reflexivity.
Qed.

(** Rounding [m * 2^x] above the subnormal range: the result has a mantissa
    of [prec] digits, and its leading digit is the leading digit of [m] or
    the next one (when the mantissa rounds up to a power of two). *)
Lemma binary_round_normal (s : bool) (m : positive) (x : Z) :
  let d := Zpos (digits2_pos m) in
  3 - emax <= d + x ->
  exists mant e,
    Zpos (digits2_pos mant) = prec /\
    (e = d + x - prec \/ (e = d + x - prec + 1 /\ Zpos mant = 2 ^ (prec - 1))) /\
    binary_round prec emax s m x =
    if e <=? emax - prec then S754_finite s mant e else S754_infinity s.
Proof.
  intros d Hn. unfold binary_round.
  pose proof (digits2_pos_bounds m) as Hm. fold d in Hm.
  assert (Hd1 : 1 <= d) by (unfold d; lia).
  fold d. rewrite fexp_normal by lia. unfold shl_align.
  destruct (d + x - prec - x) as [|n|n] eqn:Hdn.
  - (* d = prec *)
    assert (Hd : d = prec) by lia.
    exists m, x. split; [exact Hd|]. split; [left; lia|].
    apply binary_round_aux_normal; [exact Hd|lia].
  - (* prec < d *)
    assert (Hdp : d - prec = Zpos n) by lia.
    destruct (rne_bounds prec Hprec m) as [[Hq1 Hq2] [Hr1 Hr2]]; [fold d; lia|].
    fold d in Hq1, Hq2, Hr1, Hr2. rewrite Hdp in *.
    unfold binary_round_aux, shr_fexp. cbn [Zdigits2]. fold d.
    rewrite fexp_normal by lia.
    replace (d + x - prec - x) with (Zpos n) by lia.
    cbn [shr shr_record_of_loc].
    destruct (round_shr (Zpos m) n ltac:(lia)) as [Hsm Hrne].
    cbv zeta in Hsm, Hrne. rewrite Hrne. clear Hsm Hrne.
    set (r := rne (Zpos m) (Zpos n)) in *.
    assert (Hr0 : 0 < r).
    { assert (0 < 2 ^ (prec - 1)) by (apply Z.pow_pos_nonneg; lia). lia. }
    destruct r as [|r0|r0] eqn:Hr; try lia.
    destruct (Z.eq_dec (Zpos r0) (2 ^ prec)) as [Htop|Htop].
    + assert (Hdr : Zpos (digits2_pos r0) = prec + 1).
      { apply digits2_pos_unique. rewrite Htop.
        replace (prec + 1 - 1) with prec by lia. split; [lia|].
        apply Z.pow_lt_mono_r; lia. }
      cbn [Zdigits2]. rewrite Hdr, fexp_normal by lia.
      replace (prec + 1 + (x + Zpos n) - prec - (x + Zpos n)) with 1 by lia.
      cbn [shr]. rewrite shr_iter by lia. cbn [shr_m].
      rewrite Htop. change (2 ^ 1) with 2.
      assert (Hhalf : 2 ^ prec / 2 = 2 ^ (prec - 1)).
      { replace prec with ((prec - 1) + 1) at 1 by lia.
        rewrite Z.pow_add_r by lia. change (2 ^ 1) with 2.
        now rewrite Z.div_mul by lia. }
      rewrite Hhalf.
      assert (Hpos : 0 < 2 ^ (prec - 1)) by (apply Z.pow_pos_nonneg; lia).
      destruct (2 ^ (prec - 1)) as [|h|h] eqn:Hh; try lia.
      exists h, (x + Zpos n + 1). split.
      { apply digits2_pos_unique. rewrite <- Hh. split; [lia|].
        apply Z.pow_lt_mono_r; lia. }
      split; [right; split; [lia|reflexivity]|]. reflexivity.
    + assert (Hdr : Zpos (digits2_pos r0) = prec).
      { apply digits2_pos_unique. lia. }
      cbn [Zdigits2]. rewrite Hdr, fexp_normal by lia.
      replace (prec + (x + Zpos n) - prec - (x + Zpos n)) with 0 by lia.
      cbn [shr shr_m].
      exists r0, (x + Zpos n). split; [exact Hdr|]. split; [left; lia|].
      reflexivity.
  - (* d < prec *)
    assert (Hdp : prec - d = Zpos n) by lia.
    assert (Hdm : Zpos (digits2_pos (Pos.iter xO m n)) = prec).
    { apply digits2_pos_unique. rewrite iter_xO, <- Hdp.
      assert (0 < 2 ^ (prec - d)) by (apply Z.pow_pos_nonneg; lia).
      replace (2 ^ (prec - 1)) with (2 ^ (d - 1) * 2 ^ (prec - d))
        by (rewrite <- Z.pow_add_r by lia; f_equal; lia).
      replace (2 ^ prec) with (2 ^ d * 2 ^ (prec - d))
        by (rewrite <- Z.pow_add_r by lia; f_equal; lia).
      nia. }
    exists (Pos.iter xO m n), (d + x - prec).
    split; [exact Hdm|]. split; [left; reflexivity|].
    apply binary_round_aux_normal; [exact Hdm|lia].
Qed.


Lemma digits2_pos_ge (p : positive) (a : Z) :
  0 <= a -> 2 ^ a <= Zpos p -> a + 1 <= Zpos (digits2_pos p).
Proof.
  intros Ha Hp. pose proof (digits2_pos_bounds p) as Hb.
  destruct (Z.le_gt_cases (a + 1) (Zpos (digits2_pos p))) as [H|H]; trivial.
  assert (2 ^ Zpos (digits2_pos p) <= 2 ^ a) by (apply Z.pow_le_mono_r; lia).
  lia.
Qed.

Lemma digits2_pos_le (p : positive) (b : Z) :
  Zpos p < 2 ^ b -> Zpos (digits2_pos p) <= b.
Proof.
  intros Hp. pose proof (digits2_pos_bounds p) as Hb.
  destruct (Z.le_gt_cases (Zpos (digits2_pos p)) b) as [H|H]; trivial.
  assert (2 ^ b <= 2 ^ (Zpos (digits2_pos p) - 1))
    by (apply Z.pow_le_mono_r; lia).
  lia.
Qed.

Lemma trunc_magnitude_eq (m : positive) (e : Z) :
  trunc_magnitude m e =
  if 0 <=? e then Zpos m * 2 ^ e else Zpos m / 2 ^ (- e).
Proof. destruct e; simpl; trivial. lia. Qed.

(** The integer part of a float with a mantissa of [prec] digits. *)
Lemma trunc_magnitude_bounds (m : positive) (e : Z) :
  Zpos (digits2_pos m) = prec ->
  1 <= prec + e ->
  2 ^ (prec + e - 1) <= trunc_magnitude m e < 2 ^ (prec + e) /\
  (Zpos m = 2 ^ (prec - 1) -> trunc_magnitude m e = 2 ^ (prec + e - 1)).
Proof.
  intros Hd He. pose proof (digits2_pos_bounds m) as Hm. rewrite Hd in Hm.
  rewrite trunc_magnitude_eq.
  destruct (Z.leb_spec 0 e) as [H0|H0].
  - assert (Hp : 0 < 2 ^ e) by (apply Z.pow_pos_nonneg; lia).
    replace (prec + e - 1) with ((prec - 1) + e) by lia.
    rewrite !Z.pow_add_r by lia.
    split; [nia|]. intros ->. reflexivity.
  - assert (Hp : 0 < 2 ^ (- e)) by (apply Z.pow_pos_nonneg; lia).
    assert (H1 : 2 ^ (prec - 1) = 2 ^ (prec + e - 1) * 2 ^ (- e)).
    { rewrite <- Z.pow_add_r by lia. f_equal; lia. }
    assert (H2 : 2 ^ prec = 2 ^ (prec + e) * 2 ^ (- e)).
    { rewrite <- Z.pow_add_r by lia. f_equal; lia. }
    split.
    + split.
      * apply Z.div_le_lower_bound; lia.
      * apply Z.div_lt_upper_bound; lia.
    + intros ->. rewrite H1. apply Z.div_mul. lia.
Qed.

(** The conversion to [std::size_t] of a rounded negative value of
    magnitude [1] or more. *)
Lemma to_size_t_round_negative (p : positive) (x : Z) :
  1 <= Zpos (digits2_pos p) + x ->
  to_size_t (binary_round prec emax true p x) = Undefined.
Proof.
  intros Hd.
  destruct (binary_round_normal true p x ltac:(lia))
    as (mant & e & Hdm & He & ->).
  destruct (e <=? emax - prec); [|reflexivity].
  destruct (trunc_magnitude_bounds mant e Hdm ltac:(lia)) as [[Hl _] _].
  assert (0 < 2 ^ (prec + e - 1)) by (apply Z.pow_pos_nonneg; lia).
  cbn [to_size_t].
  destruct (Z.eqb_spec (trunc_magnitude mant e) 0); [lia|reflexivity].
Qed.

(** ... of a rounded positive value of [2^64] or more. *)
Lemma to_size_t_round_large (p : positive) (x : Z) :
  65 <= Zpos (digits2_pos p) + x ->
  to_size_t (binary_round prec emax false p x) = Undefined.
Proof.
  intros Hd.
  destruct (binary_round_normal false p x ltac:(lia))
    as (mant & e & Hdm & He & ->).
  destruct (e <=? emax - prec); [|reflexivity].
  destruct (trunc_magnitude_bounds mant e Hdm ltac:(lia)) as [[Hl _] _].
  assert (2 ^ 64 <= 2 ^ (prec + e - 1)) by (apply Z.pow_le_mono_r; lia).
  cbn [to_size_t].
  destruct (Z.ltb_spec (trunc_magnitude mant e) SizeT.modulus) as [H1|H1];
    [|reflexivity].
  change SizeT.modulus with (2 ^ 64) in H1. lia.
Qed.

(** ... of a rounded positive value between [1] and [2^63]. *)
Lemma to_size_t_round_small (p : positive) (x : Z) :
  1 <= Zpos (digits2_pos p) + x <= 63 ->
  exists h,
    to_size_t (binary_round prec emax false p x) = Returns h /\
    1 <= h <= 2 ^ (Zpos (digits2_pos p) + x) /\
    2 ^ (Zpos (digits2_pos p) + x - 1) <= h.
Proof.
  intros Hd. set (d := Zpos (digits2_pos p)) in *.
  destruct (binary_round_normal false p x ltac:(fold d; lia))
    as (mant & e & Hdm & He & ->). fold d in He.
  replace (e <=? emax - prec) with true by (symmetry; apply Z.leb_le; lia).
  destruct (trunc_magnitude_bounds mant e Hdm ltac:(lia)) as [[Hl Hu] Hpow].
  assert (H0 : 0 < 2 ^ (prec + e - 1)) by (apply Z.pow_pos_nonneg; lia).
  assert (Hb : trunc_magnitude mant e <= 2 ^ (d + x)).
  { destruct He as [->|[-> Hm]].
    - replace (prec + (d + x - prec)) with (d + x) in Hu by lia. lia.
    - rewrite (Hpow Hm). apply Z.pow_le_mono_r; lia. }
  assert (H63 : 2 ^ (d + x) <= 2 ^ 63) by (apply Z.pow_le_mono_r; lia).
  assert (Hlow : 2 ^ (d + x - 1) <= trunc_magnitude mant e).
  { destruct He as [->|[-> Hm]].
    - replace (prec + (d + x - prec) - 1) with (d + x - 1) in Hl by lia. lia.
    - rewrite (Hpow Hm). apply Z.pow_le_mono_r; lia. }
  exists (trunc_magnitude mant e). cbn [to_size_t].
  destruct (Z.ltb_spec (trunc_magnitude mant e) SizeT.modulus) as [H1|H1].
  - split; [reflexivity|]. split; [lia|exact Hlow].
  - change SizeT.modulus with (2 ^ 64) in H1. lia.
Qed.

Lemma shl_align_min_l (mx : positive) (ex ey : Z) :
  Zpos (fst (shl_align mx ex (Z.min ex ey))) = Zpos mx * 2 ^ (ex - Z.min ex ey).
Proof.
  unfold shl_align.
  destruct (Z.min ex ey - ex) as [|d|d] eqn:Hd; cbn [fst].
  - replace (ex - Z.min ex ey) with 0 by lia. rewrite Z.pow_0_r. lia.
  - lia.
  - rewrite iter_xO. do 2 f_equal; lia.
Qed.

Lemma shl_align_min_r (my : positive) (ex ey : Z) :
  Zpos (fst (shl_align my ey (Z.min ex ey))) = Zpos my * 2 ^ (ey - Z.min ex ey).
Proof. rewrite Z.min_comm. apply shl_align_min_l. Qed.

(** The sum of two finite floats: the exact sum of the aligned mantissas,
    rounded. *)
Lemma add_finite (sx sy : bool) (mx my : positive) (ex ey : Z) :
  SFadd prec emax (S754_finite sx mx ex) (S754_finite sy my ey) =
  binary_normalize prec emax
    (cond_Zopp sx (Zpos mx * 2 ^ (ex - Z.min ex ey)) +
     cond_Zopp sy (Zpos my * 2 ^ (ey - Z.min ex ey)))
    (Z.min ex ey) false.
Proof.
  unfold SFadd. now rewrite shl_align_min_l, shl_align_min_r.
Qed.

(** A float of the format: its exponent is the one the format gives to its
    number of digits. *)
Lemma bounded_inv (m : positive) (e : Z) :
  bounded prec emax m e = true ->
  Zpos (digits2_pos m) <= prec /\
  3 - emax - prec <= e <= emax - prec /\
  (3 - emax - prec < e -> Zpos (digits2_pos m) = prec).
Proof.
  unfold bounded, canonical_mantissa, fexp, emin. intros H.
  apply andb_prop in H. destruct H as [H1 H2].
  apply Z.eqb_eq in H1. apply Z.leb_le in H2. lia.
Qed.

Lemma leb_finite_pos (m1 m2 : positive) (e1 e2 : Z) :
  SFleb (S754_finite false m1 e1) (S754_finite false m2 e2) = true ->
  e1 < e2 \/ (e1 = e2 /\ Zpos m1 <= Zpos m2).
Proof.
  unfold SFleb, SFcompare.
  change (Pos.compare_cont Eq m1 m2) with (Pos.compare m1 m2).
  destruct (Z.compare_spec e1 e2) as [He|He|He]; [|now left|discriminate].
  destruct (Pos.compare_spec m1 m2) as [Hm|Hm|Hm]; try discriminate;
    intros _; right; split; trivial; lia.
Qed.

Lemma leb_finite_neg (m1 m2 : positive) (e1 e2 : Z) :
  SFleb (S754_finite true m1 e1) (S754_finite true m2 e2) = true ->
  e2 < e1 \/ (e1 = e2 /\ Zpos m2 <= Zpos m1).
Proof.
  unfold SFleb, SFcompare.
  change (Pos.compare_cont Eq m1 m2) with (Pos.compare m1 m2).
  destruct (Z.compare_spec e1 e2) as [He|He|He]; [|discriminate|now left].
  destruct (Pos.compare_spec m1 m2) as [Hm|Hm|Hm]; try discriminate;
    intros _; right; split; trivial; lia.
Qed.


(** A float that is at most [2^K], with its mantissa aligned to a smaller
    exponent. *)
Lemma at_most_pow2_scaled (K : Z) (m : positive) (e ez : Z) :
  Zpos (digits2_pos m) <= prec ->
  at_most_pow2 prec K m e ->
  ez <= e -> ez <= K ->
  Zpos m * 2 ^ (e - ez) <= 2 ^ (K - ez).
Proof.
  intros Hd Hk Hez HK. pose proof (digits2_pos_bounds m) as Hm.
  assert (Hmp : Zpos m < 2 ^ prec).
  { assert (2 ^ Zpos (digits2_pos m) <= 2 ^ prec)
      by (apply Z.pow_le_mono_r; lia).
    lia. }
  assert (H0 : 0 < 2 ^ (e - ez)) by (apply Z.pow_pos_nonneg; lia).
  destruct Hk as [He|[He Hle]].
  - assert (Hp : 2 ^ prec * 2 ^ (e - ez) <= 2 ^ (K - ez)).
    { rewrite <- Z.pow_add_r by lia. apply Z.pow_le_mono_r; lia. }
    nia.
  - assert (Hp : 2 ^ (prec - 1) * 2 ^ (e - ez) = 2 ^ (K - ez)).
    { rewrite <- Z.pow_add_r by lia. f_equal; lia. }
    nia.
Qed.

(** The conversion of a float of the format between [0] and [2^K],
    [K <= 63]. *)
Lemma to_size_t_at_most (K : Z) (m : positive) (e : Z) :
  0 <= K <= 63 ->
  Zpos (digits2_pos m) <= prec ->
  at_most_pow2 prec K m e ->
  exists h, to_size_t (S754_finite false m e) = Returns h /\ 0 <= h <= 2 ^ K.
Proof.
  intros HK Hd Hk. cbn [to_size_t].
  assert (Hb : 0 <= trunc_magnitude m e <= 2 ^ K).
  { rewrite trunc_magnitude_eq.
    destruct (Z.leb_spec 0 e) as [H0|H0].
    - assert (HeK : e <= K).
      { destruct Hk as [He|[He _]]; lia. }
      pose proof (at_most_pow2_scaled K m e 0 Hd Hk H0 ltac:(lia)) as Hs.
      rewrite !Z.sub_0_r in Hs.
      assert (0 < 2 ^ e) by (apply Z.pow_pos_nonneg; lia). nia.
    - assert (HeK : e <= K) by lia.
      pose proof (at_most_pow2_scaled K m e e Hd Hk ltac:(lia) HeK) as H.
      rewrite Z.sub_diag, Z.pow_0_r, Z.mul_1_r in H.
      assert (Hp : 0 < 2 ^ (- e)) by (apply Z.pow_pos_nonneg; lia).
      assert (Hs : 2 ^ (K - e) = 2 ^ K * 2 ^ (- e)).
      { rewrite <- Z.pow_add_r by lia. f_equal; lia. }
      split; [apply Z.div_pos; lia|].
      apply Z.div_le_upper_bound; lia. }
  assert (2 ^ K <= 2 ^ 63) by (apply Z.pow_le_mono_r; lia).
  exists (trunc_magnitude m e).
  destruct (Z.ltb_spec (trunc_magnitude m e) SizeT.modulus) as [H1|H1].
  - split; [reflexivity|lia].
  - change SizeT.modulus with (2 ^ 64) in H1. lia.
Qed.

(** The conversion of a float of the format that is [2^64] or more. *)
Lemma to_size_t_at_least (m : positive) (e : Z) :
  bounded prec emax m e = true ->
  65 - prec < e \/ (e = 65 - prec /\ 2 ^ (prec - 1) <= Zpos m) ->
  to_size_t (S754_finite false m e) = Undefined.
Proof.
  intros Hb He. destruct (bounded_inv m e Hb) as (_ & _ & Hn).
  assert (Hd : Zpos (digits2_pos m) = prec) by (apply Hn; lia).
  destruct (trunc_magnitude_bounds m e Hd ltac:(lia)) as [[Hl _] _].
  assert (2 ^ 64 <= 2 ^ (prec + e - 1)) by (apply Z.pow_le_mono_r; lia).
  cbn [to_size_t].
  destruct (Z.ltb_spec (trunc_magnitude m e) SizeT.modulus) as [H1|H1];
    [|reflexivity].
  change SizeT.modulus with (2 ^ 64) in H1. lia.
Qed.

(** The sum of two positive floats, the first with a mantissa of [prec]
    digits and a value between [1] and [2^62], the second at most [2^56]. *)
Lemma add_small (mx my : positive) (ex ey : Z) :
  Zpos (digits2_pos mx) = prec ->
  1 <= prec + ex ->
  at_most_pow2 prec 62 mx ex ->
  bounded prec emax my ey = true ->
  at_most_pow2 prec 56 my ey ->
  exists h,
    to_size_t (SFadd prec emax (S754_finite false mx ex) (S754_finite false my ey))
      = Returns h /\
    1 <= h <= 2 ^ 63.
Proof.
  intros Hdx Hex Hkx Hby Hky.
  destruct (bounded_inv my ey Hby) as (Hdy & _ & _).
  rewrite add_finite. cbn [cond_Zopp].
  set (ez := Z.min ex ey).
  assert (Hez : ez <= ex /\ ez <= ey) by (unfold ez; lia).
  assert (Hex62 : ex <= 62).
  { destruct Hkx as [H|[H _]]; lia. }
  pose proof (at_most_pow2_scaled 62 mx ex ez ltac:(lia) Hkx ltac:(lia) ltac:(lia))
    as Hx.
  assert (Hey56 : ey <= 56).
  { destruct Hky as [H|[H _]]; lia. }
  pose proof (at_most_pow2_scaled 56 my ey ez Hdy Hky ltac:(lia) ltac:(lia))
    as Hy.
  pose proof (digits2_pos_bounds mx) as Hmx. rewrite Hdx in Hmx.
  assert (Hpx : 0 < 2 ^ (ex - ez)) by (apply Z.pow_pos_nonneg; lia).
  assert (Hpy : 0 < 2 ^ (ey - ez)) by (apply Z.pow_pos_nonneg; lia).
  assert (Hlow : 2 ^ (prec - 1 + (ex - ez)) <= Zpos mx * 2 ^ (ex - ez)).
  { rewrite Z.pow_add_r by lia. nia. }
  assert (Hup : 2 ^ (62 - ez) + 2 ^ (56 - ez) < 2 ^ (63 - ez)).
  { replace (63 - ez) with (Z.succ (62 - ez)) by lia.
    rewrite Z.pow_succ_r by lia.
    assert (2 ^ (56 - ez) < 2 ^ (62 - ez)) by (apply Z.pow_lt_mono_r; lia).
    lia. }
  destruct (Zpos mx * 2 ^ (ex - ez) + Zpos my * 2 ^ (ey - ez)) as [|p|p] eqn:Hp;
    try lia.
  cbn [binary_normalize].
  pose proof (digits2_pos_ge p (prec - 1 + (ex - ez)) ltac:(lia) ltac:(lia)) as Hd1.
  pose proof (digits2_pos_le p (63 - ez) ltac:(lia)) as Hd2.
  destruct (to_size_t_round_small p ez ltac:(lia)) as (h & Hh & Hb).
  exists h. split; [exact Hh|].
  assert (2 ^ (Zpos (digits2_pos p) + ez) <= 2 ^ 63)
    by (apply Z.pow_le_mono_r; lia).
  lia.
Qed.

(** The sum of a positive float of [prec] digits and a float of the format
    that is [2^64] or more. *)
Lemma add_large (mx my : positive) (ex ey : Z) :
  ex <= 65 - prec ->
  bounded prec emax my ey = true ->
  65 - prec < ey \/ (ey = 65 - prec /\ 2 ^ (prec - 1) <= Zpos my) ->
  to_size_t (SFadd prec emax (S754_finite false mx ex) (S754_finite false my ey))
    = Undefined.
Proof.
  intros Hex Hby Hey.
  destruct (bounded_inv my ey Hby) as (_ & _ & Hn).
  assert (Hdy : Zpos (digits2_pos my) = prec) by (apply Hn; lia).
  pose proof (digits2_pos_bounds my) as Hmy. rewrite Hdy in Hmy.
  rewrite add_finite. cbn [cond_Zopp].
  replace (Z.min ex ey) with ex by lia.
  assert (Hpy : 0 < 2 ^ (ey - ex)) by (apply Z.pow_pos_nonneg; lia).
  assert (Hlow : 2 ^ (64 - ex) <= Zpos my * 2 ^ (ey - ex)).
  { assert (2 ^ (64 - ex) <= 2 ^ (prec - 1) * 2 ^ (ey - ex)).
    { rewrite <- Z.pow_add_r by lia. apply Z.pow_le_mono_r; lia. }
    nia. }
  assert (0 < Zpos mx * 2 ^ (ex - ex)).
  { rewrite Z.sub_diag. simpl. lia. }
  destruct (Zpos mx * 2 ^ (ex - ex) + Zpos my * 2 ^ (ey - ex)) as [|p|p] eqn:Hp;
    try lia.
  cbn [binary_normalize].
  pose proof (digits2_pos_ge p (64 - ex) ltac:(lia) ltac:(lia)) as Hd.
  apply to_size_t_round_large. lia.
Qed.

Hypothesis Hprec10 : 10 < prec.

(** The sums with [527.0], the first step of the hash. *)
Lemma add_527_negative (m527 my : positive) (ey : Z) :
  Zpos m527 = 527 * 2 ^ (prec - 10) ->
  bounded prec emax my ey = true ->
  10 - prec < ey \/ (ey = 10 - prec /\ 528 * 2 ^ (prec - 10) <= Zpos my) ->
  to_size_t (SFadd prec emax (S754_finite false m527 (10 - prec))
               (S754_finite true my ey)) = Undefined.
Proof.
  intros H527 Hby Hey.
  destruct (bounded_inv my ey Hby) as (_ & _ & Hn).
  assert (Hc : 0 < 2 ^ (prec - 10)) by (apply Z.pow_pos_nonneg; lia).
  assert (H512 : 2 ^ (prec - 1) = 512 * 2 ^ (prec - 10)).
  { replace (prec - 1) with (9 + (prec - 10)) by lia.
    rewrite Z.pow_add_r by lia. reflexivity. }
  rewrite add_finite. cbn [cond_Zopp].
  replace (Z.min (10 - prec) ey) with (10 - prec) by lia.
  rewrite Z.sub_diag, Z.pow_0_r, Z.mul_1_r, H527.
  assert (Hz : 527 * 2 ^ (prec - 10) + - (Zpos my * 2 ^ (ey - (10 - prec)))
               <= - 2 ^ (prec - 10)).
  { destruct Hey as [He|[-> Hm]].
    - assert (Hdy : Zpos (digits2_pos my) = prec) by (apply Hn; lia).
      pose proof (digits2_pos_bounds my) as Hmy. rewrite Hdy in Hmy.
      assert (2 ^ 1 <= 2 ^ (ey - (10 - prec))) by (apply Z.pow_le_mono_r; lia).
      change (2 ^ 1) with 2 in *. nia.
    - rewrite Z.sub_diag, Z.pow_0_r. lia. }
  destruct (527 * 2 ^ (prec - 10) + - (Zpos my * 2 ^ (ey - (10 - prec))))
    as [|p|p] eqn:Hp; try lia.
  cbn [binary_normalize].
  pose proof (digits2_pos_ge p (prec - 10) ltac:(lia) ltac:(lia)) as Hd.
  apply to_size_t_round_negative. lia.
Qed.

Lemma add_527_small (m527 my : positive) (ey : Z) :
  Zpos m527 = 527 * 2 ^ (prec - 10) ->
  bounded prec emax my ey = true ->
  at_most_pow2 prec 56 my ey ->
  exists h,
    to_size_t (SFadd prec emax (S754_finite false m527 (10 - prec))
                 (S754_finite false my ey)) = Returns h /\
    1 <= h <= 2 ^ 57.
Proof.
  intros H527 Hby Hky.
  destruct (bounded_inv my ey Hby) as (Hdy & _ & _).
  assert (Hc : 0 < 2 ^ (prec - 10)) by (apply Z.pow_pos_nonneg; lia).
  rewrite add_finite. cbn [cond_Zopp].
  set (ez := Z.min (10 - prec) ey).
  assert (Hez : ez <= 10 - prec /\ ez <= ey) by (unfold ez; lia).
  assert (Hey56 : ey <= 56).
  { destruct Hky as [H|[H _]]; lia. }
  pose proof (at_most_pow2_scaled 56 my ey ez Hdy Hky ltac:(lia) ltac:(lia))
    as Hy.
  assert (Hpy : 0 < 2 ^ (ey - ez)) by (apply Z.pow_pos_nonneg; lia).
  assert (Hx : Zpos m527 * 2 ^ (10 - prec - ez) = 527 * 2 ^ (- ez)).
  { rewrite H527, <- Z.mul_assoc, <- Z.pow_add_r by lia. do 2 f_equal; lia. }
  rewrite Hx.
  assert (Hn : 0 < 2 ^ (- ez)) by (apply Z.pow_pos_nonneg; lia).
  assert (H9 : 2 ^ (9 - ez) = 512 * 2 ^ (- ez)).
  { replace (9 - ez) with (9 + - ez) by lia. rewrite Z.pow_add_r by lia.
    reflexivity. }
  assert (H56 : 2 ^ (56 - ez) = 2 ^ 56 * 2 ^ (- ez)).
  { replace (56 - ez) with (56 + - ez) by lia. rewrite Z.pow_add_r by lia.
    reflexivity. }
  assert (H57 : 2 ^ (57 - ez) = 2 ^ 57 * 2 ^ (- ez)).
  { replace (57 - ez) with (57 + - ez) by lia. rewrite Z.pow_add_r by lia.
    reflexivity. }
  destruct (527 * 2 ^ (- ez) + Zpos my * 2 ^ (ey - ez)) as [|p|p] eqn:Hp;
    try lia.
  cbn [binary_normalize].
  pose proof (digits2_pos_ge p (9 - ez) ltac:(lia) ltac:(lia)) as Hd1.
  assert (Hlt : Zpos p < 2 ^ (57 - ez)).
  { rewrite H57. rewrite H56 in Hy.
    assert (527 < 2 ^ 57 - 2 ^ 56) by (vm_compute; reflexivity). nia. }
  pose proof (digits2_pos_le p (57 - ez) Hlt) as Hd2.
  destruct (to_size_t_round_small p ez ltac:(lia)) as (h & Hh & Hb).
  exists h. split; [exact Hh|].
  assert (2 ^ (Zpos (digits2_pos p) + ez) <= 2 ^ 57)
    by (apply Z.pow_le_mono_r; lia).
  lia.
Qed.

(** The first sum of the hash for a first bound between [-256] and [0]. *)
Lemma add_527_minus (m527 my : positive) (ey : Z) :
  Zpos m527 = 527 * 2 ^ (prec - 10) ->
  bounded prec emax my ey = true ->
  at_most_pow2 prec 8 my ey ->
  exists h,
    to_size_t (SFadd prec emax (S754_finite false m527 (10 - prec))
                 (S754_finite true my ey)) = Returns h /\
    2 ^ 8 <= h <= 2 ^ 10.
Proof.
  intros H527 Hby Hky.
  destruct (bounded_inv my ey Hby) as (Hdy & _ & _).
  assert (Hc : 0 < 2 ^ (prec - 10)) by (apply Z.pow_pos_nonneg; lia).
  rewrite add_finite. cbn [cond_Zopp].
  set (ez := Z.min (10 - prec) ey).
  assert (Hez : ez <= 10 - prec /\ ez <= ey) by (unfold ez; lia).
  assert (Hey8 : ey <= 8).
  { destruct Hky as [H|[H _]]; lia. }
  pose proof (at_most_pow2_scaled 8 my ey ez Hdy Hky ltac:(lia) ltac:(lia))
    as Hy.
  assert (Hpy : 0 < 2 ^ (ey - ez)) by (apply Z.pow_pos_nonneg; lia).
  assert (Hx : Zpos m527 * 2 ^ (10 - prec - ez) = 527 * 2 ^ (- ez)).
  { rewrite H527, <- Z.mul_assoc, <- Z.pow_add_r by lia. do 2 f_equal. lia. }
  rewrite Hx.
  assert (Hn : 0 < 2 ^ (- ez)) by (apply Z.pow_pos_nonneg; lia).
  assert (H8 : 2 ^ (8 - ez) = 256 * 2 ^ (- ez)).
  { replace (8 - ez) with (8 + - ez) by lia. rewrite Z.pow_add_r by lia.
    reflexivity. }
  assert (H10 : 2 ^ (10 - ez) = 1024 * 2 ^ (- ez)).
  { replace (10 - ez) with (10 + - ez) by lia. rewrite Z.pow_add_r by lia.
    reflexivity. }
  destruct (527 * 2 ^ (- ez) + - (Zpos my * 2 ^ (ey - ez))) as [|p|p] eqn:Hp;
    try lia.
  cbn [binary_normalize].
  pose proof (digits2_pos_ge p (8 - ez) ltac:(lia) ltac:(lia)) as Hd1.
  pose proof (digits2_pos_le p (10 - ez) ltac:(lia)) as Hd2.
  destruct (to_size_t_round_small p ez ltac:(lia)) as (h & Hh & Hb & Hl).
  exists h. split; [exact Hh|].
  assert (2 ^ (Zpos (digits2_pos p) + ez) <= 2 ^ 10)
    by (apply Z.pow_le_mono_r; lia).
  assert (2 ^ 8 <= 2 ^ (Zpos (digits2_pos p) + ez - 1))
    by (apply Z.pow_le_mono_r; lia).
  lia.
Qed.

(** The sum of a positive float of [prec] digits between [2^12] and [2^62]
    and a negative float of the format of magnitude at most [2^8]. *)
Lemma sub_small (mx my : positive) (ex ey : Z) :
  Zpos (digits2_pos mx) = prec ->
  13 <= prec + ex ->
  at_most_pow2 prec 62 mx ex ->
  bounded prec emax my ey = true ->
  at_most_pow2 prec 8 my ey ->
  exists h,
    to_size_t (SFadd prec emax (S754_finite false mx ex) (S754_finite true my ey))
      = Returns h.
Proof.
  intros Hdx Hex Hkx Hby Hky.
  destruct (bounded_inv my ey Hby) as (Hdy & _ & _).
  rewrite add_finite. cbn [cond_Zopp].
  set (ez := Z.min ex ey).
  assert (Hez : ez <= ex /\ ez <= ey) by (unfold ez; lia).
  assert (Hex62 : ex <= 62).
  { destruct Hkx as [H|[H _]]; lia. }
  assert (Hey8 : ey <= 8).
  { destruct Hky as [H|[H _]]; lia. }
  pose proof (at_most_pow2_scaled 62 mx ex ez ltac:(lia) Hkx ltac:(lia) ltac:(lia))
    as Hx.
  pose proof (at_most_pow2_scaled 8 my ey ez Hdy Hky ltac:(lia) ltac:(lia))
    as Hy.
  pose proof (digits2_pos_bounds mx) as Hmx. rewrite Hdx in Hmx.
  assert (Hpx : 0 < 2 ^ (ex - ez)) by (apply Z.pow_pos_nonneg; lia).
  assert (Hpy : 0 < 2 ^ (ey - ez)) by (apply Z.pow_pos_nonneg; lia).
  assert (Hlow : 2 ^ (12 - ez) <= Zpos mx * 2 ^ (ex - ez)).
  { assert (2 ^ (12 - ez) <= 2 ^ (prec - 1) * 2 ^ (ex - ez)).
    { rewrite <- Z.pow_add_r by lia. apply Z.pow_le_mono_r; lia. }
    nia. }
  assert (H12 : 2 ^ (12 - ez) = 2 * 2 ^ (11 - ez)).
  { replace (12 - ez) with (Z.succ (11 - ez)) by lia.
    apply Z.pow_succ_r. lia. }
  assert (H8 : 2 ^ (8 - ez) < 2 ^ (11 - ez)) by (apply Z.pow_lt_mono_r; lia).
  assert (H63 : 2 ^ (62 - ez) < 2 ^ (63 - ez)) by (apply Z.pow_lt_mono_r; lia).
  assert (0 < 2 ^ (8 - ez)) by (apply Z.pow_pos_nonneg; lia).
  destruct (Zpos mx * 2 ^ (ex - ez) + - (Zpos my * 2 ^ (ey - ez)))
    as [|p|p] eqn:Hp; try lia.
  cbn [binary_normalize].
  pose proof (digits2_pos_ge p (11 - ez) ltac:(lia) ltac:(lia)) as Hd1.
  pose proof (digits2_pos_le p (63 - ez) ltac:(lia)) as Hd2.
  destruct (to_size_t_round_small p ez ltac:(lia)) as (h & Hh & _).
  now exists h.
Qed.

End Normal.

End IEEE_sums.

(** * The two sums of the hash at a floating-point type *)

Module IEEE_hash.

Import IEEE.

Import IEEE_facts.

Import IEEE_sums.

Lemma format_bounds (k : float_kind) :
  1 < fprec k /\ 66 <= femax k /\ 10 < fprec k.
Proof. destruct k; simpl; lia. Qed.

Lemma of_int_527 (k : float_kind) :
  exists m,
    of_int k 527 = S754_finite false m (10 - fprec k) /\
    Zpos m = 527 * 2 ^ (fprec k - 10).
Proof. destruct k; eexists; split; reflexivity. Qed.

Lemma of_int_minus_528 (k : float_kind) :
  exists m,
    of_int k (-528) = S754_finite true m (10 - fprec k) /\
    Zpos m = 528 * 2 ^ (fprec k - 10).
Proof. destruct k; eexists; split; reflexivity. Qed.

Lemma of_int_pow64 (k : float_kind) :
  exists m,
    of_int k (2 ^ 64) = S754_finite false m (65 - fprec k) /\
    Zpos m = 2 ^ (fprec k - 1).
Proof. destruct k; eexists; split; reflexivity. Qed.

Lemma of_int_pow56 (k : float_kind) :
  exists m,
    of_int k (2 ^ 56) = S754_finite false m (57 - fprec k) /\
    Zpos m = 2 ^ (fprec k - 1).
Proof. destruct k; eexists; split; reflexivity. Qed.

(** The first sum of the hash, for a first bound that is [-528.0] or less. *)
Lemma size_t_plus_below (k : float_kind) (x : floating k) :
  valid_float k x = true ->
  SFleb x (of_int k (-528)) = true ->
  size_t_plus k 527 x = Undefined.
Proof.
  intros Hv Hle. destruct (format_bounds k) as (Hp & He & Hp10).
  destruct (of_int_527 k) as (m527 & E527 & H527).
  destruct (of_int_minus_528 k) as (m528 & E528 & H528).
  unfold size_t_plus. rewrite E527. rewrite E528 in Hle.
  destruct x as [s|s| |s my ey].
  - now destruct s.
  - destruct s; [reflexivity|discriminate].
  - discriminate.
  - destruct s; [|discriminate].
    apply (add_527_negative (fprec k) (femax k) Hp He Hp10); trivial.
    destruct (leb_finite_neg _ _ _ _ Hle) as [H|[H1 H2]]; [left; lia|right].
    split; [exact H1|lia].
Qed.

(** The conversion of a [std::size_t] to the floating-point type. *)
Lemma of_int_size_t (k : float_kind) (h : Z) :
  0 <= h < 2 ^ 64 ->
  (h = 0 /\ of_int k h = S754_zero false) \/
  (exists m e,
     0 < h /\
     of_int k h = S754_finite false m e /\
     Zpos (digits2_pos m) = fprec k /\
     1 - fprec k <= e <= 65 - fprec k /\
     (forall K, 0 <= K -> h <= 2 ^ K -> at_most_pow2 (fprec k) K m e) /\
     (forall K, 0 <= K -> 2 ^ K <= h -> K + 1 <= fprec k + e)).
Proof.
  intros Hh. destruct (format_bounds k) as (Hp & He & _).
  destruct h as [|p|p]; [left; split; reflexivity| |lia].
  right. destruct (of_int_finite k false p ltac:(lia)) as (m & e & Hr & Hd & Hb & Hv).
  exists m, e. split; [lia|]. split; [exact Hr|]. split; [exact Hd|].
  split; [exact Hb|].
  pose proof (rounded_bounds (fprec k) Hp p) as Hrb. cbv zeta in Hrb.
  pose proof (digits2_pos_bounds m) as Hm. rewrite Hd in Hm.
  assert (Hpp : 0 < 2 ^ fprec k) by (apply Z.pow_pos_nonneg; lia).
  split; [|intros K HK HhK;
           pose proof (digits2_pos_ge p K HK HhK) as HdK;
           assert (HV : 2 ^ K <= rounded (fprec k) p)
             by (assert (2 ^ K <= 2 ^ (Zpos (digits2_pos p) - 1))
                   by (apply Z.pow_le_mono_r; lia); lia);
           destruct (Z.le_gt_cases (K + 1) (fprec k + e)) as [Hc|Hc]; trivial;
           exfalso;
           assert (Hs : 2 ^ (e + fprec k) <= 2 ^ K)
             by (apply Z.pow_le_mono_r; lia);
           assert (0 < 2 ^ (e + fprec k)) by (apply Z.pow_pos_nonneg; lia);
           nia].
  intros K HK HhK.
  assert (HdK : Zpos (digits2_pos p) <= K + 1).
  { destruct (Z.eq_dec (Zpos p) (2 ^ K)) as [Heq|Hne].
    - rewrite (digits2_pos_unique p (K + 1)); [lia|].
      rewrite Heq. replace (K + 1 - 1) with K by lia. split; [lia|].
      apply Z.pow_lt_mono_r; lia.
    - assert (Zpos (digits2_pos p) <= K) by (apply digits2_pos_le; lia). lia. }
  assert (HV : rounded (fprec k) p <= 2 ^ K).
  { destruct (Z.eq_dec (Zpos p) (2 ^ K)) as [Heq|Hne].
    - pose proof (rounded_monotone (fprec k) Hp p p ltac:(lia)).
      unfold rounded.
      assert (Hdp : Zpos (digits2_pos p) = K + 1).
      { apply digits2_pos_unique. rewrite Heq.
        replace (K + 1 - 1) with K by lia. split; [lia|].
        apply Z.pow_lt_mono_r; lia. }
      rewrite Hdp.
      destruct (Z.leb_spec (K + 1) (fprec k)) as [Hs|Hs]; [lia|].
      assert (Hr0 : rne (Zpos p) (K + 1 - fprec k) = 2 ^ (fprec k - 1)).
      { unfold rne. cbv zeta. rewrite Heq.
        assert (Hsplit : 2 ^ K = 2 ^ (fprec k - 1) * 2 ^ (K + 1 - fprec k)).
        { rewrite <- Z.pow_add_r by lia. f_equal; lia. }
        assert (Hpos : 0 < 2 ^ (K + 1 - fprec k))
          by (apply Z.pow_pos_nonneg; lia).
        rewrite Hsplit, Z.div_mul, Z.mod_mul by lia.
        assert (Hh0 : 0 < 2 ^ (K + 1 - fprec k - 1))
          by (apply Z.pow_pos_nonneg; lia).
        replace (2 ^ (K + 1 - fprec k - 1) <? 0) with false
          by (symmetry; apply Z.ltb_ge; lia).
        replace (2 ^ (K + 1 - fprec k - 1) =? 0) with false
          by (symmetry; apply Z.eqb_neq; lia).
        reflexivity. }
      rewrite Hr0, <- Z.pow_add_r by lia.
      apply Z.pow_le_mono_r; lia.
    - assert (Zpos (digits2_pos p) <= K) by (apply digits2_pos_le; lia).
      assert (2 ^ Zpos (digits2_pos p) <= 2 ^ K) by (apply Z.pow_le_mono_r; lia).
      lia. }
  assert (Hle : Zpos m * 2 ^ (e + fprec k) <= 2 ^ (K + fprec k)).
  { rewrite Hv, Z.pow_add_r by lia. nia. }
  unfold at_most_pow2.
  destruct (Z.lt_trichotomy e (K + 1 - fprec k)) as [H|[H|H]]; [now left| |].
  - right. split; [exact H|].
    assert (Hs : 2 ^ (K + fprec k) = 2 ^ (fprec k - 1) * 2 ^ (e + fprec k)).
    { rewrite <- Z.pow_add_r by lia. f_equal; lia. }
    assert (0 < 2 ^ (e + fprec k)) by (apply Z.pow_pos_nonneg; lia).
    nia.
  - exfalso.
    assert (Hs : 2 ^ (K + fprec k + 1) <= 2 ^ (fprec k - 1) * 2 ^ (e + fprec k)).
    { rewrite <- Z.pow_add_r by lia. apply Z.pow_le_mono_r; lia. }
    assert (2 ^ (K + fprec k) < 2 ^ (K + fprec k + 1))
      by (apply Z.pow_lt_mono_r; lia).
    assert (0 < 2 ^ (e + fprec k)) by (apply Z.pow_pos_nonneg; lia).
    nia.
Qed.

(** The second sum of the hash, for a second bound that is [2^64] or
    more. *)
Lemma size_t_plus_above (k : float_kind) (h : Z) (x : floating k) :
  0 <= h < 2 ^ 64 ->
  valid_float k x = true ->
  SFleb (of_int k (2 ^ 64)) x = true ->
  size_t_plus k h x = Undefined.
Proof.
  intros Hh Hv Hle. destruct (format_bounds k) as (Hp & He & _).
  destruct (of_int_pow64 k) as (m64 & E64 & H64). rewrite E64 in Hle.
  assert (Hx : match x with
               | S754_infinity false => True
               | S754_finite false my ey =>
                   65 - fprec k < ey \/
                   (ey = 65 - fprec k /\ 2 ^ (fprec k - 1) <= Zpos my)
               | _ => False
               end).
  { destruct x as [s|s| |s my ey]; try discriminate.
    - now destruct s.
    - destruct s; [discriminate|].
      destruct (leb_finite_pos _ _ _ _ Hle) as [H|[H1 H2]];
        [left; lia|right; split; lia]. }
  unfold size_t_plus.
  destruct (of_int_size_t k h Hh) as [[_ ->]|(m & e & _ & -> & Hd & Hb & _ & _)].
  - destruct x as [s|[|]| |[|] my ey]; try contradiction; [reflexivity|].
    simpl in Hv. cbn [SFadd].
    now apply (to_size_t_at_least (fprec k) (femax k) Hp He).
  - destruct x as [s|[|]| |[|] my ey]; try contradiction; [reflexivity|].
    simpl in Hv.
    apply (add_large (fprec k) (femax k) Hp He); trivial. lia.
Qed.

Lemma of_int_pow8 (k : float_kind) :
  exists m,
    of_int k (-256) = S754_finite true m (9 - fprec k) /\
    Zpos m = 2 ^ (fprec k - 1).
Proof. destruct k; eexists; split; reflexivity. Qed.

(** The bounds of an ordered range between [-256] and [2^56]. *)
Lemma small_bounds (k : float_kind) (a b : floating k) :
  valid_float k a = true -> valid_float k b = true ->
  SFleb (of_int k (-256)) a = true ->
  SFleb a b = true ->
  SFleb b (of_int k (2 ^ 56)) = true ->
  small_bound k a /\ small_bound k b /\
  match a, b with
  | S754_finite true _ _, _ => True
  | _, S754_finite true _ _ => False
  | _, _ => True
  end.
Proof.
  intros Hva Hvb Hlo Hle Hhi.
  destruct (of_int_pow56 k) as (m56 & E56 & H56). rewrite E56 in Hhi.
  destruct (of_int_pow8 k) as (m8 & E8 & H8). rewrite E8 in Hlo.
  unfold valid_float in Hva, Hvb.
  destruct a as [sa|[|]| |[|] ma ea]; try discriminate;
    destruct b as [sb|[|]| |[|] mb eb]; try discriminate;
    (split; [|split]); cbn [small_bound]; try exact I;
    (split; [first [exact Hva|exact Hvb]|]);
    repeat match goal with
    | H : SFleb (S754_finite true _ _) (S754_finite true _ _) = true |- _ =>
        apply leb_finite_neg in H
    | H : SFleb (S754_finite false _ _) (S754_finite false _ _) = true |- _ =>
        apply leb_finite_pos in H
    end;
    unfold at_most_pow2; lia.
Qed.

(** The first sum of the hash for such a bound. *)
Lemma size_t_plus_first_small (k : float_kind) (x : floating k) :
  small_bound k x ->
  exists h,
    size_t_plus k 527 x = Returns h /\
    1 <= h <= 2 ^ 57 /\
    match x with S754_finite true _ _ => 2 ^ 8 <= h | _ => True end.
Proof.
  intros Hx. destruct (format_bounds k) as (Hp & He & Hp10).
  destruct (of_int_527 k) as (m527 & E527 & H527).
  unfold size_t_plus. rewrite E527.
  destruct x as [s|s| |[|] my ey]; try contradiction.
  - exists 527. split; [|split; [lia|exact I]]. rewrite <- E527. now destruct k.
  - destruct Hx as [Hb Hk].
    destruct (add_527_minus (fprec k) (femax k) Hp He Hp10 m527 my ey H527 Hb Hk)
      as (h & Hh & Hr).
    exists h. split; [exact Hh|].
    assert (2 ^ 10 < 2 ^ 57) by (vm_compute; reflexivity).
    assert (0 < 2 ^ 8) by (vm_compute; reflexivity).
    split; lia.
  - destruct Hx as [Hb Hk].
    destruct (add_527_small (fprec k) (femax k) Hp He Hp10 m527 my ey H527 Hb Hk)
      as (h & Hh & Hr).
    exists h. split; [exact Hh|]. split; [exact Hr|exact I].
Qed.

(** The second sum of the hash for such a bound. *)
Lemma size_t_plus_second_small (k : float_kind) (h : Z) (x : floating k) :
  1 <= h <= 2 ^ 62 ->
  small_bound k x ->
  match x with S754_finite true _ _ => 2 ^ 12 <= h | _ => True end ->
  exists h', size_t_plus k h x = Returns h'.
Proof.
  intros Hh Hx Hneg. destruct (format_bounds k) as (Hp & He & Hp10).
  assert (H62 : 2 ^ 62 < 2 ^ 64) by (vm_compute; reflexivity).
  unfold size_t_plus.
  destruct (of_int_size_t k h ltac:(lia))
    as [[H0 _]|(m & e & _ & -> & Hd & Hb & HK & HL)]; [lia|].
  specialize (HK 62 ltac:(lia) ltac:(lia)).
  destruct x as [s|s| |[|] my ey]; try contradiction.
  - cbn [SFadd].
    destruct (to_size_t_at_most (fprec k) (femax k) Hp He 62 m e
                ltac:(lia) ltac:(lia) HK) as (h' & Hh' & _).
    now exists h'.
  - destruct Hx as [Hby Hk].
    specialize (HL 12 ltac:(lia) Hneg).
    exact (sub_small (fprec k) (femax k) Hp He Hp10 m my e ey Hd HL HK Hby Hk).
  - destruct Hx as [Hby Hk].
    destruct (add_small (fprec k) (femax k) Hp He m my e ey Hd ltac:(lia) HK Hby Hk)
      as (h' & Hh' & _).
    now exists h'.
Qed.

(** The key of an ordered range between [-256] and [2^56] has a hash. *)
Lemma hash_pair_small (k : float_kind) (a b : floating k) :
  small_bound k a -> small_bound k b ->
  match a, b with
  | S754_finite true _ _, _ => True
  | _, S754_finite true _ _ => False
  | _, _ => True
  end ->
  returns (hash_pair (T := floating k) (a, b)) = true.
Proof.
  intros Ha Hb Hab. rewrite hash_pair_floating.
  change (to_size_t (SFadd (fprec k) (femax k) (of_int k 527) a))
    with (size_t_plus k 527 a).
  destruct (size_t_plus_first_small k a Ha) as (h1 & -> & Hh1 & Hn1).
  cbn [bind].
  assert (H57 : 31 * 2 ^ 57 < 2 ^ 62) by (vm_compute; reflexivity).
  assert (Hw : SizeT.wrap (h1 * 31) = h1 * 31).
  { unfold SizeT.wrap. apply Z.mod_small.
    change SizeT.modulus with (2 ^ 64).
    assert (2 ^ 62 < 2 ^ 64) by (vm_compute; reflexivity). lia. }
  rewrite Hw.
  change (to_size_t (SFadd (fprec k) (femax k) (of_int k (h1 * 31)) b))
    with (size_t_plus k (h1 * 31) b).
  destruct (size_t_plus_second_small k (h1 * 31) b ltac:(lia) Hb) as (h2 & ->);
    [|reflexivity].
  destruct b as [sb|sb| |[|] mb eb]; trivial.
  destruct a as [sa|sa| |[|] ma ea]; try contradiction.
  assert (2 ^ 12 < 31 * 2 ^ 8) by (vm_compute; reflexivity). lia.
Qed.

(** Such a range meets the precondition of [uniform_real_distribution]. *)
Lemma exact_small (k : float_kind) (x : floating k) :
  small_bound k x ->
  exists v,
    exact k x = Some v /\
    - 2 ^ (56 - emin (fprec k) (femax k)) <= v <=
      2 ^ (56 - emin (fprec k) (femax k)).
Proof.
  intros Hx. destruct (format_bounds k) as (Hp & He & _).
  assert (H0 : 0 < 2 ^ (56 - emin (fprec k) (femax k)))
    by (apply Z.pow_pos_nonneg; unfold emin; lia).
  destruct x as [s|s| |s m e]; try contradiction.
  - exists 0. split; [reflexivity|lia].
  - destruct Hx as [Hb Hk].
    destruct (bounded_inv (fprec k) (femax k) m e Hb) as (Hd & Hre & _).
    eexists. split; [reflexivity|].
    assert (Hk56 : at_most_pow2 (fprec k) 56 m e).
    { destruct s; [|exact Hk].
      destruct Hk as [H|[H _]]; left; lia. }
    assert (He56 : e <= 56).
    { destruct Hk56 as [H|[H _]]; lia. }
    pose proof (at_most_pow2_scaled (fprec k) Hp 56 m e
                  (emin (fprec k) (femax k)) Hd Hk56
                  ltac:(unfold emin; lia) ltac:(unfold emin; lia)) as Hs.
    assert (0 < 2 ^ (e - emin (fprec k) (femax k)))
      by (apply Z.pow_pos_nonneg; unfold emin; lia).
    destruct s; cbn [cond_Zopp]; lia.
Qed.

Lemma real_requires_small (k : float_kind) (a b : floating k) :
  small_bound k a -> small_bound k b ->
  SFleb a b = true ->
  real_requires k a b = true.
Proof.
  intros Ha Hb Hle. unfold real_requires. rewrite Hle. cbn [andb].
  destruct (exact_small k a Ha) as (va & -> & Hva).
  destruct (exact_small k b Hb) as (vb & -> & Hvb).
  apply Z.leb_le.
  destruct (format_bounds k) as (Hp & He & _).
  assert (Hmax : 2 ^ (57 - emin (fprec k) (femax k)) <= max_exact k).
  { unfold max_exact.
    assert (H1 : 2 ^ (fprec k - 1) <= 2 ^ fprec k - 1).
    { replace (fprec k) with (Z.succ (fprec k - 1)) at 2 by lia.
      rewrite Z.pow_succ_r by lia.
      assert (0 < 2 ^ (fprec k - 1)) by (apply Z.pow_pos_nonneg; lia). lia. }
    assert (H2 : 2 ^ (57 - emin (fprec k) (femax k)) <=
                 2 ^ (fprec k - 1) *
                 2 ^ (femax k - fprec k - emin (fprec k) (femax k))).
    { rewrite <- Z.pow_add_r by (unfold emin; lia).
      apply Z.pow_le_mono_r; unfold emin; lia. }
    assert (0 < 2 ^ (femax k - fprec k - emin (fprec k) (femax k)))
      by (apply Z.pow_pos_nonneg; unfold emin; lia).
    nia. }
  assert (Hd : 2 ^ (57 - emin (fprec k) (femax k)) =
               2 * 2 ^ (56 - emin (fprec k) (femax k))).
  { replace (57 - emin (fprec k) (femax k))
      with (Z.succ (56 - emin (fprec k) (femax k))) by lia.
    apply Z.pow_succ_r. unfold emin. lia. }
  lia.
Qed.


(** The cast of a 64-bit integer is a value of the format. *)
Lemma of_int_valid (k : float_kind) (z : Z) :
  - 2 ^ 64 < z < 2 ^ 64 ->
  valid_float k (of_int k z) = true.
Proof.
  intros Hz. destruct (format_bounds k) as (Hp & He & _).
  assert (Hfin : forall s m, Zpos m < 2 ^ 64 ->
            valid_float k (binary_round (fprec k) (femax k) s m 0) = true).
  { intros s m Hm.
    destruct (of_int_finite k s m Hm) as (mant & e & -> & Hd & Hb & _).
    unfold valid_float, valid_binary, bounded, canonical_mantissa, fexp, emin.
    rewrite Hd. apply andb_true_intro. split.
    - apply Z.eqb_eq. lia.
    - apply Z.leb_le. lia. }
  unfold of_int, lit, binary_normalize.
  destruct z as [|m|m]; [reflexivity| |]; apply Hfin; lia.
Qed.

End IEEE_hash.

(** * Floating-point ranges that can and cannot be hashed *)

(** A first bound of [-528.0] or less makes the first sum of the hash
    [-1.0] or less. *)
Lemma hash_pair_below (k : float_kind) (min max : floating k) :
  valid_float k min = true ->
  SFleb min (IEEE.of_int k (-528)) = true ->
  hash_pair (T := floating k) (min, max) = Undefined.
Proof.
  intros Hv Hle. rewrite hash_pair_floating.
  change (IEEE.to_size_t (SFadd (fprec k) (femax k) (IEEE.of_int k 527) min))
    with (IEEE.size_t_plus k 527 min).
  now rewrite (IEEE_hash.size_t_plus_below k min Hv Hle).
Qed.

(** A second bound of [2^64] or more makes the second sum of the hash
    [2^64] or more. *)
Lemma hash_pair_above (k : float_kind) (min max : floating k) :
  valid_float k max = true ->
  SFleb (IEEE.of_int k (2 ^ 64)) max = true ->
  hash_pair (T := floating k) (min, max) = Undefined.
Proof.
  intros Hv Hle. rewrite hash_pair_floating.
  destruct (IEEE.to_size_t (SFadd (fprec k) (femax k) (IEEE.of_int k 527) min))
    as [h1|]; [|reflexivity].
  cbn [bind].
  change (IEEE.to_size_t
            (SFadd (fprec k) (femax k) (IEEE.of_int k (SizeT.wrap (h1 * 31))) max))
    with (IEEE.size_t_plus k (SizeT.wrap (h1 * 31)) max).
  rewrite (IEEE_hash.size_t_plus_above k (SizeT.wrap (h1 * 31)) max); trivial.
  unfold SizeT.wrap. change SizeT.modulus with (2 ^ 64).
  apply Z.mod_pos_bound. reflexivity.
Qed.

(** At a floating-point [T], every range whose lower bound is [-528.0] or
    less is undefined for [get_rand] and [rand], in every state and with
    every standard library: [hash_pair] adds the bound to [527.0] and
    converts the sum, which is [-1.0] or less, to [std::size_t]. *)
Theorem floating_min_below_undefined
    (k : float_kind) (E : Type) (SR : StdRandom E (floating k))
    (w : world E (floating k)) (min max : floating k) :
  valid_float k min = true ->
  SFleb min (IEEE.of_int k (-528)) = true ->
  hash_pair (min, max) = Undefined /\
  get_rand min max w = Undefined /\
  rand min max w = Undefined.
Proof.
  intros Hv Hle.
  pose proof (hash_pair_below k min max Hv Hle) as Hh.
  split; [exact Hh|]. now apply get_rand_unhashable.
Qed.

(** The theorem on [get_rand(-1000.0, 0.0)] and [rand(-1000.0, 0.0)]. *)
Lemma floating_min_below_undefined_witness :
  get_rand (T := floating Double)
    (IEEE.of_int Double (-1000)) (IEEE.of_int Double 0)
    (initial Z (floating Double) 0) = Undefined /\
  rand (T := floating Double)
    (IEEE.of_int Double (-1000)) (IEEE.of_int Double 0)
    (initial Z (floating Double) 0) = Undefined.
Proof.
  assert (Hv : valid_float Double (IEEE.of_int Double (-1000)) = true) by reflexivity.
  assert (Hle : SFleb (IEEE.of_int Double (-1000)) (IEEE.of_int Double (-528))
                = true) by reflexivity.
  exact (proj2 (floating_min_below_undefined Double Z _
                  (initial Z (floating Double) 0)
                  (IEEE.of_int Double (-1000)) (IEEE.of_int Double 0) Hv Hle)).
Defined.

(** At a floating-point [T], every range whose upper bound is [2^64] or
    more is undefined for [get_rand] and [rand]: the second sum of
    [hash_pair] is [2^64] or more, which is not a value of
    [std::size_t]. *)
Theorem floating_max_above_undefined
    (k : float_kind) (E : Type) (SR : StdRandom E (floating k))
    (w : world E (floating k)) (min max : floating k) :
  valid_float k max = true ->
  SFleb (IEEE.of_int k (2 ^ 64)) max = true ->
  hash_pair (min, max) = Undefined /\
  get_rand min max w = Undefined /\
  rand min max w = Undefined.
Proof.
  intros Hv Hle.
  pose proof (hash_pair_above k min max Hv Hle) as Hh.
  split; [exact Hh|]. now apply get_rand_unhashable.
Qed.

(** The theorem on [get_rand(0.f, 2^100)] and [rand(0.f, 2^100)]. *)
Lemma floating_max_above_undefined_witness :
  get_rand (T := floating Float)
    (IEEE.of_int Float 0) (IEEE.lit Float 1 100)
    (initial Z (floating Float) 0) = Undefined /\
  rand (T := floating Float)
    (IEEE.of_int Float 0) (IEEE.lit Float 1 100)
    (initial Z (floating Float) 0) = Undefined.
Proof.
  assert (Hv : valid_float Float (IEEE.lit Float 1 100) = true) by reflexivity.
  assert (Hle : SFleb (IEEE.of_int Float (2 ^ 64)) (IEEE.lit Float 1 100)
                = true) by reflexivity.
  exact (proj2 (floating_max_above_undefined Float Z _
                  (initial Z (floating Float) 0)
                  (IEEE.of_int Float 0) (IEEE.lit Float 1 100) Hv Hle)).
Defined.

(** At a floating-point [T], for every range
    [-256 <= min <= max <= 2^56], [rand(min, max)] returns a value between
    the bounds, and [get_rand(min, max)] returns a closure whose [n]
    successive calls return [n] values between the bounds, in every state
    of the process: the key has a hash and the bounds meet the precondition
    of the distribution. *)
Theorem floating_small_range_defined
    (k : float_kind) (E : Type) (SR : StdRandom E (floating k))
    (SL : StdRandomLaws E (floating k))
    (w : world E (floating k)) (cs : list (sampler (floating k)))
    (min max : floating k) :
  reachable w cs ->
  valid_float k min = true -> valid_float k max = true ->
  SFleb (IEEE.of_int k (-256)) min = true ->
  SFleb min max = true ->
  SFleb max (IEEE.of_int k (2 ^ 56)) = true ->
  (exists v w',
     rand min max w = Returns (v, w') /\
     SFleb min v = true /\ SFleb v max = true) /\
  (exists f w1,
     get_rand min max w = Returns (f, w1) /\
     forall n, exists vs w',
       invoke_n f n w1 = Returns (vs, w') /\
       length vs = n /\
       Forall (fun v => SFleb min v = true /\ SFleb v max = true) vs).
Proof.
  intros Hr Hvmin Hvmax Hlo Hle Hhi.
  destruct (IEEE_hash.small_bounds k min max Hvmin Hvmax Hlo Hle Hhi)
    as (Ha & Hb & Hab).
  pose proof (IEEE_hash.hash_pair_small k min max Ha Hb Hab) as Hh.
  assert (Hd : dist_requires (T := floating k) min max = true)
    by now apply IEEE_hash.real_requires_small.
  split.
  - destruct (rand_in_range w cs min max (reachable_invariant w cs Hr) Hd Hh)
      as (v & w' & H & Hv & _).
    exists v, w'. split; [exact H|exact Hv].
  - destruct (sampler_in_range w cs min max Hr Hd Hh) as (f & w1 & Hg & Hn & _).
    exists f, w1. split; [exact Hg|exact Hn].
Qed.

(** The theorem on [rand(-100.f, 100.f)] and [get_rand(-100.f, 100.f)] in a
    fresh process. *)
Lemma floating_small_range_defined_witness :
  let min := IEEE.of_int Float (-100) in
  let max := IEEE.of_int Float 100 in
  (exists v w',
     rand (T := floating Float) min max (initial Z (floating Float) 0) =
       Returns (v, w') /\
     SFleb min v = true /\ SFleb v max = true) /\
  (exists f w1,
     get_rand (T := floating Float) min max (initial Z (floating Float) 0) =
       Returns (f, w1) /\
     forall n, exists vs w',
       invoke_n f n w1 = Returns (vs, w') /\
       length vs = n /\
       Forall (fun v => SFleb min v = true /\ SFleb v max = true) vs).
Proof.
  intros min max.
  assert (Hvmin : valid_float Float min = true) by reflexivity.
  assert (Hvmax : valid_float Float max = true) by reflexivity.
  assert (Hlo : SFleb (IEEE.of_int Float (-256)) min = true) by reflexivity.
  assert (Hle : SFleb min max = true) by reflexivity.
  assert (Hhi : SFleb max (IEEE.of_int Float (2 ^ 56)) = true) by reflexivity.
  exact (floating_small_range_defined Float Z _ _
           (initial Z (floating Float) 0) [] min max
           (reachable_initial 0) Hvmin Hvmax Hlo Hle Hhi).
Defined.

(** The members [actual_min] and [actual_max] of [range<T>] at a
    floating-point [T]. *)
Lemma actual_range_floating (k : float_kind) :
  valid_float k (actual_min (T := floating k)) = true /\
  valid_float k (actual_max (T := floating k)) = true /\
  SFltb (S754_zero false) (actual_min (T := floating k)) = true /\
  dist_requires (T := floating k) actual_min actual_max = true /\
  SFleb (IEEE.of_int k (2 ^ 64)) (actual_max (T := floating k)) = true.
Proof. destruct k; vm_compute; repeat split. Qed.

(** The range [(range<T>::actual_min, range<T>::actual_max)] through the
    function-parameter form.  At an integral [T], [rand] returns a value of
    the full range of [T].  At a floating-point [T], [actual_min] is
    positive, the range is ordered and meets the precondition of the
    distribution, and [get_rand] and [rand] are undefined all the same:
    [actual_max] is above [2^64] and the key has no hash. *)
Theorem actual_range_by_function_form :
  (forall (k : int_kind) (E : Type) (SR : StdRandom E (integer k))
          (SL : StdRandomLaws E (integer k))
          (w : world E (integer k)) (cs : list (sampler (integer k))),
     reachable w cs ->
     exists v w',
       rand (T := integer k) actual_min actual_max w = Returns (v, w') /\
       numeric_limits_min k <= v <= numeric_limits_max k) /\
  (forall (k : float_kind),
     SFltb (S754_zero false) (actual_min (T := floating k)) = true /\
     SFleb (actual_min (T := floating k)) (actual_max (T := floating k)) = true /\
     dist_requires (T := floating k) actual_min actual_max = true) /\
  (forall (k : float_kind) (E : Type) (SR : StdRandom E (floating k))
          (w : world E (floating k)),
     get_rand (T := floating k) actual_min actual_max w = Undefined /\
     rand (T := floating k) actual_min actual_max w = Undefined).
Proof.
  split; [|split].
  - intros k E SR SL w cs Hr.
    apply rand_integer_in_range with (cs := cs); trivial.
    apply Z.leb_le. apply numeric_limits_ordered.
  - intros k. destruct (actual_range_floating k) as (_ & _ & H0 & Hd & _).
    split; [exact H0|]. split; [|exact Hd].
    exact (dist_requires_le (T := floating k) _ _ Hd).
  - intros k E SR w.
    destruct (actual_range_floating k) as (_ & Hv & _ & _ & Hle).
    apply get_rand_unhashable. now apply hash_pair_above.
Qed.

(** The theorem on [rand(INT_MIN, INT_MAX)] in a fresh process. *)
Lemma actual_range_by_function_form_witness :
  exists v w',
    rand (T := integer Int) actual_min actual_max (initial Z (integer Int) 0) =
      Returns (v, w') /\
    numeric_limits_min Int <= v <= numeric_limits_max Int.
Proof.
  exact (proj1 actual_range_by_function_form Int Z _ _
           (initial Z (integer Int) 0) [] (reachable_initial 0)).
Defined.

(** * The template-parameter form against the function-parameter form *)





(** * The statics of the template-parameter form *)

(** At a floating-point [T] the template-parameter form and the
    function-parameter form are not interchangeable.  For template arguments
    [min <= max] with [min <= -528], [rand<T, min, max>()] returns a value
    between the casts of its arguments, while [rand(T(min), T(max))] and
    [get_rand(T(min), T(max))] are undefined: only the function-parameter
    form hashes its bounds.  For [-256 <= min <= max <= 2^56] both forms
    return a value between the casts. *)
Theorem template_form_defined_where_function_form_is_not :
  (forall (k : float_kind) (E : Type) (SR : StdRandom E (floating k))
          (SL : StdRandomLaws E (floating k))
          (w : world E (floating k)) (cs : list (sampler (floating k)))
          (min max : Z),
     reachable w cs ->
     - 2 ^ 63 <= min -> min <= -528 -> min <= max -> max <= 2 ^ 63 - 1 ->
     (exists v w',
        rand_tpl min max w = Returns (v, w') /\
        SFleb (IEEE.of_int k min) v = true /\
        SFleb v (IEEE.of_int k max) = true) /\
     rand (T := floating k) (IEEE.of_int k min) (IEEE.of_int k max) w =
       Undefined /\
     get_rand (T := floating k) (IEEE.of_int k min) (IEEE.of_int k max) w =
       Undefined) /\
  (forall (k : float_kind) (E : Type) (SR : StdRandom E (floating k))
          (SL : StdRandomLaws E (floating k))
          (w : world E (floating k)) (cs : list (sampler (floating k)))
          (min max : Z),
     reachable w cs ->
     -256 <= min -> min <= max -> max <= 2 ^ 56 ->
     (exists v w',
        rand_tpl min max w = Returns (v, w') /\
        SFleb (IEEE.of_int k min) v = true /\
        SFleb v (IEEE.of_int k max) = true) /\
     (exists v w',
        rand (T := floating k) (IEEE.of_int k min) (IEEE.of_int k max) w =
          Returns (v, w') /\
        SFleb (IEEE.of_int k min) v = true /\
        SFleb v (IEEE.of_int k max) = true)).
Proof.
  assert (H63 : 2 ^ 63 < 2 ^ 64) by (vm_compute; reflexivity).
  assert (H56 : 2 ^ 56 < 2 ^ 63) by (vm_compute; reflexivity).
  assert (Hle_cast : forall k a b,
            - 2 ^ 63 <= a -> a <= b -> b <= 2 ^ 63 - 1 ->
            SFleb (IEEE.of_int k a) (IEEE.of_int k b) = true).
  { intros k a b Ha Hab Hb.
    pose proof (IEEE_facts.of_int_requires k a b Ha Hab Hb) as H.
    unfold IEEE.real_requires in H. now apply andb_prop in H. }
  split.
  - intros k E SR SL w cs min max Hr Hlo H528 Hle Hhi.
    pose proof (reachable_invariant w cs Hr) as Hinv.
    assert (Hd : dist_requires (T := floating k)
                   (IEEE.of_int k min) (IEEE.of_int k max) = true)
      by now apply IEEE_facts.of_int_requires.
    split.
    + destruct (rand_tpl_in_range (T := floating k) w cs min max Hinv Hd)
        as (v & w' & H & Hv & _).
      exists v, w'. split; [exact H|exact Hv].
    + assert (Hh : hash_pair (T := floating k)
                     (IEEE.of_int k min, IEEE.of_int k max) = Undefined).
      { apply hash_pair_below.
        - apply IEEE_hash.of_int_valid. lia.
        - apply Hle_cast; lia. }
      destruct (get_rand_unhashable (SR := SR) _ _ w Hh) as [Hg Hrd].
      split; [exact Hrd|exact Hg].
  - intros k E SR SL w cs min max Hr Hlo Hle Hhi.
    pose proof (reachable_invariant w cs Hr) as Hinv.
    assert (Hd : dist_requires (T := floating k)
                   (IEEE.of_int k min) (IEEE.of_int k max) = true)
      by (apply IEEE_facts.of_int_requires; lia).
    split.
    + destruct (rand_tpl_in_range (T := floating k) w cs min max Hinv Hd)
        as (v & w' & H & Hv & _).
      exists v, w'. split; [exact H|exact Hv].
    + destruct (IEEE_hash.small_bounds k (IEEE.of_int k min) (IEEE.of_int k max))
        as (Ha & Hb & Hab);
        try (apply IEEE_hash.of_int_valid; lia);
        try (apply Hle_cast; lia).
      pose proof (IEEE_hash.hash_pair_small k _ _ Ha Hb Hab) as Hh.
      destruct (rand_in_range w cs _ _ Hinv Hd Hh) as (v & w' & H & Hv & _).
      exists v, w'. split; [exact H|exact Hv].
Qed.

(** The theorem on [rand<double, -1000, 3>()] against [rand(-1000., 3.)] in
    a fresh process. *)
Lemma template_form_defined_where_function_form_is_not_witness :
  (exists v w',
     rand_tpl (T := floating Double) (-1000) 3 (initial Z (floating Double) 0) =
       Returns (v, w') /\
     SFleb (IEEE.of_int Double (-1000)) v = true /\
     SFleb v (IEEE.of_int Double 3) = true) /\
  rand (T := floating Double)
    (IEEE.of_int Double (-1000)) (IEEE.of_int Double 3)
    (initial Z (floating Double) 0) = Undefined /\
  get_rand (T := floating Double)
    (IEEE.of_int Double (-1000)) (IEEE.of_int Double 3)
    (initial Z (floating Double) 0) = Undefined.
Proof.
  assert (Hlo : - 2 ^ 63 <= -1000) by lia.
  assert (H528 : -1000 <= -528) by lia.
  assert (Hle : -1000 <= 3) by lia.
  assert (Hhi : 3 <= 2 ^ 63 - 1) by lia.
  exact (proj1 template_form_defined_where_function_form_is_not Double Z _ _
           (initial Z (floating Double) 0) [] (-1000) 3
           (reachable_initial 0) Hlo H528 Hle Hhi).
Defined.

Section TemplateStatics.

Context {E T : Type} {AT : Arith T} {SR : StdRandom E T}.

Context {AL : ArithLaws T} {SL : StdRandomLaws E T}.

Lemma instantiation_kept_step (w w' : world E T) (cs cs' : list (sampler T))
    (key : Z * Z) (st : rand_statics E T) :
  invariant w cs -> step w cs w' cs' ->
  instantiation key (rand_impl_statics w) = Some st ->
  exists st',
    instantiation key (rand_impl_statics w') = Some st' /\
    tpl_generator st' = tpl_generator st /\
    tpl_seed_time st' = tpl_seed_time st.
Proof.
  intros Hinv Hstep Hi.
  destruct (step_effect w w' cs cs' Hinv Hstep)
    as [(min & max & ->) | [(d & _ & ->) | [(min & max & d & ->) | (min & max & ->)]]].
  - exists st. rewrite (proj2 (fn_seed_after_get_rand min max w)). auto.
  - exists st. rewrite (proj2 (fn_seed_after_invoke d w)). auto.
  - exists st. rewrite (proj2 (fn_seed_after_invoke d _)).
    rewrite (proj2 (fn_seed_after_get_rand min max w)). auto.
  - unfold after_rand_tpl. cbn [rand_impl_statics].
    destruct (Z.eq_dec (fst key) min) as [H1|H1];
      [destruct (Z.eq_dec (snd key) max) as [H2|H2]|].
    + assert (Hk : key = (min, max)) by (destruct key; simpl in *; congruence).
      subst key. rewrite instantiation_set_same.
      eexists. split; [reflexivity|].
      unfold tpl_statics_after. rewrite Hi. split; reflexivity.
    + exists st. rewrite instantiation_set_other; [auto|].
      intros ->. now simpl in H2.
    + exists st. rewrite instantiation_set_other; [auto|].
      intros ->. now simpl in H1.
Qed.

Lemma instantiation_kept (w w' : world E T) (cs cs' : list (sampler T))
    (key : Z * Z) (st : rand_statics E T) :
  invariant w cs -> steps w cs w' cs' ->
  instantiation key (rand_impl_statics w) = Some st ->
  exists st',
    instantiation key (rand_impl_statics w') = Some st' /\
    tpl_generator st' = tpl_generator st /\
    tpl_seed_time st' = tpl_seed_time st.
Proof.
  intros Hinv Hs Hi.
  induction Hs as [w cs | w cs w1 cs1 w2 cs2 Hs IH Hstep].
  - exists st. auto.
  - destruct (IH Hinv Hi) as (st1 & Hi1 & Hg1 & Hs1).
    destruct (invariant_steps w w1 cs cs1 Hinv Hs) as (Hinv1 & _).
    destruct (instantiation_kept_step w1 w2 cs1 cs2 key st1 Hinv1 Hstep Hi1)
      as (st2 & Hi2 & Hg2 & Hs2).
    exists st2. split; [exact Hi2|]. split; congruence.
Qed.

End TemplateStatics.

(** The statics of an instantiation [rand_impl<T, min, max>] that has
    run: the distribution is the one built from the casts of [min] and
    [max], which met its precondition, and over any run the instantiation
    keeps that distribution and its seed. *)
Theorem template_statics_fixed
    (E T : Type) (AT : Arith T) (SR : StdRandom E T)
    (AL : ArithLaws T) (SL : StdRandomLaws E T)
    (w : world E T) (cs : list (sampler T))
    (min max : Z) (st : rand_statics E T) :
  reachable w cs ->
  instantiation (min, max) (rand_impl_statics w) = Some st ->
  tpl_generator st = mk_distribution (of_value_type min) (of_value_type max) /\
  dist_requires (of_value_type min) (of_value_type max) = true /\
  forall w' cs',
    steps w cs w' cs' ->
    exists st',
      instantiation (min, max) (rand_impl_statics w') = Some st' /\
      tpl_generator st' = tpl_generator st /\
      tpl_seed_time st' = tpl_seed_time st.
Proof.
  intros Hr Hi. pose proof (reachable_invariant w cs Hr) as Hinv.
  destruct Hinv as [H1 H2 H3 H4].
  destruct (instantiation_found _ _ _ Hi H4) as [Hg Hd]. simpl in Hg, Hd.
  split; [exact Hg|]. split; [exact Hd|].
  intros w' cs' Hs.
  exact (instantiation_kept w w' cs cs' (min, max) st
           (reachable_invariant w cs Hr) Hs Hi).
Qed.

(** The theorem after [rand<double, -2, 3>()] in a fresh process. *)
Lemma template_statics_fixed_witness :
  let w := after_rand_tpl (T := floating Double) (-2) 3
             (initial Z (floating Double) 0) in
  exists st,
    instantiation (-2, 3) (rand_impl_statics w) = Some st /\
    tpl_generator st =
      mk_distribution (IEEE.of_int Double (-2)) (IEEE.of_int Double 3) /\
    forall w' cs',
      steps w [] w' cs' ->
      exists st',
        instantiation (-2, 3) (rand_impl_statics w') = Some st' /\
        tpl_generator st' = tpl_generator st /\
        tpl_seed_time st' = tpl_seed_time st.
Proof.
  intros w.
  assert (Hr : reachable w []).
  { apply reachable_step with (w := initial Z (floating Double) 0) (cs := []);
      [apply reachable_initial|].
    apply step_rand_tpl
      with (min := -2) (max := 3)
           (v := tpl_value (T := floating Double) (-2) 3
                   (initial Z (floating Double) 0)).
    vm_compute. reflexivity. }
  eexists. split; [vm_compute; reflexivity|].
  match goal with
  | |- tpl_generator ?st = _ /\ _ =>
      assert (Hi : instantiation (-2, 3) (rand_impl_statics w) = Some st)
        by (vm_compute; reflexivity);
      pose proof (template_statics_fixed Z (floating Double) _ _ _ _
                    w [] (-2) 3 st Hr Hi) as (Hg & _ & Hk)
  end.
  split; [exact Hg|exact Hk].
Defined.

(** * The example program *)

Section Effects.

Context {E T : Type} {AT : Arith T} {SR : StdRandom E T}.

Context {AL : ArithLaws T} {SL : StdRandomLaws E T}.

Lemma invariant_with_clock (reads : nat) (w : world E T) (cs : list (sampler T)) :
  invariant w cs -> invariant (with_clock reads w) cs.
Proof. intros [H1 H2 H3 H4]. split; assumption. Qed.

Lemma call_returns {A : Type} (c : world E T -> outcome (A * world E T))
    (reads : nat) (w w' : world E T) (a : A) :
  c (with_clock reads w) = Returns (a, w') ->
  call c reads w = Returns (a, clock_reads w', w').
Proof. intros H. unfold call. now rewrite H. Qed.

Lemma get_rand_effect (w : world E T) (cs : list (sampler T)) (min max : T) :
  invariant w cs ->
  dist_requires min max = true ->
  returns (hash_pair (min, max)) = true ->
  exists w',
    get_rand min max w = Returns (mk_sampler (min, max), w') /\
    invariant w' (mk_sampler (min, max) :: cs) /\
    get_rand_impl_statics w' <> None /\
    rand_impl_statics w' = rand_impl_statics w /\
    clock_reads w' =
      (clock_reads w +
       match get_rand_impl_statics w with Some _ => 0 | None => 1 end)%nat.
Proof.
  intros Hinv Hd Hh.
  pose proof (get_rand_impl_returns min max w Hd Hh) as Hg.
  destruct (invariant_get_rand w _ cs min max _ Hinv Hg) as [Hinv1 _].
  exists (after_get_rand min max w). split; [exact Hg|]. split; [exact Hinv1|].
  unfold after_get_rand, get_rand_impl_init.
  destruct (get_rand_impl_statics w); simpl;
    (split; [discriminate|split; [reflexivity|lia]]).
Qed.

Lemma invoke_effect (w : world E T) (cs : list (sampler T)) (f : sampler T) :
  invariant w cs -> In f cs ->
  exists v w',
    invoke f w = Returns (v, w') /\
    in_range (captured_key f) v /\
    invariant w' cs /\
    get_rand_impl_statics w' <> None /\
    rand_impl_statics w' = rand_impl_statics w /\
    clock_reads w' = clock_reads w.
Proof.
  intros Hinv Hf.
  destruct (invoke_in_range w cs f Hinv Hf) as (v & w' & Hi & Hv & Hinv' & _).
  exists v, w'. split; [exact Hi|]. split; [exact Hv|]. split; [exact Hinv'|].
  destruct (invoke_held w cs f Hinv Hf) as (st & i & d & Hst & _ & _ & _ & _ & Hi').
  rewrite Hi' in Hi. injection Hi as _ <-.
  unfold after_invoke. rewrite Hst. simpl.
  split; [discriminate|split; reflexivity].
Qed.

Lemma invoke_n_effect (f : sampler T) (n : nat) :
  forall (w : world E T) (cs : list (sampler T)),
  invariant w cs -> In f cs ->
  exists vs w',
    invoke_n f n w = Returns (vs, w') /\
    length vs = n /\
    Forall (in_range (captured_key f)) vs /\
    invariant w' cs /\
    rand_impl_statics w' = rand_impl_statics w /\
    clock_reads w' = clock_reads w.
Proof.
  induction n as [|n IH]; intros w cs Hinv Hf; simpl.
  - exists [], w. split; [reflexivity|]. split; [reflexivity|].
    split; [constructor|]. split; [exact Hinv|]. split; reflexivity.
  - destruct (invoke_effect w cs f Hinv Hf)
      as (v & w1 & Hi & Hv & Hinv1 & _ & Hs1 & Hc1).
    destruct (IH w1 cs Hinv1 Hf) as (vs & w2 & Hn & Hlen & Hall & Hinv2 & Hs2 & Hc2).
    exists (v :: vs), w2. rewrite Hi. simpl. rewrite Hn. simpl.
    split; [reflexivity|]. split; [now rewrite Hlen|].
    split; [now constructor|]. split; [exact Hinv2|].
    split; congruence.
Qed.

Lemma rand_effect (w : world E T) (cs : list (sampler T)) (min max : T) :
  invariant w cs ->
  dist_requires min max = true ->
  returns (hash_pair (min, max)) = true ->
  exists v w',
    rand min max w = Returns (v, w') /\
    in_range (min, max) v /\
    invariant w' cs /\
    get_rand_impl_statics w' <> None /\
    rand_impl_statics w' = rand_impl_statics w /\
    clock_reads w' =
      (clock_reads w +
       match get_rand_impl_statics w with Some _ => 0 | None => 1 end)%nat.
Proof.
  intros Hinv Hd Hh.
  destruct (get_rand_effect w cs min max Hinv Hd Hh)
    as (w1 & Hg & Hinv1 & _ & Hs1 & Hc1).
  destruct (invoke_effect w1 _ (mk_sampler (min, max)) Hinv1 (or_introl eq_refl))
    as (v & w' & Hi & Hv & Hinv' & Hn' & Hs' & Hc').
  exists v, w'. unfold rand, rand_impl. unfold get_rand in Hg. rewrite Hg.
  cbn [bind]. split; [exact Hi|]. split; [exact Hv|].
  split; [now apply invariant_weaken with (f := mk_sampler (min, max))|].
  split; [exact Hn'|]. split; congruence.
Qed.

Lemma rand_tpl_effect (w : world E T) (cs : list (sampler T)) (min max : Z) :
  invariant w cs ->
  dist_requires (of_value_type min) (of_value_type max) = true ->
  exists v w',
    rand_tpl min max w = Returns (v, w') /\
    in_range (of_value_type min, of_value_type max) v /\
    invariant w' cs /\
    get_rand_impl_statics w' = get_rand_impl_statics w /\
    clock_reads w' =
      (clock_reads w +
       match instantiation (min, max) (rand_impl_statics w) with
       | Some _ => 0
       | None => 1
       end)%nat.
Proof.
  intros Hinv Hd.
  destruct (rand_tpl_in_range w cs min max Hinv Hd) as (v & w' & H & Hv & Hinv').
  exists v, w'. split; [exact H|]. split; [exact Hv|]. split; [exact Hinv'|].
  destruct Hinv as [_ _ _ H4].
  destruct (rand_impl_tpl_inv min max w _ _ H4 H) as (_ & _ & ->).
  unfold after_rand_tpl. simpl. split; [reflexivity|].
  destruct (instantiation (min, max) (rand_impl_statics w)); simpl; lia.
Qed.

End Effects.

(** The example program runs to its end with every standard library that
    meets its contract: no call of it is undefined, every number it prints
    lies in the range its comment gives, the vector it fills has between 5
    and 1000 elements, and the clock is read five times, once for each of
    the five engines. *)
Theorem main_prints_in_range
    (E : Type)
    (SRs : StdRandom E (integer Short)) (SRi : StdRandom E (integer Int))
    (SRf : StdRandom E (floating Float)) (SRd : StdRandom E (floating Double))
    (SLs : @StdRandomLaws E (integer Short) _ SRs)
    (SLi : @StdRandomLaws E (integer Int) _ SRi)
    (SLf : @StdRandomLaws E (floating Float) _ SRf)
    (SLd : @StdRandomLaws E (floating Double) _ SRd)
    (n0 : nat) :
  exists p,
    main SRs SRi SRf SRd n0 = Returns (p, (n0 + 5)%nat) /\
    1 <= line1 p <= 6 /\
    length (line2 p) = 4%nat /\
    Forall (fun v => 1 <= v <= 12) (line2 p) /\
    in_range (lit_3_14, IEEE.of_int Double 42) (line3 p) /\
    in_range (IEEE.of_int Double (-16), IEEE.of_int Double 64) (line4 p) /\
    -32768 <= line5 p <= 32767 /\
    in_range (IEEE.of_int Double (-2), IEEE.of_int Double 3) (line6 p) /\
    (5 <= length (line7 p) <= 1000)%nat /\
    Forall (in_range (IEEE.of_int Float (-100), IEEE.of_int Float 100))
      (line7 p).
Proof.
  unfold main.
  assert (Hd16 : dist_requires (T := integer Int) 1 6 = true) by reflexivity.
  assert (Hh16 : returns (hash_pair (T := integer Int) (1, 6)) = true)
    by reflexivity.
  assert (Hd112 : dist_requires (T := integer Int) 1 12 = true) by reflexivity.
  assert (Hh112 : returns (hash_pair (T := integer Int) (1, 12)) = true)
    by reflexivity.
  assert (Hd5k : dist_requires (T := integer Int) 5 1000 = true) by reflexivity.
  assert (Hh5k : returns (hash_pair (T := integer Int) (5, 1000)) = true)
    by reflexivity.
  (* rand(1, 6) *)
  destruct (rand_effect (SR := SRi) (with_clock n0 (initial E (integer Int) n0))
              [] 1 6 (invariant_with_clock n0 _ _ (invariant_initial n0))
              Hd16 Hh16)
    as (r1 & wi1 & H1 & Hr1 & Hinv1 & Hn1 & Hs1 & Hc1).
  rewrite (call_returns _ _ _ _ _ H1). cbn [bind].
  cbn [with_clock clock_reads get_rand_impl_statics initial] in Hc1.
  rewrite Hc1.
  (* f = get_rand(1, 12) *)
  destruct (get_rand_effect (SR := SRi) (with_clock (n0 + 1) wi1) [] 1 12
              (invariant_with_clock _ _ _ Hinv1) Hd112 Hh112)
    as (wi2 & H2 & Hinv2 & Hn2 & Hs2 & Hc2).
  rewrite (call_returns _ _ _ _ _ H2). cbn [bind].
  cbn [with_clock clock_reads get_rand_impl_statics] in Hc2.
  destruct (get_rand_impl_statics wi1) as [st1|] eqn:Est1; [|congruence].
  rewrite Hc2, Nat.add_0_r.
  (* f() four times *)
  set (f := mk_sampler (T := integer Int)
              (pair (A := integer Int) (B := integer Int) 1 12)) in *.
  destruct (invoke_n_effect (SR := SRi) f 4 (with_clock (n0 + 1) wi2) _
              (invariant_with_clock _ _ _ Hinv2) (or_introl eq_refl))
    as (r2 & wi3 & H3 & Hlen3 & Hr3 & Hinv3 & Hs3 & Hc3).
  rewrite (call_returns (invoke_n (SR := SRi) f 4) _ _ _ _ H3).
  cbn [bind].
  cbn [with_clock clock_reads] in Hc3. rewrite Hc3.
  (* rand(3.14, 42.) *)
  assert (Hd4 : dist_requires (T := floating Double) lit_3_14
                  (IEEE.of_int Double 42) = true) by (vm_compute; reflexivity).
  assert (Hh4 : returns (hash_pair (T := floating Double)
                           (lit_3_14, IEEE.of_int Double 42)) = true)
    by (vm_compute; reflexivity).
  destruct (rand_effect (SR := SRd)
              (with_clock (n0 + 1) (initial E (floating Double) n0)) []
              lit_3_14 (IEEE.of_int Double 42)
              (invariant_with_clock _ _ _ (invariant_initial n0)) Hd4 Hh4)
    as (r3 & wd1 & H4 & Hr4 & Hinv4 & Hn4 & Hs4 & Hc4).
  rewrite (call_returns _ _ _ _ _ H4). cbn [bind].
  cbn [with_clock clock_reads get_rand_impl_statics rand_impl_statics initial]
    in Hc4, Hs4.
  rewrite Hc4.
  (* g = get_rand(-16., 64.) *)
  assert (Hd5 : dist_requires (T := floating Double) (IEEE.of_int Double (-16))
                  (IEEE.of_int Double 64) = true) by (vm_compute; reflexivity).
  assert (Hh5 : returns (hash_pair (T := floating Double)
                           (IEEE.of_int Double (-16), IEEE.of_int Double 64))
                = true) by (vm_compute; reflexivity).
  destruct (get_rand_effect (SR := SRd) (with_clock (n0 + 1 + 1) wd1) []
              (IEEE.of_int Double (-16)) (IEEE.of_int Double 64)
              (invariant_with_clock _ _ _ Hinv4) Hd5 Hh5)
    as (wd2 & H5 & Hinv5 & Hn5 & Hs5 & Hc5).
  rewrite (call_returns _ _ _ _ _ H5). cbn [bind].
  cbn [with_clock clock_reads get_rand_impl_statics rand_impl_statics]
    in Hc5, Hs5.
  destruct (get_rand_impl_statics wd1) as [std1|] eqn:Estd1; [|congruence].
  rewrite Hc5, Nat.add_0_r.
  (* g() *)
  destruct (invoke_effect (SR := SRd) (with_clock (n0 + 1 + 1) wd2) _
              (mk_sampler (IEEE.of_int Double (-16), IEEE.of_int Double 64))
              (invariant_with_clock _ _ _ Hinv5) (or_introl eq_refl))
    as (r4 & wd3 & H6 & Hr6 & Hinv6 & Hn6 & Hs6 & Hc6).
  rewrite (call_returns _ _ _ _ _ H6). cbn [bind].
  cbn [with_clock clock_reads rand_impl_statics] in Hc6, Hs6. rewrite Hc6.
  (* rand<short>() *)
  assert (Hd7 : dist_requires (T := integer Short)
                  (of_value_type (T := integer Short)
                     (range_min (T := integer Short)))
                  (of_value_type (T := integer Short)
                     (range_max (T := integer Short))) = true)
    by reflexivity.
  destruct (rand_tpl_effect (SR := SRs)
              (with_clock (n0 + 1 + 1) (initial E (integer Short) n0)) []
              (range_min (T := integer Short)) (range_max (T := integer Short))
              (invariant_with_clock _ _ _ (invariant_initial n0)) Hd7)
    as (r5 & ws1 & H7 & Hr7 & Hinv7 & _ & Hc7).
  change (rand_tpl (SR := SRs) (range_min (T := integer Short))
            (range_max (T := integer Short))
            (with_clock (n0 + 1 + 1) (initial E (integer Short) n0)))
    with (rand_default (SR := SRs)
            (with_clock (n0 + 1 + 1) (initial E (integer Short) n0))) in H7.
  rewrite (call_returns (rand_default (SR := SRs)) _ _ _ _ H7). cbn [bind].
  cbn [with_clock clock_reads rand_impl_statics initial instantiation] in Hc7.
  rewrite Hc7.
  (* rand<double, -2, 3>() *)
  assert (Hd8 : dist_requires (T := floating Double)
                  (of_value_type (T := floating Double) (-2))
                  (of_value_type (T := floating Double) 3) = true)
    by (vm_compute; reflexivity).
  destruct (rand_tpl_effect (SR := SRd) (with_clock (n0 + 1 + 1 + 1) wd3) _
              (-2) 3 (invariant_with_clock _ _ _ Hinv6) Hd8)
    as (r6 & wd4 & H8 & Hr8 & Hinv8 & _ & Hc8).
  rewrite (call_returns _ _ _ _ _ H8). cbn [bind].
  cbn [with_clock clock_reads rand_impl_statics] in Hc8.
  rewrite Hs6, Hs5, Hs4 in Hc8. cbn [instantiation] in Hc8. rewrite Hc8.
  (* rand(5, 1000) *)
  destruct (rand_effect (SR := SRi) (with_clock (n0 + 1 + 1 + 1 + 1) wi3) _
              5 1000 (invariant_with_clock _ _ _ Hinv3) Hd5k Hh5k)
    as (n & wi4 & H9 & Hr9 & Hinv9 & _ & _ & Hc9).
  rewrite (call_returns _ _ _ _ _ H9). cbn [bind].
  cbn [with_clock clock_reads get_rand_impl_statics] in Hc9.
  assert (Hst3 : get_rand_impl_statics wi3 <> None).
  { destruct Hinv3 as [_ _ H3' _].
    now destruct (H3' _ (or_introl eq_refl)). }
  destruct (get_rand_impl_statics wi3) as [st3|]; [|congruence].
  rewrite Hc9, Nat.add_0_r.
  (* get_rand(-100.f, 100.f) *)
  assert (Hd10 : dist_requires (T := floating Float) (IEEE.of_int Float (-100))
                   (IEEE.of_int Float 100) = true) by (vm_compute; reflexivity).
  assert (Hh10 : returns (hash_pair (T := floating Float)
                            (IEEE.of_int Float (-100), IEEE.of_int Float 100))
                 = true) by (vm_compute; reflexivity).
  destruct (get_rand_effect (SR := SRf)
              (with_clock (n0 + 1 + 1 + 1 + 1) (initial E (floating Float) n0)) []
              (IEEE.of_int Float (-100)) (IEEE.of_int Float 100)
              (invariant_with_clock _ _ _ (invariant_initial n0)) Hd10 Hh10)
    as (wf1 & H10 & Hinv10 & _ & _ & Hc10).
  rewrite (call_returns _ _ _ _ _ H10). cbn [bind].
  cbn [with_clock clock_reads get_rand_impl_statics initial] in Hc10.
  rewrite Hc10.
  (* std::generate *)
  set (h := mk_sampler (T := floating Float)
              (IEEE.of_int Float (-100), IEEE.of_int Float 100)) in *.
  destruct (invoke_n_effect (SR := SRf) h
              (Z.to_nat n) (with_clock (n0 + 1 + 1 + 1 + 1 + 1) wf1) _
              (invariant_with_clock _ _ _ Hinv10) (or_introl eq_refl))
    as (v & wf2 & H11 & Hlen11 & Hr11 & _ & _ & Hc11).
  rewrite (call_returns (invoke_n (SR := SRf) h (Z.to_nat n)) _ _ _ _ H11).
  cbn [bind].
  cbn [with_clock clock_reads] in Hc11. rewrite Hc11.
  eexists. split; [apply f_equal, f_equal2; [reflexivity|lia]|].
  cbn [line1 line2 line3 line4 line5 line6 line7].
  apply in_range_integer in Hr1, Hr7, Hr9.
  split; [exact Hr1|]. split; [exact Hlen3|]. split.
  { eapply Forall_impl; [|exact Hr3].
    intros a Ha. now apply in_range_integer in Ha. }
  split; [exact Hr4|]. split; [exact Hr6|]. split; [exact Hr7|].
  split; [exact Hr8|]. split; [rewrite Hlen11; lia|exact Hr11].
Qed.

(** The theorem with the concrete standard library. *)
Lemma main_prints_in_range_witness :
  exists p,
    main (lcg_integer Short) (lcg_integer Int)
         (lcg_floating Float) (lcg_floating Double) 0 = Returns (p, 5%nat) /\
    1 <= line1 p <= 6 /\
    length (line2 p) = 4%nat /\
    Forall (fun v => 1 <= v <= 12) (line2 p) /\
    in_range (lit_3_14, IEEE.of_int Double 42) (line3 p) /\
    in_range (IEEE.of_int Double (-16), IEEE.of_int Double 64) (line4 p) /\
    -32768 <= line5 p <= 32767 /\
    in_range (IEEE.of_int Double (-2), IEEE.of_int Double 3) (line6 p) /\
    (5 <= length (line7 p) <= 1000)%nat /\
    Forall (in_range (IEEE.of_int Float (-100), IEEE.of_int Float 100))
      (line7 p).
Proof.
  exact (main_prints_in_range Z (lcg_integer Short) (lcg_integer Int)
           (lcg_floating Float) (lcg_floating Double)
           (lcg_integer_laws Short) (lcg_integer_laws Int)
           (lcg_floating_laws Float) (lcg_floating_laws Double) 0).
Defined.
